(** * obsidian-mindmap: outline parser, layout arithmetic and view fitting

    A shallow embedding of the TypeScript sources

      - [parser.ts]   ([parseMarkdownList], [parseHeadingsMode], [parseListMode],
                       the process-wide [collapsedStateMap]),
      - [renderer.ts] ([calculateTextWidth], the two subtree-height functions,
                       [zoom], [centerTree], [renderOutlineView],
                       [renderRadialMindMap], [createXMindCircle];
                       [expandAll], [collapseAll], the indicator's click
                       handler, [toggleFullscreen], the drag and pinch
                       listeners of [setupZoomAndPan], [countDescendants]),
      - [settings.ts] (the note-panel-width handler and the theme handlers of
                       [MindMapSettingTab.display], [applyTheme]),
      - [constants.ts] ([DEFAULT_SETTINGS], [PRESET_THEMES]).

    Modelling conventions.

      - A JavaScript string is its sequence of UTF-16 code units, [list N].
      - JavaScript objects built by the parser are mutable and shared between
        the parent's [children] array and the parser's stack; they live in an
        explicit heap (a list of cells, a reference is an index) and the
        returned object graph is read back as an inductive tree.
      - The module-level [collapsedStateMap] is a [gmap] from ids to booleans.
      - JavaScript numbers that only ever hold small integers (levels, indents,
        counters, subtree heights) are [nat] or [Z]; layout coordinates are
        exact rationals [Q] (the sources use IEEE doubles; every statement
        below is either an identity of the underlying arithmetic or a strict
        comparison with a margin far above rounding error).  A bit-exact
        double-precision cross-check of the text-width comparison is included. *)

From Stdlib Require Import ZArith NArith QArith Qminmax Lia Lqa List Bool Ascii String.
From Stdlib Require Import Floats DecimalNat.
From stdpp Require Import base gmap list.
Import ListNotations.

Set Default Proof Using "Type".

(* ================================================================== *)
(** ** JavaScript strings *)
(* ================================================================== *)

Module JsString.

Open Scope N_scope.

(** A string is a list of UTF-16 code units. *)
Abbreviation jsstring := (list N).

(** ASCII literals. *)
Definition lit (s : string) : jsstring :=
  map N_of_ascii (list_ascii_of_string s).

Definition HASH : N := 35.      (* '#' *)
Definition DASH : N := 45.      (* '-' *)
Definition STAR : N := 42.      (* '*' *)
Definition SPACE : N := 32.     (* ' ' *)
Definition TAB : N := 9.        (* '\t' *)
Definition NEWLINE : N := 10.   (* '\n' *)
Definition UNDERSCORE : N := 95.

(** The regular-expression class [\s], which is also the set that
    [String.prototype.trim] strips: WhiteSpace and LineTerminator. *)
Definition isSpace (c : N) : bool :=
  (c =? 9) || (c =? 10) || (c =? 11) || (c =? 12) || (c =? 13) || (c =? 32)
  || (c =? 0xa0) || (c =? 0x1680)
  || ((0x2000 <=? c) && (c <=? 0x200a))
  || (c =? 0x2028) || (c =? 0x2029) || (c =? 0x202f) || (c =? 0x205f)
  || (c =? 0x3000) || (c =? 0xfeff).

(** Characters the regular-expression dot does not match. *)
Definition isLineTerminator (c : N) : bool :=
  (c =? 10) || (c =? 13) || (c =? 0x2028) || (c =? 0x2029).

Fixpoint dropWhile (p : N -> bool) (s : jsstring) : jsstring :=
  match s with
  | [] => []
  | c :: s' => if p c then dropWhile p s' else s
  end.

Fixpoint countWhile (p : N -> bool) (s : jsstring) : nat :=
  match s with
  | [] => 0%nat
  | c :: s' => if p c then S (countWhile p s') else 0%nat
  end.

Definition trimStart (s : jsstring) : jsstring := dropWhile isSpace s.
Definition trimEnd (s : jsstring) : jsstring := rev (dropWhile isSpace (rev s)).

(** [s.trim()] *)
Definition trim (s : jsstring) : jsstring := trimEnd (trimStart s).

(** Truthiness of a string: non-empty. *)
Definition truthy (s : jsstring) : bool :=
  match s with [] => false | _ => true end.

(** [s.split('\n')]: never the empty array. *)
Fixpoint split (s : jsstring) : list jsstring :=
  match s with
  | [] => [[]]
  | c :: s' =>
      if c =? NEWLINE then [] :: split s'
      else match split s' with
           | l :: ls => (c :: l) :: ls
           | [] => [[c]]
           end
  end.

(** [lines.join('\n')] *)
Fixpoint join (ls : list jsstring) : jsstring :=
  match ls with
  | [] => []
  | [l] => l
  | l :: ls' => l ++ NEWLINE :: join ls'
  end.

(** [s.startsWith('#')] *)
Definition startsWithHash (s : jsstring) : bool :=
  match s with c :: _ => c =? HASH | [] => false end.

(** [s.substring(0, n)] *)
Definition substring0 (n : nat) (s : jsstring) : jsstring := take n s.

(** [s.replace(/\s+/g, '_')]: every maximal run of whitespace becomes one
    underscore.  [inRun] records that the previous unit was whitespace. *)
Fixpoint replaceSpaceRuns (inRun : bool) (s : jsstring) : jsstring :=
  match s with
  | [] => []
  | c :: s' =>
      if isSpace c
      then (if inRun then replaceSpaceRuns true s'
            else UNDERSCORE :: replaceSpaceRuns true s')
      else c :: replaceSpaceRuns false s'
  end.

(** Decimal rendering of a non-negative integer, as in a template literal. *)
Fixpoint digits (d : Decimal.uint) : jsstring :=
  match d with
  | Decimal.Nil => []
  | Decimal.D0 d => 48 :: digits d
  | Decimal.D1 d => 49 :: digits d
  | Decimal.D2 d => 50 :: digits d
  | Decimal.D3 d => 51 :: digits d
  | Decimal.D4 d => 52 :: digits d
  | Decimal.D5 d => 53 :: digits d
  | Decimal.D6 d => 54 :: digits d
  | Decimal.D7 d => 55 :: digits d
  | Decimal.D8 d => 56 :: digits d
  | Decimal.D9 d => 57 :: digits d
  end.

Definition natToString (n : nat) : jsstring := digits (Nat.to_uint n).

(** String equality [===]. *)
Definition streq (a b : jsstring) : bool := bool_decide (a = b).

(** [/^\s*#{2,}\s/.test(line)] *)
Definition testMultiLevelHeading (line : jsstring) : bool :=
  let r := dropWhile isSpace line in
  (2 <=? countWhile (N.eqb HASH) r)%nat
  && match dropWhile (N.eqb HASH) r with
     | c :: _ => isSpace c
     | [] => false
     end.

(** [/^\s*#+\s/.test(line)] *)
Definition testHeading (line : jsstring) : bool :=
  let r := dropWhile isSpace line in
  (1 <=? countWhile (N.eqb HASH) r)%nat
  && match dropWhile (N.eqb HASH) r with
     | c :: _ => isSpace c
     | [] => false
     end.

(** [/^\s*[-*]\s/.test(line)] *)
Definition testListItem (line : jsstring) : bool :=
  match dropWhile isSpace line with
  | c :: d :: _ => ((c =? DASH) || (c =? STAR)) && isSpace d
  | _ => false
  end.

(** [trimmed.match(/^(#+)\s*( .* )$/)]: the number of hashes captured by the
    first group and the text captured by the second.  The greedy groups take
    every leading hash and every following whitespace unit; the dot does not
    cross a line terminator and [$] only matches at the end, so the match
    fails when the remainder still holds one (no shorter choice of the first
    two groups can help: the dot would have to cross the same terminator). *)
Definition matchHeading (trimmed : jsstring) : option (nat * jsstring) :=
  let level := countWhile (N.eqb HASH) trimmed in
  let rest := dropWhile isSpace (dropWhile (N.eqb HASH) trimmed) in
  if (1 <=? level)%nat && forallb (fun c => negb (isLineTerminator c)) rest
  then Some (level, rest)
  else None.

(** [trimmed.replace(/^#+\s*/, '')] (the caller has checked [startsWith('#')],
    without a leading hash nothing is replaced). *)
Definition stripHashes (trimmed : jsstring) : jsstring :=
  if startsWithHash trimmed
  then dropWhile isSpace (dropWhile (N.eqb HASH) trimmed)
  else trimmed.

(** [trimmed.replace(/^[-*]\s*/, '')] *)
Definition stripBullet (trimmed : jsstring) : jsstring :=
  match trimmed with
  | c :: r => if (c =? DASH) || (c =? STAR) then dropWhile isSpace r else trimmed
  | [] => []
  end.

(** Iteration [for (const char of s)] walks code points: a high surrogate
    followed by a low surrogate is one character. *)
Definition isHighSurrogate (c : N) : bool := (0xd800 <=? c) && (c <=? 0xdbff).
Definition isLowSurrogate (c : N) : bool := (0xdc00 <=? c) && (c <=? 0xdfff).

Fixpoint chars (s : jsstring) : list jsstring :=
  match s with
  | [] => []
  | c :: s' =>
      match s' with
      | d :: s'' =>
          if isHighSurrogate c && isLowSurrogate d
          then [c; d] :: chars s''
          else [c] :: chars s'
      | [] => [[c]]
      end
  end.

End JsString.

(* ================================================================== *)
(** ** types.ts: the node type *)
(* ================================================================== *)

Module Tree.
Import JsString.

#[local] Unset Elimination Schemes.

(** [interface MindMapNode] of types.ts, as a finite tree. *)
Inductive MindMapNode : Type :=
  mkNode {
    id : jsstring;
    text : jsstring;
    children : list MindMapNode;
    collapsed : bool;
    note : option jsstring
  }.
#[local] Set Elimination Schemes.

(** Every node of a tree, parent before children, children in order. *)
Fixpoint nodes (t : MindMapNode) : list MindMapNode :=
  t :: flat_map nodes (children t).

Definition ids (t : MindMapNode) : list jsstring := map id (nodes t).
Definition flags (t : MindMapNode) : list bool := map collapsed (nodes t).

End Tree.

(* ================================================================== *)
(** ** parser.ts *)
(* ================================================================== *)

(** [MindMapRenderer] in renderer.ts carries private copies of the three
    parse functions; they differ from the ones below only in reading the map
    through [getCollapsedStateMap()]. *)

Module Parser.
Import JsString Tree.

(** *** The collapse-state store *)

(** [let collapsedStateMap: Map<string, boolean>] *)
Abbreviation Store := (gmap jsstring bool).

Definition setCollapsedState (i : jsstring) (c : bool) (m : Store) : Store :=
  <[i := c]> m.

Definition clearCollapsedStateMap (m : Store) : Store := ∅.

(** [collapsedStateMap.get(nodeId) || false] *)
Definition getCollapsed (m : Store) (i : jsstring) : bool :=
  match m !! i with
  | Some b => b || false
  | None => false
  end.

(** *** Objects under construction *)

(** A node object while the parser still mutates it: [children] holds
    references.  A reference is the index of the object in the heap. *)
Record Obj : Type :=
  mkObj {
    o_id : jsstring;
    o_text : jsstring;
    o_children : list nat;
    o_collapsed : bool;
    o_note : option jsstring
  }.

Abbreviation Heap := (list Obj).

(** An object literal [{ id, text, children: [], collapsed }]. *)
Definition newObj (i t : jsstring) (c : bool) : Obj := mkObj i t [] c None.

(** [parent.children.push(child)] *)
Definition pushChild (h : Heap) (parent child : nat) : Heap :=
  match h !! parent with
  | Some o =>
      <[parent := mkObj (o_id o) (o_text o) (o_children o ++ [child])
                        (o_collapsed o) (o_note o)]> h
  | None => h
  end.

(** [node.note = n] *)
Definition setNote (h : Heap) (r : nat) (n : jsstring) : Heap :=
  match h !! r with
  | Some o =>
      <[r := mkObj (o_id o) (o_text o) (o_children o) (o_collapsed o) (Some n)]> h
  | None => h
  end.

(** Reading the finished object graph back as trees, one per heap cell.
    The parsers only ever link an object to objects allocated after it
    (lemmas [parseHeadingsMode_forward] and [parseListMode_forward]), so the
    cells are read from the last to the first and a child reference is looked
    up among the trees already read. *)
Fixpoint snapshotFrom (base : nat) (cells : list Obj) : list MindMapNode :=
  match cells with
  | [] => []
  | o :: rest =>
      let ts := snapshotFrom (S base) rest in
      mkNode (o_id o) (o_text o)
             (omap (fun r => if (base <? r)%nat then ts !! (r - S base)%nat else None)
                   (o_children o))
             (o_collapsed o) (o_note o)
      :: ts
  end.

(** The value a caller holding reference [r] sees ([None] renders [null]). *)
Definition snapshot (h : Heap) (r : option nat) : option MindMapNode :=
  match r with
  | Some r => snapshotFrom 0 h !! r
  | None => None
  end.

(** *** parseHeadingsMode *)

Record HEntry : Type := mkHEntry { h_node : nat; h_level : nat }.

(** The local variables of [parseHeadingsMode].  The array [stack] is kept
    with its last element (the top) first. *)
Record HState : Type :=
  mkHState {
    hs_heap : Heap;
    hs_root : option nat;
    hs_stack : list HEntry;
    hs_currentNode : option nat;
    hs_noteLines : list jsstring;
    hs_nodeIndex : nat
  }.

Definition hsInit : HState := mkHState [] None [] None [] 0.

Definition flushNote (st : HState) : HState :=
  match hs_currentNode st, hs_noteLines st with
  | Some cur, _ :: _ =>
      mkHState (setNote (hs_heap st) cur (trim (join (hs_noteLines st))))
               (hs_root st) (hs_stack st) (hs_currentNode st) []
               (hs_nodeIndex st)
  | _, _ => st
  end.

Definition headingId (t : jsstring) (level index : nat) : jsstring :=
  lit "heading-" ++ natToString level ++ lit "-" ++ natToString index
  ++ lit "-" ++ replaceSpaceRuns false (substring0 20 t).

(** [while (stack.length > 0 && stack[stack.length - 1].level >= level) stack.pop()] *)
Fixpoint popLevels (level : nat) (stack : list HEntry) : list HEntry :=
  match stack with
  | e :: rest => if (level <=? h_level e)%nat then popLevels level rest else stack
  | [] => []
  end.

(** One iteration of [for (const line of lines)]. *)
Definition headingStep (m : Store) (st : HState) (line : jsstring) : HState :=
  let trimmed := trim line in
  match matchHeading trimmed with
  | Some (level, captured) =>
      let st := flushNote st in
      let nodeText := trim captured in
      let nodeId := headingId nodeText level (hs_nodeIndex st) in
      let newNode := length (hs_heap st) in
      let heap := hs_heap st ++ [newObj nodeId nodeText (getCollapsed m nodeId)] in
      let nodeIndex := S (hs_nodeIndex st) in
      match hs_root st with
      | None =>
          mkHState heap (Some newNode) (mkHEntry newNode level :: hs_stack st)
                   (Some newNode) (hs_noteLines st) nodeIndex
      | Some root =>
          let stack := popLevels level (hs_stack st) in
          let heap :=
            match stack with
            | parent :: _ => pushChild heap (h_node parent) newNode
            | [] => pushChild heap root newNode
            end in
          mkHState heap (Some root) (mkHEntry newNode level :: stack)
                   (Some newNode) (hs_noteLines st) nodeIndex
      end
  | None =>
      if truthy trimmed
      then mkHState (hs_heap st) (hs_root st) (hs_stack st) (hs_currentNode st)
                    (hs_noteLines st ++ [trimmed]) (hs_nodeIndex st)
      else st
  end.

Definition headingRun (m : Store) (lines : list jsstring) : HState :=
  flushNote (fold_left (headingStep m) lines hsInit).

(** The reference returned by [parseHeadingsMode] and the heap it points into. *)
Definition parseHeadingsModeRef (m : Store) (lines : list jsstring)
  : option nat * Heap :=
  let st := headingRun m lines in (hs_root st, hs_heap st).

Definition parseHeadingsMode (m : Store) (lines : list jsstring)
  : option MindMapNode :=
  let '(r, h) := parseHeadingsModeRef m lines in snapshot h r.

(** *** parseListMode *)

Record LEntry : Type := mkLEntry { l_node : nat; l_level : Z; l_indent : Z }.

(** The title scan at the head of [parseListMode]: the first non-blank line
    decides; the result is [(rootTitle, startIndex)].  [i] is the index of the
    head of [lines]. *)
Fixpoint scanTitle (i : nat) (lines : list jsstring) : jsstring * nat :=
  match lines with
  | [] => (lit "Root", 0%nat)
  | line :: rest =>
      let trimmed := trim line in
      if negb (truthy trimmed) then scanTitle (S i) rest
      else if startsWithHash trimmed
           then (trim (stripHashes trimmed), S i)
           else (lit "Root", 0%nat)
  end.

(** [getIndentWidth]: a space counts 1, a tab 4, anything else stops. *)
Fixpoint indentOfChars (cs : list jsstring) : nat :=
  match cs with
  | c :: rest =>
      if streq c [SPACE] then (1 + indentOfChars rest)%nat
      else if streq c [TAB] then (4 + indentOfChars rest)%nat
      else 0%nat
  | [] => 0%nat
  end.

Definition getIndentWidth (line : jsstring) : nat := indentOfChars (chars line).

Definition listId (t : jsstring) (indent index : nat) : jsstring :=
  lit "list-" ++ natToString indent ++ lit "-" ++ natToString index
  ++ lit "-" ++ replaceSpaceRuns false (substring0 20 t).

(** [while (stack.length > 1 && stack[stack.length - 1].indent >= indent) stack.pop()] *)
Fixpoint popIndents (indent : Z) (stack : list LEntry) : list LEntry :=
  match stack with
  | e :: (_ :: _) as rest =>
      if (indent <=? l_indent e)%Z then popIndents indent rest else stack
  | _ => stack
  end.

Record LState : Type :=
  mkLState {
    ls_heap : Heap;
    ls_stack : list LEntry;
    ls_nodeIndex : nat
  }.

(** One iteration of the main loop of [parseListMode]. *)
Definition listStep (m : Store) (st : LState) (line : jsstring) : LState :=
  let trimmed := trim line in
  if negb (truthy trimmed) then st
  else if startsWithHash trimmed then st
  else
    let indent := getIndentWidth line in
    let nodeText := trim (stripBullet trimmed) in
    let nodeId := listId nodeText indent (ls_nodeIndex st) in
    let newNode := length (ls_heap st) in
    let heap := ls_heap st ++ [newObj nodeId nodeText (getCollapsed m nodeId)] in
    let stack := popIndents (Z.of_nat indent) (ls_stack st) in
    match stack with
    | parent :: _ =>
        mkLState (pushChild heap (l_node parent) newNode)
                 (mkLEntry newNode (Z.of_nat (length stack) - 1) (Z.of_nat indent)
                  :: stack)
                 (S (ls_nodeIndex st))
    | [] => st  (* unreachable: the stack always holds the root entry *)
    end.

(** The state after [const root = {...}; const stack = [{root, -1, -1}]]. *)
Definition lsInit (m : Store) (rootTitle : jsstring) : LState :=
  mkLState [newObj (lit "root") rootTitle (getCollapsed m (lit "root"))]
           [mkLEntry 0 (-1) (-1)] 0.

Definition listRun (m : Store) (lines : list jsstring) : LState :=
  let '(rootTitle, startIndex) := scanTitle 0 lines in
  fold_left (listStep m) (drop startIndex lines) (lsInit m rootTitle).

(** The final test [root.children.length === 1 && rootTitle === 'Root']. *)
Definition parseListModeRef (m : Store) (lines : list jsstring)
  : option nat * Heap :=
  let rootTitle := fst (scanTitle 0 lines) in
  let st := listRun m lines in
  match ls_heap st !! 0%nat with
  | Some root =>
      match o_children root with
      | [only] =>
          if streq rootTitle (lit "Root")
          then (Some only, ls_heap st)
          else (Some 0%nat, ls_heap st)
      | _ => (Some 0%nat, ls_heap st)
      end
  | None => (Some 0%nat, ls_heap st)
  end.

Definition parseListMode (m : Store) (lines : list jsstring)
  : option MindMapNode :=
  let '(r, h) := parseListModeRef m lines in snapshot h r.

(** *** parseMarkdownList *)

(** The three [lines.some(...)] tests and the two [if]s that follow. *)
Definition hasMultiLevelHeadings (lines : list jsstring) : bool :=
  existsb testMultiLevelHeading lines.
Definition hasListItems (lines : list jsstring) : bool :=
  existsb testListItem lines.
Definition hasHeadings (lines : list jsstring) : bool :=
  existsb testHeading lines.

Definition parseMarkdownList (m : Store) (text : jsstring)
  : option MindMapNode :=
  let lines := split text in
  if (length lines =? 0)%nat then None
  else if hasMultiLevelHeadings lines then parseHeadingsMode m lines
  else if hasHeadings lines && negb (hasListItems lines)
       then parseHeadingsMode m lines
  else parseListMode m lines.

End Parser.

(* ================================================================== *)
(** ** renderer.ts: measurement, subtree heights, zoom, view fitting *)
(* ================================================================== *)

Module Renderer.
Import JsString Tree.

Open Scope Q_scope.

(** *** calculateTextWidth *)

(** [/[\u4e00-\u9fff\u3000-\u303f\uff00-\uffef]/.test(char)]: some code unit
    of the character lies in one of the three ranges. *)
Definition inCJKRanges (u : N) : bool :=
  ((0x4e00 <=? u) && (u <=? 0x9fff))%N
  || ((0x3000 <=? u) && (u <=? 0x303f))%N
  || ((0xff00 <=? u) && (u <=? 0xffef))%N.

Definition isCJKChar (char : jsstring) : bool := existsb inCJKRanges char.

Definition ofNat (n : nat) : Q := inject_Z (Z.of_nat n).

(** [Math.max(10, 13 - depth)] *)
Definition labelFontSize (depth : nat) : Q := Qmax 10 (13 - ofNat depth).

(** The body of [for (const char of text)]. *)
Definition addCharWidth (fontSize : Q) (totalWidth : Q) (char : jsstring) : Q :=
  if isCJKChar char then totalWidth + fontSize
  else totalWidth + fontSize * 0.55.

Definition calculateTextWidth (text : jsstring) (depth : nat) : Q :=
  let fontSize := labelFontSize depth in
  fold_left (addCharWidth fontSize) (chars text) 0 + 16.

(** The same function on IEEE binary64 numbers, the arithmetic JavaScript
    really performs.  [0x1.199999999999ap-1] is the double nearest to 0.55. *)
Definition fmax (a b : float) : float := if PrimFloat.ltb a b then b else a.

Definition calculateTextWidthF (text : jsstring) (depth : nat) : float :=
  let fontSize :=
    fmax 10 (PrimFloat.sub 13 (PrimFloat.of_uint63 (Uint63.of_Z (Z.of_nat depth)))) in
  PrimFloat.add
    (fold_left
       (fun totalWidth char =>
          if isCJKChar char then PrimFloat.add totalWidth fontSize
          else PrimFloat.add totalWidth (PrimFloat.mul fontSize 0x1.199999999999ap-1%float))
       (chars text) 0%float)
    16.

(** *** Subtree heights *)

Open Scope Z_scope.

(** [node.children.length === 0 || node.collapsed] *)
Definition isLeafLike (node : MindMapNode) : bool :=
  (length (children node) =? 0)%nat || collapsed node.

(** The [for (let i = 0; i < n; i++)] loop shared by the two height
    functions: [h] is the recursive call, [gap] the spacing added after every
    child but the last. *)
Definition heightLoop {A : Type} (h : A -> Z) (gap : Z) (n : Z)
  : list A -> Z -> Z -> Z :=
  fix loop (cs : list A) (i : Z) (totalHeight : Z) : Z :=
    match cs with
    | [] => totalHeight
    | child :: rest =>
        let totalHeight := totalHeight + h child in
        let totalHeight := if i <? n - 1 then totalHeight + gap else totalHeight in
        loop rest (i + 1) totalHeight
    end.

Fixpoint calculateTreeHeight (node : MindMapNode) : Z :=
  if isLeafLike node then 24
  else heightLoop calculateTreeHeight 20 (Z.of_nat (length (children node)))
                  (children node) 0 0.

Fixpoint calculateRadialMindMapTreeHeight (node : MindMapNode) : Z :=
  if isLeafLike node then 28
  else
    let verticalGap := 8 in
    Z.max 28
      (heightLoop calculateRadialMindMapTreeHeight verticalGap
                  (Z.of_nat (length (children node))) (children node) 0 0).

(** *** Zoom and pan state *)

Open Scope Q_scope.

Inductive RenderMode : Type := logic | clockwise.

(** The fields of [MindMapRenderer] the zoom and fitting code touches. *)
Record View : Type :=
  mkView {
    renderMode : RenderMode;
    scale : Q;
    translateX : Q;
    translateY : Q
  }.

(** [zoom(factor, centerX?, centerY?)]; [rect] is the top-left corner of
    [this.svg.getBoundingClientRect()] when [this.svg] is set. *)
Definition zoom (factor : Q) (centerX centerY : option Q) (rect : option (Q * Q))
           (v : View) : View :=
  let newScale := Qmax 0.1 (Qmin 5 (scale v * factor)) in
  match centerX, centerY, rect with
  | Some cx, Some cy, Some (rectLeft, rectTop) =>
      let mouseX := cx - rectLeft in
      let mouseY := cy - rectTop in
      mkView (renderMode v) newScale
             (mouseX - (mouseX - translateX v) * (newScale / scale v))
             (mouseY - (mouseY - translateY v) * (newScale / scale v))
  | _, _, _ => mkView (renderMode v) newScale (translateX v) (translateY v)
  end.

(** The scale computed by the [gesturechange] and [touchmove] handlers. *)
Definition pinchScale (initialScale gestureScale : Q) : Q :=
  Qmax 0.1 (Qmin 5 (initialScale * gestureScale)).

(** *** centerTree *)

Record BBox : Type := mkBBox { bx : Q; by_ : Q; bwidth : Q; bheight : Q }.

(** [svg.clientWidth || 800]: zero is falsy. *)
Definition orElse (v d : Q) : Q := if Qeq_bool v 0 then d else v.

Definition centerTree (bbox : BBox) (clientWidth clientHeight : Q) (v : View)
  : View :=
  let svgWidth := orElse clientWidth 800 in
  let svgHeight := orElse clientHeight 600 in
  let scaleX := Qmin 1 ((svgWidth - 80) / bwidth bbox) in
  let scaleY := Qmin 1 ((svgHeight - 60) / bheight bbox) in
  let scale := Qmin (Qmin scaleX scaleY) 1 in
  mkView (renderMode v) scale
         (40 - bx bbox * scale)
         ((svgHeight - bheight bbox * scale) / 2 - by_ bbox * scale).

End Renderer.

(* ================================================================== *)
(** ** settings.ts: the note-panel-width text field *)
(* ================================================================== *)

Module Settings.

Open Scope Z_scope.

(** The one field of [MindMapSettings] the handler writes. *)
Record MindMapSettings : Type := mkSettings { notePanelWidth : Z }.

(** [DEFAULT_SETTINGS.notePanelWidth] of constants.ts. *)
Definition DEFAULT_SETTINGS : MindMapSettings := mkSettings 300.

(** The [onChange] handler of the width field.  [width] is the value of
    [parseInt(value)], [None] standing for [NaN]. *)
Definition notePanelWidthOnChange (width : option Z) (s : MindMapSettings)
  : MindMapSettings :=
  match width with
  | Some w => if (200 <=? w) && (w <=? 800) then mkSettings w else s
  | None => s
  end.

End Settings.

(* ================================================================== *)
(** ** renderer.ts: the two render modes *)
(* ================================================================== *)

Module Drawing.
Import JsString Tree Renderer.

Open Scope Q_scope.

(** The SVG elements the render functions create, with their geometry and
    text; colours, fonts and event listeners are left out.  A collapse
    indicator (the [<g>] built by [createXMindCircle]) is one element. *)
Inductive Svg : Type :=
| Path (p0 p1 p2 p3 : Q * Q)
| Rect (x y width height : Q) (rx : Z)
| Text (x y fontSize : Q) (content : jsstring)
| NoteIcon (x y fontSize : Q)
| Circle (cx cy r : Q) (hidden : bool) (indicator : jsstring).

(** What one render call appends to [linesGroup] and to [nodesGroup]. *)
Record Out : Type := mkOut { linesGroup : list Svg; nodesGroup : list Svg }.

Definition nothing : Out := mkOut [] [].

Definition andThen (a b : Out) : Out :=
  mkOut (linesGroup a ++ linesGroup b) (nodesGroup a ++ nodesGroup b).

(** [if (node.note)]: present and not the empty string. *)
Definition hasNote (node : MindMapNode) : bool :=
  match note node with
  | Some n => truthy n
  | None => false
  end.

Definition hasChildren (node : MindMapNode) : bool :=
  (0 <? length (children node))%nat.

(** U+2212, the minus sign shown by an expanded indicator. *)
Definition MINUS : jsstring := [0x2212%N].

Definition createXMindCircle (circleX circleY nodeRadius : Q)
           (childCount : nat) (isCollapsed : bool) : Svg :=
  Circle circleX circleY nodeRadius (negb isCollapsed)
         (if isCollapsed then natToString childCount else MINUS).

Definition addNoteIcon (x y fontSize : Q) : Svg :=
  NoteIcon x (y + fontSize / 3) (fontSize - 2).

Definition height (node : MindMapNode) : Q :=
  inject_Z (calculateRadialMindMapTreeHeight node).

(** [childHeights.reduce((sum, h) => sum + h, 0) + (children.length - 1) * verticalGap] *)
Definition totalChildrenHeight (cs : list MindMapNode) : Q :=
  fold_left (fun sum h => sum + h) (map height cs) 0
  + (ofNat (length cs) - 1) * 8.

(** [children.forEach((child, i) => { ...; currentY += childHeight + verticalGap })]
    with [body] the rest of the callback. *)
Definition forEachChild (body : MindMapNode -> Q -> Out)
  : list MindMapNode -> Q -> Out :=
  fix loop (cs : list MindMapNode) (currentY : Q) : Out :=
    match cs with
    | [] => nothing
    | child :: rest =>
        andThen (body child currentY) (loop rest (currentY + height child + 8))
    end.

(** The callback of [renderOutlineViewChildren], which
    [renderRadialMindMapChildrenRight] repeats line for line. *)
Fixpoint renderRightChild (child : MindMapNode)
         (parentRight parentY currentY : Q) (depth : nat) : Out :=
  let horizontalGap := 30 in
  let lineStartX := parentRight in
  let turnX := parentRight + horizontalGap / 2 in
  let childHeight := height child in
  let childCenterY := currentY + childHeight / 2 in
  let fontSize := labelFontSize depth in
  let textWidth := calculateTextWidth (text child) depth in
  let noteIconWidth := if hasNote child then 18 else 0 in
  let totalNodeWidth := textWidth + noteIconWidth in
  let nodeHeight := fontSize + 10 in
  let nodeX := parentRight + horizontalGap in
  let nodeRadius := 5 in
  let circleGap := 3 in
  let circleX := nodeX + totalNodeWidth + circleGap + nodeRadius in
  let circleY := childCenterY in
  let lineEndX :=
    if hasChildren child then nodeX + totalNodeWidth + circleGap
    else nodeX + totalNodeWidth in
  let path :=
    Path (lineStartX, parentY) (turnX, parentY) (turnX, childCenterY)
         (lineEndX, childCenterY) in
  let bgRect := Rect nodeX (childCenterY - nodeHeight / 2) totalNodeWidth nodeHeight 3 in
  let label := Text (nodeX + textWidth / 2) (childCenterY + fontSize / 3) fontSize
                    (text child) in
  let icon :=
    if hasNote child then [addNoteIcon (nodeX + textWidth + 2) childCenterY fontSize]
    else [] in
  let circle :=
    if hasChildren child
    then [createXMindCircle circleX circleY nodeRadius (length (children child))
                            (collapsed child)]
    else [] in
  andThen
    (mkOut [path] ([bgRect; label] ++ icon ++ circle))
    (if negb (collapsed child) && hasChildren child
     then
       let childRight := nodeX + totalNodeWidth in
       forEachChild
         (fun c y => renderRightChild c childRight childCenterY y (S depth))
         (children child)
         (childCenterY - totalChildrenHeight (children child) / 2)
     else nothing).

Definition renderOutlineViewChildren (cs : list MindMapNode)
           (parentRight parentY : Q) (depth : nat) : Out :=
  forEachChild (fun c y => renderRightChild c parentRight parentY y depth)
               cs (parentY - totalChildrenHeight cs / 2).

Definition renderRadialMindMapChildrenRight := renderOutlineViewChildren.

(** The callback of [renderRadialMindMapChildrenLeft]: the mirror image. *)
Fixpoint renderLeftChild (child : MindMapNode)
         (parentLeft parentY currentY : Q) (depth : nat) : Out :=
  let horizontalGap := 30 in
  let lineStartX := parentLeft in
  let turnX := parentLeft - horizontalGap / 2 in
  let childHeight := height child in
  let childCenterY := currentY + childHeight / 2 in
  let fontSize := labelFontSize depth in
  let textWidth := calculateTextWidth (text child) depth in
  let noteIconWidth := if hasNote child then 18 else 0 in
  let totalNodeWidth := textWidth + noteIconWidth in
  let nodeHeight := fontSize + 10 in
  let nodeRadius := 5 in
  let circleGap := 3 in
  let nodeX := parentLeft - horizontalGap - totalNodeWidth in
  let circleX := nodeX - circleGap - nodeRadius in
  let circleY := childCenterY in
  let lineEndX := if hasChildren child then nodeX - circleGap else nodeX in
  let path :=
    Path (lineStartX, parentY) (turnX, parentY) (turnX, childCenterY)
         (lineEndX, childCenterY) in
  let bgRect := Rect nodeX (childCenterY - nodeHeight / 2) totalNodeWidth nodeHeight 3 in
  let label := Text (nodeX + textWidth / 2) (childCenterY + fontSize / 3) fontSize
                    (text child) in
  let icon :=
    if hasNote child then [addNoteIcon (nodeX + textWidth + 2) childCenterY fontSize]
    else [] in
  let circle :=
    if hasChildren child
    then [createXMindCircle circleX circleY nodeRadius (length (children child))
                            (collapsed child)]
    else [] in
  andThen
    (mkOut [path] ([bgRect; label] ++ icon ++ circle))
    (if negb (collapsed child) && hasChildren child
     then
       forEachChild
         (fun c y => renderLeftChild c nodeX childCenterY y (S depth))
         (children child)
         (childCenterY - totalChildrenHeight (children child) / 2)
     else nothing).

Definition renderRadialMindMapChildrenLeft (cs : list MindMapNode)
           (parentLeft parentY : Q) (depth : nat) : Out :=
  forEachChild (fun c y => renderLeftChild c parentLeft parentY y depth)
               cs (parentY - totalChildrenHeight cs / 2).

(** The root box and label, common to both modes up to the position. *)
Definition renderOutlineView (root : MindMapNode) : Out :=
  let startX := 50 in
  let totalHeight := height root in
  let startY := totalHeight / 2 + 50 in
  let textWidth := calculateTextWidth (text root) 0 in
  let noteIconWidth := if hasNote root then 20 else 0 in
  let totalNodeWidth := textWidth + noteIconWidth in
  let nodeHeight := 24 in
  let bgRect := Rect startX (startY - nodeHeight / 2) totalNodeWidth nodeHeight 4 in
  let rootText := Text (startX + textWidth / 2) (startY + 5) 14 (text root) in
  let icon :=
    if hasNote root then [addNoteIcon (startX + textWidth + 2) startY 14] else [] in
  andThen
    (mkOut [] ([bgRect; rootText] ++ icon))
    (if hasChildren root
     then
       let parentRight := startX + totalNodeWidth in
       renderOutlineViewChildren (children root) parentRight startY 1
     else nothing).

Definition renderRadialMindMap (root : MindMapNode) : Out :=
  let centerX := 400 in
  let centerY := 300 in
  let textWidth := calculateTextWidth (text root) 0 in
  let noteIconWidth := if hasNote root then 20 else 0 in
  let totalNodeWidth := textWidth + noteIconWidth in
  let nodeHeight := 24 in
  let rootX := centerX - totalNodeWidth / 2 in
  let bgRect := Rect rootX (centerY - nodeHeight / 2) totalNodeWidth nodeHeight 4 in
  let rootText := Text (rootX + textWidth / 2) (centerY + 5) 14 (text root) in
  let icon :=
    if hasNote root then [addNoteIcon (rootX + textWidth + 2) centerY 14] else [] in
  andThen
    (mkOut [] ([bgRect; rootText] ++ icon))
    (if hasChildren root
     then
       let cs := children root in
       (* Math.ceil(children.length / 2) *)
       let rightCount := Nat.div2 (S (length cs)) in
       let rightChildren := take rightCount cs in
       let leftChildren := drop rightCount cs in
       andThen
         (if (0 <? length rightChildren)%nat
          then renderRadialMindMapChildrenRight rightChildren
                 (rootX + totalNodeWidth) centerY 1
          else nothing)
         (if (0 <? length leftChildren)%nat
          then renderRadialMindMapChildrenLeft leftChildren rootX centerY 1
          else nothing)
     else nothing).

(** The [switch (this.renderMode)] of [render] and [refresh]. *)
Definition render (mode : RenderMode) (root : MindMapNode) : Out :=
  match mode with
  | clockwise => renderRadialMindMap root
  | logic => renderOutlineView root
  end.

(** [collapseAll]'s effect on the root object: [node.collapsed = collapsed]. *)
Definition withCollapsed (c : bool) (node : MindMapNode) : MindMapNode :=
  mkNode (id node) (text node) (children node) c (note node).

End Drawing.

(* ================================================================== *)
(** ** Calls in sequence on the module-level store *)
(* ================================================================== *)

Module Session.
Import JsString Tree Parser.

(** A call that may read and write [collapsedStateMap]. *)
Definition Prog (A : Type) : Type := Store -> A * Store.

Definition ret {A : Type} (a : A) : Prog A := fun m => (a, m).

Definition bind {A B : Type} (p : Prog A) (k : A -> Prog B) : Prog B :=
  fun m => let '(a, m') := p m in k a m'.

(** [parseMarkdownList(text)]: the parsers only ever call
    [collapsedStateMap.get]. *)
Definition parse (text : jsstring) : Prog (option MindMapNode) :=
  fun m => (parseMarkdownList m text, m).

(** [setCollapsedState(id, collapsed)] *)
Definition setCollapsed (i : jsstring) (c : bool) : Prog unit :=
  fun m => (tt, setCollapsedState i c m).

(** Two calls in a row, and a toggle followed by a call. *)
Definition parseTwice (text : jsstring)
  : Prog (option MindMapNode * option MindMapNode) :=
  bind (parse text) (fun first =>
  bind (parse text) (fun second =>
  ret (first, second))).

Definition toggleThenParse (i : jsstring) (c : bool) (text : jsstring)
  : Prog (option MindMapNode) :=
  bind (setCollapsed i c) (fun _ => parse text).

End Session.

(* ================================================================== *)
(** ** Vocabulary of the statements *)
(* ================================================================== *)

Module Vocabulary.
Import JsString Tree Parser Renderer Drawing.

(** Sum of a list of heights. *)
Definition sumZ (l : list Z) : Z := fold_right Z.add 0%Z l.

(** The recurrence for a subtree height, with the unit height and the gap
    of a render family as parameters. *)
Definition heightRecurrence (unit gap : Z) (h : MindMapNode -> Z)
           (node : MindMapNode) : Z :=
  if isLeafLike node then unit
  else (sumZ (map h (children node))
        + (Z.of_nat (length (children node)) - 1) * gap)%Z.

(** The strings of the measurement example. *)
Definition zhongwen : jsstring := [0x4e2d; 0x6587]%N.
Definition abcd : jsstring := lit "abcd".
Definition ab : jsstring := lit "ab".


(** [Math.max(lo, Math.min(hi, w))] on integers. *)
Definition clampZ (lo hi w : Z) : Z := Z.max lo (Z.min hi w).

Open Scope N_scope.

(** The shapes of line the mode selection looks for, spelled out: optional
    leading whitespace, the marker, one whitespace unit. *)
Definition HeadingLine (minLevel : nat) (line : jsstring) : Prop :=
  exists ws k c rest,
    forallb isSpace ws = true /\ (minLevel <= k)%nat /\ isSpace c = true
    /\ line = ws ++ repeat HASH k ++ c :: rest.

Definition BulletLine (line : jsstring) : Prop :=
  exists ws b c rest,
    forallb isSpace ws = true /\ (b = DASH \/ b = STAR) /\ isSpace c = true
    /\ line = ws ++ b :: c :: rest.

(** The shape the specification words as "two or more leading [#] markers",
    which asks for nothing after the markers: optional leading whitespace,
    then at least [minLevel] hashes. *)
Definition LeadingHashes (minLevel : nat) (line : jsstring) : Prop :=
  exists ws k rest,
    forallb isSpace ws = true /\ (minLevel <= k)%nat
    /\ line = ws ++ repeat HASH k ++ rest.

Fixpoint takeWhile (p : N -> bool) (s : jsstring) : jsstring :=
  match s with
  | [] => []
  | c :: s' => if p c then c :: takeWhile p s' else []
  end.

(** The flags of a heap object and of a tree, redone from a flag function. *)
Definition retag (f : jsstring -> bool) (o : Parser.Obj) : Parser.Obj :=
  Parser.mkObj (Parser.o_id o) (Parser.o_text o) (Parser.o_children o)
               (f (Parser.o_id o)) (Parser.o_note o).

Fixpoint retagTree (f : jsstring -> bool) (t : MindMapNode) : MindMapNode :=
  mkNode (id t) (text t) (map (retagTree f) (children t)) (f (id t)) (note t).

Definition retagH (f : jsstring -> bool) (st : Parser.HState) : Parser.HState :=
  Parser.mkHState (map (retag f) (Parser.hs_heap st)) (Parser.hs_root st)
                  (Parser.hs_stack st) (Parser.hs_currentNode st)
                  (Parser.hs_noteLines st) (Parser.hs_nodeIndex st).

Definition retagL (f : jsstring -> bool) (st : Parser.LState) : Parser.LState :=
  Parser.mkLState (map (retag f) (Parser.ls_heap st)) (Parser.ls_stack st)
                  (Parser.ls_nodeIndex st).

(** Every reference held by an object points to an object allocated later. *)
Definition forward (h : Parser.Heap) : Prop :=
  forall i o, h !! i = Some o ->
    Forall (fun r => (i < r < length h)%nat) (Parser.o_children o).

(** What the parser states keep true besides [forward]: the references on
    the stack and in [root] are allocated. *)
Definition HInv (st : Parser.HState) : Prop :=
  forward (Parser.hs_heap st)
  /\ Forall (fun e => (Parser.h_node e < length (Parser.hs_heap st))%nat)
            (Parser.hs_stack st)
  /\ (forall r, Parser.hs_root st = Some r ->
                (r < length (Parser.hs_heap st))%nat).

Definition LInv (title : jsstring) (st : Parser.LState) : Prop :=
  forward (Parser.ls_heap st)
  /\ Parser.ls_stack st <> []
  /\ Forall (fun e => (Parser.l_node e < length (Parser.ls_heap st))%nat)
            (Parser.ls_stack st)
  /\ (exists root, Parser.ls_heap st !! 0%nat = Some root
                   /\ Parser.o_id root = lit "root"
                   /\ Parser.o_text root = title).

(** A title line was found: the first non-blank line starts with a hash. *)
Definition titleLineFound (lines : list jsstring) : bool :=
  negb (snd (Parser.scanTitle 0 lines) =? 0)%nat.

(** The synthetic root of List Mode with no item under it. *)
Definition bareRoot (m : Parser.Store) : MindMapNode :=
  mkNode (lit "root") (lit "Root") [] (Parser.getCollapsed m (lit "root")) None.

(** What is drawn below a root: every child, and below a child its own
    children unless it is collapsed (or has none). *)
Fixpoint drawn (t : MindMapNode) : list MindMapNode :=
  t :: (if negb (collapsed t) && hasChildren t
        then flat_map drawn (children t)
        else []).

Definition drawnUnder (cs : list MindMapNode) : list MindMapNode :=
  flat_map drawn cs.

(** An SVG element without its geometry. *)
Inductive Shape : Type :=
| SPath
| SRect
| SText (content : jsstring)
| SNoteIcon
| SCircle (hidden : bool) (indicator : jsstring).

Definition shape (e : Svg) : Shape :=
  match e with
  | Path _ _ _ _ => SPath
  | Rect _ _ _ _ _ => SRect
  | Text _ _ _ content => SText content
  | NoteIcon _ _ _ => SNoteIcon
  | Circle _ _ _ hidden indicator => SCircle hidden indicator
  end.

(** A render result up to geometry. *)
Definition shapes (o : Out) : list Shape * list Shape :=
  (map shape (linesGroup o), map shape (nodesGroup o)).

(** One connector per drawn node. *)
Definition pathsOf (ns : list MindMapNode) : list Shape := map (fun _ => SPath) ns.

(** The elements of a drawn non-root node: box, label, note icon if it has
    a note, and, if it has children, an indicator that is shown with the
    child count when the node is collapsed and hidden with a minus sign
    otherwise. *)
Definition ownShapes (n : MindMapNode) : list Shape :=
  [SRect; SText (text n)]
  ++ (if hasNote n then [SNoteIcon] else [])
  ++ (if hasChildren n
      then [SCircle (negb (collapsed n))
                    (if collapsed n then natToString (length (children n))
                     else MINUS)]
      else []).

(** The elements of the root: box, label, note icon if any; no indicator. *)
Definition rootShapes (n : MindMapNode) : list Shape :=
  [SRect; SText (text n)] ++ (if hasNote n then [SNoteIcon] else []).

Definition isSRect (s : Shape) : bool :=
  match s with SRect => true | _ => false end.

(** Connector paths and drawn boxes of a render result. *)
Definition connectorCount (o : Out) : nat := length (linesGroup o).
Definition drawnNodeCount (o : Out) : nat :=
  length (List.filter isSRect (map shape (nodesGroup o))).

(** The outline [- A / - B] (B nested under A) after [collapseAll]. *)
Definition collapsedExample : MindMapNode :=
  mkNode (lit "list-0-0-A") (lit "A")
         [mkNode (lit "list-2-1-B") (lit "B") [] false None]
         true None.

End Vocabulary.

(* ================================================================== *)
(** ** The order in which the parsers allocate *)
(* ================================================================== *)

Module Preorder.
Import JsString Tree Parser.

(** The [children] arrays of a heap, object by object. *)
Definition kids (h : Heap) : list (list nat) := map o_children h.

(** [Pre g i e]: the objects [i], [i+1], ..., [e-1] are object [i] and all
    that hangs under it, parents before children and siblings in order.
    [Chain g s cs e]: the subtrees of the references [cs] follow one another
    from [s] up to [e]. *)
Inductive Pre (g : list (list nat)) : nat -> nat -> Prop :=
| Pre_intro i e cs :
    g !! i = Some cs -> Chain g (S i) cs e -> Pre g i e
with Chain (g : list (list nat)) : nat -> list nat -> nat -> Prop :=
| Chain_nil s : Chain g s [] s
| Chain_cons s cs e' e :
    Pre g s e' -> Chain g e' cs e -> Chain g s (s :: cs) e.

Scheme Pre_mut := Minimality for Pre Sort Prop
  with Chain_mut := Minimality for Chain Sort Prop.

Combined Scheme Pre_Chain_ind from Pre_mut, Chain_mut.

(** The parser's stack, top first, while the tree is under construction:
    the subtree of the top reaches the end of the heap, and each entry below
    has the entry above it as its last child, after children whose subtrees
    are finished. *)
Fixpoint Below (g : list (list nat)) (c : nat) (stack : list nat) : Prop :=
  match stack with
  | [] => True
  | p :: rest =>
      (exists closed, g !! p = Some (closed ++ [c]) /\ Chain g (S p) closed c)
      /\ Below g p rest
  end.

Definition Open (g : list (list nat)) (stack : list nat) : Prop :=
  match stack with
  | [] => False
  | top :: rest =>
      (exists cs, g !! top = Some cs /\ Chain g (S top) cs (length g))
      /\ Below g top rest
  end.

(** The rightmost path of Heading Mode: the stack, and the root under it
    when the root has been popped. *)
Definition hpath (stack : list HEntry) : list nat :=
  match last (map h_node stack) with
  | Some 0%nat => map h_node stack
  | _ => map h_node stack ++ [0%nat]
  end.

(** The label of a List Mode line that becomes a node, and the lines that do. *)
Definition itemText (line : jsstring) : jsstring :=
  trim (stripBullet (trim line)).

Definition isItemLine (line : jsstring) : bool :=
  truthy (trim line) && negb (startsWithHash (trim line)).

Definition itemTexts (lines : list jsstring) : list jsstring :=
  map itemText (List.filter isItemLine lines).

(** The label of a Heading Mode line that becomes a node, if it does. *)
Definition headingText (line : jsstring) : option jsstring :=
  match matchHeading (trim line) with
  | Some (_, captured) => Some (trim captured)
  | None => None
  end.

Definition headingTexts (lines : list jsstring) : list jsstring :=
  omap headingText lines.

(** The stack of List Mode is the rightmost path, from the newest node down
    to the synthetic root. *)
Definition LOpen (st : LState) : Prop :=
  Open (kids (ls_heap st)) (map l_node (ls_stack st))
  /\ last (map l_node (ls_stack st)) = Some 0%nat.

(** Heading Mode: nothing is allocated before the first heading; from then
    on the root is object 0 and [hpath] is the rightmost path. *)
Definition HOpen (st : HState) : Prop :=
  match hs_root st with
  | None => hs_heap st = [] /\ hs_stack st = []
  | Some r => r = 0%nat /\ Open (kids (hs_heap st)) (hpath (hs_stack st))
  end.

(** The counter behind the ids is the number of nodes made so far, and the
    id of the object at index [k] carries that index. *)
Definition LIds (st : LState) : Prop :=
  S (ls_nodeIndex st) = length (ls_heap st)
  /\ forall k o, ls_heap st !! k = Some o ->
       match k with
       | O => o_id o = lit "root"
       | S j => exists t a, o_id o = listId t a j
       end.

Definition HIds (st : HState) : Prop :=
  hs_nodeIndex st = length (hs_heap st)
  /\ forall k o, hs_heap st !! k = Some o ->
       exists t a, o_id o = headingId t a k.

(** A decimal digit. *)
Definition isDigit (c : N) : bool := ((48 <=? c) && (c <=? 57))%N.

End Preorder.

(* ================================================================== *)
(** ** renderer.ts: the control buttons and the remaining measures *)
(* ================================================================== *)

Module Controls.
Import JsString Tree Parser Renderer Drawing.

(** [countDescendants] *)
Fixpoint countDescendants (node : MindMapNode) : nat :=
  fold_left (fun count child => (count + countDescendants child)%nat)
            (children node) (length (children node)).

Open Scope Q_scope.

(** The private method [setCollapsedState(node, collapsed)]: the node
    objects are updated in place (here: rebuilt) and every change is written
    to the store.  [expandAll] calls it on the root with [false],
    [collapseAll] with [true], when there is a root. *)
Fixpoint setCollapsedStateRec (c : bool) (node : MindMapNode) (m : Store)
  : MindMapNode * Store :=
  if hasChildren node then
    let m1 := setCollapsedState (id node) c m in
    let '(cs, m2) :=
      (fix loop (cs : list MindMapNode) (m : Store)
         : list MindMapNode * Store :=
         match cs with
         | [] => ([], m)
         | child :: rest =>
             let '(child', m') := setCollapsedStateRec c child m in
             let '(rest', m'') := loop rest m' in
             (child' :: rest', m'')
         end) (children node) m1 in
    (mkNode (id node) (text node) cs c (note node), m2)
  else (node, m).


(** The fields of [MindMapRenderer] behind the fullscreen button. *)
Record Screen : Type :=
  mkScreen {
    view : View;
    isFullscreen : bool;
    savedScale : Q;
    savedTranslateX : Q;
    savedTranslateY : Q
  }.

(** The size [centerTree] reads when it runs: the bounding box of the drawing
    and the client size of the SVG element. *)
Record Measured : Type :=
  mkMeasured { m_bbox : BBox; m_clientWidth : Q; m_clientHeight : Q }.

(** [toggleFullscreen] (the wrapper, the group and the SVG element exist once
    [render] has run). *)
Definition toggleFullscreen (now : Measured) (s : Screen) : Screen :=
  let isFullscreen := negb (isFullscreen s) in
  if isFullscreen then
    let saved := view s in
    mkScreen (centerTree (m_bbox now) (m_clientWidth now) (m_clientHeight now)
                         (view s))
             true (scale saved) (translateX saved) (translateY saved)
  else
    mkScreen (mkView (renderMode (view s)) (savedScale s) (savedTranslateX s)
                     (savedTranslateY s))
             false (savedScale s) (savedTranslateX s) (savedTranslateY s).

(** [handleFullscreenChange], with [documentFullscreen] telling whether the
    wrapper is the document's fullscreen element. *)
Definition handleFullscreenChange (documentFullscreen : bool) (now : Measured)
           (s : Screen) : Screen :=
  if eqb (isFullscreen s) documentFullscreen then s
  else if documentFullscreen then
    mkScreen (centerTree (m_bbox now) (m_clientWidth now) (m_clientHeight now)
                         (view s))
             true (savedScale s) (savedTranslateX s) (savedTranslateY s)
  else
    mkScreen (mkView (renderMode (view s)) (savedScale s) (savedTranslateX s)
                     (savedTranslateY s))
             false (savedScale s) (savedTranslateX s) (savedTranslateY s).

(** A call of [zoom] as an event on the screen state. *)
Record ZoomEvent : Type :=
  mkZoomEvent {
    z_factor : Q;
    z_centerX : option Q;
    z_centerY : option Q;
    z_rect : option (Q * Q)
  }.

Definition zoomScreen (e : ZoomEvent) (s : Screen) : Screen :=
  mkScreen (zoom (z_factor e) (z_centerX e) (z_centerY e) (z_rect e) (view s))
           (isFullscreen s) (savedScale s) (savedTranslateX s)
           (savedTranslateY s).

End Controls.

(* ================================================================== *)
(** ** settings.ts and constants.ts: themes *)
(* ================================================================== *)

Module Themes.
Import JsString.

(** [interface MindMapTheme] *)
Record MindMapTheme : Type :=
  mkTheme {
    name : jsstring;
    canvasBackgroundColor : jsstring;
    fontColor : jsstring;
    nodeBackgroundColor : jsstring;
    lineColor : jsstring;
    connectionColor : jsstring
  }.

Definition theme (n c f b l k : string) : MindMapTheme :=
  mkTheme (lit n) (lit c) (lit f) (lit b) (lit l) (lit k).

(** [PRESET_THEMES] of constants.ts. *)
Definition PRESET_THEMES : list MindMapTheme :=
  [ theme "Default" "#ffffff" "#000000" "#ffffff" "#605CE5" "#605CE5";
    theme "Dark" "#1e1e1e" "#e0e0e0" "#2d2d2d" "#7c7c7c" "#7c7c7c";
    theme "Darcula" "#2b2b2b" "#a9b7c6" "#3c3f41" "#808080" "#808080";
    theme "Dracula" "#282a36" "#f8f8f2" "#44475a" "#bd93f9" "#bd93f9";
    theme "Monokai" "#272822" "#f8f8f2" "#3e3d32" "#a6e22e" "#a6e22e";
    theme "Solarized Dark" "#002b36" "#839496" "#073642" "#2aa198" "#2aa198";
    theme "Solarized Light" "#fdf6e3" "#657b83" "#eee8d5" "#2aa198" "#2aa198";
    theme "Ocean" "#f0f8ff" "#2c3e50" "#e8f4f8" "#3498db" "#3498db";
    theme "Forest" "#f0fff4" "#1b4332" "#e8f5e9" "#2e7d32" "#2e7d32";
    theme "Sunset" "#fff5f0" "#4a2c2a" "#ffe8d6" "#e76f51" "#e76f51";
    theme "Lavender" "#f3e5f5" "#4a148c" "#e1bee7" "#9c27b0" "#9c27b0";
    theme "Mint" "#e0f2f1" "#004d40" "#b2dfdb" "#009688" "#009688";
    theme "Rose" "#fff0f5" "#880e4f" "#f8bbd9" "#e91e63" "#e91e63" ].

(** The theme fields of [MindMapSettings]. *)
Record ThemeSettings : Type :=
  mkThemeSettings {
    currentTheme : jsstring;
    customThemes : list MindMapTheme;
    s_canvasBackgroundColor : jsstring;
    s_fontColor : jsstring;
    s_nodeBackgroundColor : jsstring;
    s_lineColor : jsstring;
    s_connectionColor : jsstring
  }.

(** [themes.find(t => t.name === themeName)] *)
Definition findTheme (themeName : jsstring) (themes : list MindMapTheme)
  : option MindMapTheme :=
  List.find (fun t => streq (name t) themeName) themes.

(** [applyTheme(themeName)] *)
Definition applyTheme (themeName : jsstring) (s : ThemeSettings)
  : ThemeSettings :=
  if streq themeName (lit "Custom") then s
  else
    let presetTheme := findTheme themeName PRESET_THEMES in
    let customTheme := findTheme themeName (customThemes s) in
    let found := match presetTheme with Some t => Some t | None => customTheme end in
    match found with
    | Some t =>
        mkThemeSettings (currentTheme s) (customThemes s)
                        (canvasBackgroundColor t) (fontColor t)
                        (nodeBackgroundColor t) (lineColor t)
                        (connectionColor t)
    | None => s
    end.

(** The theme dropdown: [currentTheme = value; applyTheme(value)]. *)
Definition selectTheme (value : jsstring) (s : ThemeSettings) : ThemeSettings :=
  applyTheme value
    (mkThemeSettings value (customThemes s) (s_canvasBackgroundColor s)
                     (s_fontColor s) (s_nodeBackgroundColor s) (s_lineColor s)
                     (s_connectionColor s)).

(** The Save button; [themeName] is what [promptForThemeName] resolved to,
    [None] for [null]. *)
Definition saveCustomTheme (themeName : option jsstring) (s : ThemeSettings)
  : ThemeSettings :=
  match themeName with
  | Some n =>
      if truthy n then
        let newTheme :=
          mkTheme n (s_canvasBackgroundColor s) (s_fontColor s)
                  (s_nodeBackgroundColor s) (s_lineColor s)
                  (s_connectionColor s) in
        mkThemeSettings n (customThemes s ++ [newTheme])
                        (s_canvasBackgroundColor s) (s_fontColor s)
                        (s_nodeBackgroundColor s) (s_lineColor s)
                        (s_connectionColor s)
      else s
  | None => s
  end.

(** The Delete button, [themeName] being the value of the dropdown. *)
Definition deleteCustomTheme (themeName : jsstring) (s : ThemeSettings)
  : ThemeSettings :=
  if truthy themeName then
    let kept := List.filter (fun t => negb (streq (name t) themeName))
                            (customThemes s) in
    let s1 := mkThemeSettings (currentTheme s) kept (s_canvasBackgroundColor s)
                              (s_fontColor s) (s_nodeBackgroundColor s)
                              (s_lineColor s) (s_connectionColor s) in
    if streq (currentTheme s) themeName
    then applyTheme (lit "Default")
           (mkThemeSettings (lit "Default") kept (s_canvasBackgroundColor s)
                            (s_fontColor s) (s_nodeBackgroundColor s)
                            (s_lineColor s) (s_connectionColor s))
    else s1
  else s.

(** The colours of a settings object, as a theme named [n]. *)
Definition colorsAs (n : jsstring) (s : ThemeSettings) : MindMapTheme :=
  mkTheme n (s_canvasBackgroundColor s) (s_fontColor s)
          (s_nodeBackgroundColor s) (s_lineColor s) (s_connectionColor s).

End Themes.

(* ================================================================== *)
(** ** Vocabulary of the statements about the buttons *)
(* ================================================================== *)

Module ButtonVocabulary.
Import JsString Tree Parser Renderer Drawing Controls Vocabulary.

(** A tree with every flag cleared: what two trees share when they differ
    in their flags only. *)
Definition skeleton (t : MindMapNode) : MindMapNode :=
  retagTree (fun _ => false) t.

(** A tree with every flag recomputed from the node it belongs to. *)
Fixpoint reflag (g : MindMapNode -> bool) (t : MindMapNode) : MindMapNode :=
  mkNode (id t) (text t) (map (reflag g) (children t)) (g t) (note t).

(** The flag Expand all ([c = false]) or Collapse all ([c = true]) leaves on
    a node. *)
Definition flagAll (c : bool) (n : MindMapNode) : bool :=
  if hasChildren n then c else collapsed n.

(** The ids of the nodes that have children. *)
Definition parentIds (t : MindMapNode) : list jsstring :=
  map id (List.filter hasChildren (nodes t)).



(** Visible leaves: the nodes the layout treats as leaves, a collapsed node
    standing for everything under it. *)
Fixpoint visibleLeaves (t : MindMapNode) : Z :=
  if isLeafLike t then 1%Z
  else fold_right Z.add 0%Z (map visibleLeaves (children t)).

End ButtonVocabulary.

(* ================================================================== *)
(** ** Vocabulary of the view and layout properties *)
(* ================================================================== *)

Module ViewVocabulary.
Import Renderer Vocabulary.

Open Scope Q_scope.


(** The shown edges of a bounding box. *)
Definition shownRight (b : BBox) (v : View) : Q :=
  translateX v + (bx b + bwidth b) * scale v.
Definition shownTop (b : BBox) (v : View) : Q := translateY v + by_ b * scale v.
Definition shownBottom (b : BBox) (v : View) : Q :=
  translateY v + (by_ b + bheight b) * scale v.

End ViewVocabulary.

Module LayoutVocabulary.
Import JsString Tree Renderer Drawing.

Open Scope Q_scope.

(** The rectangle behind a node label. *)
Record Box : Type := mkBox { b_left : Q; b_top : Q; b_width : Q; b_height : Q }.

Definition boxOf (e : Svg) : list Box :=
  match e with
  | Rect x y width height _ => [mkBox x y width height]
  | _ => []
  end.

(** The node rectangles of a render result, in drawing order. *)
Definition boxes (o : Out) : list Box := flat_map boxOf (nodesGroup o).

(** Two rectangles with no interior point in common: one ends before the
    other begins, horizontally or vertically. *)
Definition apart (a b : Box) : Prop :=
  b_left a + b_width a <= b_left b
  \/ b_left b + b_width b <= b_left a
  \/ b_top a + b_height a <= b_top b
  \/ b_top b + b_height b <= b_top a.

Definition noOverlap (bs : list Box) : Prop := ForallOrdPairs apart bs.

(** The vertical room [forEachChild] steps through: every child's height
    and the gap after it. *)
Definition span (cs : list MindMapNode) : Q :=
  fold_right (fun c acc => height c + 8 + acc) 0 cs.

End LayoutVocabulary.

Module BandVocabulary.
Import LayoutVocabulary.

Open Scope Q_scope.

(** A box within the horizontal band from [top] to [bottom]. *)
Definition inBand (top bottom : Q) (b : Box) : Prop :=
  top <= b_top b /\ b_top b + b_height b <= bottom.

(** A box wholly to the right, or wholly to the left, of the line [x]. *)
Definition rightOf (x : Q) (b : Box) : Prop := x <= b_left b.
Definition leftOf (x : Q) (b : Box) : Prop := b_left b + b_width b <= x.

End BandVocabulary.

(* ================================================================== *)
(** ** Vocabulary of the nesting properties *)
(* ================================================================== *)

Module Nesting.
Import JsString Tree Parser Preorder.

(** The depth of every node of a tree, in traversal order, the root being
    at depth [d]. *)
Fixpoint depths (d : nat) (t : MindMapNode) : list nat :=
  d :: flat_map (depths (S d)) (children t).

(** The indentation widths of the lines of List Mode that become nodes, and
    the levels of the lines of Heading Mode that do. *)
Definition itemIndents (lines : list jsstring) : list nat :=
  map getIndentWidth (List.filter isItemLine lines).

Definition headingLevel (line : jsstring) : option nat :=
  match matchHeading (trim line) with
  | Some (level, _) => Some level
  | None => None
  end.

Definition headingLevels (lines : list jsstring) : list nat :=
  omap headingLevel lines.

(** The nesting rule for entry [j] of a sequence with keys [K] (indentation
    widths, or heading levels) and depths [D]: the entry hangs under the
    nearest earlier entry with a smaller key, one level below it; with no
    smaller key before it, it is at depth 1. *)
Definition NestRule (K D : list nat) (j : nat) : Prop :=
  forall k d, K !! j = Some k -> D !! j = Some d ->
    ((forall i ki, (i < j)%nat -> K !! i = Some ki -> (k <= ki)%nat)
     /\ d = 1%nat)
    \/ exists i ki di,
         (i < j)%nat /\ K !! i = Some ki /\ (ki < k)%nat
         /\ (forall x kx, (i < x < j)%nat -> K !! x = Some kx -> (k <= kx)%nat)
         /\ D !! i = Some di /\ d = S di.

(** On the heap: a child is one level below its parent. *)
Definition depthOK (g : list (list nat)) (D : list nat) : Prop :=
  forall p cs c dp,
    g !! p = Some cs -> In c cs -> D !! p = Some dp -> D !! c = Some (S dp).

(** A parser stack as pairs of object and key, top first.  Keys grow
    towards the top; each entry is a child of the one below it; whatever was
    allocated between two neighbours, or before the bottom entry, has a key
    no smaller than the upper one's. *)
Fixpoint stackOK (K D : list nat) (stack : list (nat * nat)) : Prop :=
  match stack with
  | [] => True
  | (n, k) :: rest =>
      K !! n = Some k
      /\ match rest with
         | [] =>
             (forall x kx, (x < n)%nat -> K !! x = Some kx -> (k <= kx)%nat)
             /\ D !! n = Some (if (n =? 0)%nat then 0%nat else 1%nat)
         | (n', k') :: _ =>
             (k' < k)%nat /\ (n' < n)%nat
             /\ (exists d', D !! n' = Some d' /\ D !! n = Some (S d'))
             /\ (forall x kx, (n' < x < n)%nat -> K !! x = Some kx ->
                              (k <= kx)%nat)
             /\ stackOK K D rest
         end
  end.

(** Popping every entry whose key is at least [w]. *)
Fixpoint pop (w : nat) (stack : list (nat * nat)) : list (nat * nat) :=
  match stack with
  | (n, k) :: rest => if (w <=? k)%nat then pop w rest else stack
  | [] => []
  end.

(** Everything between the top of the stack and [N] has a key of at least
    [w]. *)
Definition gapAbove (K : list nat) (w N : nat) (stack : list (nat * nat))
  : Prop :=
  match stack with
  | (n, _) :: _ =>
      forall x kx, (n < x < N)%nat -> K !! x = Some kx -> (w <= kx)%nat
  | [] => forall x kx, (x < N)%nat -> K !! x = Some kx -> (w <= kx)%nat
  end.

(** The parent a new object gets: the top of the popped stack, the root when
    nothing is left. *)
Definition parentOf (popped : list (nat * nat)) : nat :=
  match popped with
  | (p, _) :: _ => p
  | [] => 0%nat
  end.

(** What holds while a tree is being built: [g] are the children arrays,
    [K] and [D] the key and the depth of every object. *)
Definition Building (g : list (list nat)) (K D : list nat)
           (stack : list (nat * nat)) : Prop :=
  length K = length g
  /\ length D = length g
  /\ depthOK g D
  /\ stackOK K D stack
  /\ (g <> [] -> exists k rest, stack = (length g - 1, k)%nat :: rest)
  /\ (forall d, D !! 0%nat = Some d -> d = 0%nat)
  /\ (forall j, (1 <= j)%nat -> NestRule K D j).

(** The two parser stacks in that form.  List Mode: the root entry has indent
    -1, so its key is 0 and an item of indent [w] has key [w + 1]. *)
Definition lstack (stack : list LEntry) : list (nat * nat) :=
  map (fun e => (l_node e, Z.to_nat (l_indent e + 1))) stack.

Definition hstack (stack : list HEntry) : list (nat * nat) :=
  map (fun e => (h_node e, h_level e)) stack.

End Nesting.

Module NestingStates.
Import JsString Tree Parser Preorder Nesting.

(** List Mode under construction: [ws] are the indents of the items so
    far; the stack never loses its root entry, whose indent is -1. *)
Definition LNest (ws D : list nat) (st : LState) : Prop :=
  Building (kids (ls_heap st)) (0%nat :: map S ws) D (lstack (ls_stack st))
  /\ Forall (fun e => (-1 <= l_indent e)%Z) (ls_stack st)
  /\ (exists e, last (ls_stack st) = Some e /\ l_indent e = (-1)%Z).

(** Heading Mode under construction: [ls] are the levels of the headings so
    far; the root is the first object once there is one. *)
Definition HNest (ls D : list nat) (st : HState) : Prop :=
  Building (kids (hs_heap st)) ls D (hstack (hs_stack st))
  /\ match hs_root st with
     | None => hs_heap st = [] /\ hs_stack st = []
     | Some r => r = 0%nat /\ hs_heap st <> []
     end.

End NestingStates.

Module Notes.
Import JsString Tree Parser.

(** A line Heading Mode takes for a heading. *)
Definition isHeadingLine (line : jsstring) : bool :=
  match matchHeading (trim line) with
  | Some _ => true
  | None => false
  end.

(** The note a run of note lines gives: none without lines, the lines
    joined and trimmed otherwise. *)
Definition noteOfLines (noteLines : list jsstring) : option jsstring :=
  match noteLines with
  | [] => None
  | _ :: _ => Some (trim (join noteLines))
  end.

(** The note made of the non-blank lines of a text without headings. *)
Definition noteOf (body : list jsstring) : option jsstring :=
  noteOfLines (List.filter truthy (map trim body)).

(** A source text as sections: each a heading line with the lines below
    it. *)
Definition sectionLines (sections : list (jsstring * list jsstring))
  : list jsstring :=
  flat_map (fun s => fst s :: snd s) sections.

Definition wellFormedSection (s : jsstring * list jsstring) : Prop :=
  isHeadingLine (fst s) = true
  /\ Forall (fun l => isHeadingLine l = false) (snd s).

(** Heading Mode between two headings: a root exists, the newest object is
    the current node and has no note yet, the notes of the objects before
    it are [done]. *)
Definition NoteInv (done : list (option jsstring)) (st : HState) : Prop :=
  hs_root st <> None
  /\ hs_currentNode st = Some (length done)
  /\ map o_note (hs_heap st) = done ++ [None].

End Notes.

Module WidthVocabulary.
Import Settings.

(** The widths the handler accepts. *)
Definition accepted (width : option Z) : list Z :=
  match width with
  | Some w => if ((200 <=? w) && (w <=? 800))%Z then [w] else []
  | None => []
  end.

(** A sequence of edits of the width field. *)
Definition typeWidths (inputs : list (option Z)) (s : MindMapSettings)
  : MindMapSettings :=
  fold_left (fun s width => notePanelWidthOnChange width s) inputs s.

End WidthVocabulary.

Module Gestures.
Import Renderer.

Open Scope Q_scope.

(** The fields of [MindMapRenderer] the drag and pinch listeners of
    [setupZoomAndPan] touch. *)
Record Pointer : Type :=
  mkPointer {
    p_view : View;
    isDragging : bool;
    dragStartX : Q;
    dragStartY : Q;
    initialScale : Q
  }.

(** The [mousedown] listener; [onCircleOrText] tells whether the target is a
    [circle] or [text] element, which is left to the click listeners. *)
Definition mouseDown (button : Z) (onCircleOrText : bool) (clientX clientY : Q)
           (s : Pointer) : Pointer :=
  if (button =? 0)%Z then
    if onCircleOrText then s
    else mkPointer (p_view s) true
                   (clientX - translateX (p_view s))
                   (clientY - translateY (p_view s))
                   (initialScale s)
  else s.

(** The [mousemove] listener. *)
Definition mouseMove (client : Q * Q) (s : Pointer) : Pointer :=
  if isDragging s then
    mkPointer (mkView (renderMode (p_view s)) (scale (p_view s))
                      (fst client - dragStartX s) (snd client - dragStartY s))
              true (dragStartX s) (dragStartY s) (initialScale s)
  else s.

(** The [mouseup] and [mouseleave] listeners. *)
Definition mouseUp (s : Pointer) : Pointer :=
  mkPointer (p_view s) false (dragStartX s) (dragStartY s) (initialScale s).

(** The [gesturestart] listener. *)
Definition gestureStart (s : Pointer) : Pointer :=
  mkPointer (p_view s) (isDragging s) (dragStartX s) (dragStartY s)
            (scale (p_view s)).

(** The [gesturechange] listener ([this.svg] is set once [render] has run);
    an event carries [e.scale], [e.clientX], [e.clientY], and [rect] is the
    top-left corner of the SVG element. *)
Record GestureEvent : Type :=
  mkGestureEvent { g_scale : Q; g_clientX : Q; g_clientY : Q; g_rect : Q * Q }.

Definition gestureChange (e : GestureEvent) (s : Pointer) : Pointer :=
  let newScale := pinchScale (initialScale s) (g_scale e) in
  let centerX := g_clientX e - fst (g_rect e) in
  let centerY := g_clientY e - snd (g_rect e) in
  let v := p_view s in
  mkPointer
    (mkView (renderMode v) newScale
            (centerX - (centerX - translateX v) * (newScale / scale v))
            (centerY - (centerY - translateY v) * (newScale / scale v)))
    (isDragging s) (dragStartX s) (dragStartY s) (initialScale s).

End Gestures.

(* ================================================================== *)
(** ** Vocabulary of the statement about parsing twice *)
(* ================================================================== *)

Module Numbering.
Import JsString Tree Parser Preorder.

(** The template string of the two [generateStableId], written out:
    [kind-key-index-label], the label cut at 20 units with every run of
    whitespace replaced by an underscore. *)
Definition templateId (kind : jsstring) (key index : nat) (label : jsstring)
  : jsstring :=
  kind ++ natToString key ++ lit "-" ++ natToString index ++ lit "-"
  ++ replaceSpaceRuns false (substring0 20 label).

(** What the lines that become nodes contribute to their ids: the indent
    and the label of an item line, the level and the text of a heading. *)
Definition listKeys (lines : list jsstring) : list (nat * jsstring) :=
  map (fun line => (getIndentWidth line, itemText line))
      (List.filter isItemLine lines).

Definition headingKey (line : jsstring) : option (nat * jsstring) :=
  match matchHeading (trim line) with
  | Some (level, captured) => Some (level, trim captured)
  | None => None
  end.

Definition headingKeys (lines : list jsstring) : list (nat * jsstring) :=
  omap headingKey lines.

(** Ids numbered in sequence: the first carries [index], the next
    [index + 1], and so on. *)
Fixpoint numberedFrom (kind : jsstring) (index : nat)
         (keys : list (nat * jsstring)) : list jsstring :=
  match keys with
  | [] => []
  | (key, label) :: rest =>
      templateId kind key index label :: numberedFrom kind (S index) rest
  end.

(** The two [if]s of [parseMarkdownList] taken together. *)
Definition headingModeSelected (lines : list jsstring) : bool :=
  hasMultiLevelHeadings lines
  || hasHeadings lines && negb (hasListItems lines).

(** The ids of the objects one call allocates, in allocation order, when its
    counter starts at zero: in Heading Mode one per heading; in List Mode the
    synthetic root and one per item line after the title line. *)
Definition idsCountedFromZero (text : jsstring) : list jsstring :=
  let lines := split text in
  if headingModeSelected lines
  then numberedFrom (lit "heading-") 0 (headingKeys lines)
  else lit "root"
       :: numberedFrom (lit "list-") 0
                       (listKeys (drop (snd (scanTitle 0 lines)) lines)).

(** What the store says of an id: collapsed if it holds [true] for it,
    not collapsed if it holds [false] or nothing. *)
Definition storedFlag (m : Store) (i : jsstring) : bool :=
  match m !! i with
  | Some true => true
  | _ => false
  end.

(** A result of parsing [text] under the store [m] that is numbered afresh:
    [null] only where no id is due; otherwise a tree whose ids, in traversal
    order, are the ids counted from zero (less the synthetic root of List
    Mode where that one was dropped), and whose flags are what the store
    says of those ids. *)
Definition countedFromZero (m : Store) (text : jsstring)
           (result : option MindMapNode) : Prop :=
  match result with
  | None => idsCountedFromZero text = []
  | Some t =>
      (ids t = idsCountedFromZero text
       \/ (headingModeSelected (split text) = false
           /\ lit "root" :: ids t = idsCountedFromZero text))
      /\ flags t = map (storedFlag m) (ids t)
  end.

End Numbering.

(* ================================================================== *)
(** ** Trees *)
(* ================================================================== *)

Module TreeFacts.
Import JsString Tree.

(** Structural induction through the [children] lists. *)
Lemma MindMapNode_ind' (P : MindMapNode -> Prop) :
  (forall i t cs c n, Forall P cs -> P (mkNode i t cs c n)) ->
  forall t, P t.
Proof.
  intros step.
  fix IH 1. intros [i t cs c n]. apply step.
  induction cs as [|k cs IHcs]; constructor.
  - apply IH.
  - exact IHcs.
Qed.

End TreeFacts.

(* ================================================================== *)
(** ** Layout arithmetic *)
(* ================================================================== *)

Module LayoutFacts.
Import JsString Tree Renderer Settings Vocabulary.

Open Scope Z_scope.

Lemma heightLoop_spec {A : Type} (h : A -> Z) (gap n : Z) (cs : list A) :
  forall i acc,
    i + Z.of_nat (length cs) = n ->
    heightLoop h gap n cs i acc
    = acc + sumZ (map h cs)
      + (if (length cs =? 0)%nat then 0 else (Z.of_nat (length cs) - 1) * gap).
Proof.
  induction cs as [|c cs IH]; intros i acc Hn; simpl.
  - lia.
  - rewrite IH by (simpl in Hn; lia).
    simpl in Hn.
    destruct cs as [|c' cs'].
    + simpl. replace (i <? n - 1) with false by (symmetry; apply Z.ltb_ge; simpl in Hn; lia).
      lia.
    + replace (i <? n - 1) with true
        by (symmetry; apply Z.ltb_lt; simpl length in Hn; lia).
      cbn [length Nat.eqb]. lia.
Qed.

Lemma isLeafLike_false_length node :
  isLeafLike node = false -> (length (children node) =? 0)%nat = false.
Proof. unfold isLeafLike. intros H. apply orb_false_iff in H. tauto. Qed.

Lemma calculateTreeHeight_unfold node :
  calculateTreeHeight node
  = if isLeafLike node then 24
    else heightLoop calculateTreeHeight 20 (Z.of_nat (length (children node)))
                    (children node) 0 0.
Proof. destruct node; reflexivity. Qed.

Lemma calculateRadialMindMapTreeHeight_unfold node :
  calculateRadialMindMapTreeHeight node
  = if isLeafLike node then 28
    else Z.max 28
           (heightLoop calculateRadialMindMapTreeHeight 8
                       (Z.of_nat (length (children node))) (children node) 0 0).
Proof. destruct node; reflexivity. Qed.

Lemma calculateTreeHeight_recurrence node :
  calculateTreeHeight node = heightRecurrence 24 20 calculateTreeHeight node.
Proof.
  rewrite calculateTreeHeight_unfold. unfold heightRecurrence.
  destruct (isLeafLike node) eqn:Hl; [reflexivity|].
  rewrite heightLoop_spec by lia.
  rewrite (isLeafLike_false_length _ Hl). lia.
Qed.

(** Every subtree of the orthogonal family is at least one unit high, so the
    final [Math.max(28, totalHeight)] never changes the sum. *)
Lemma radial_height_ge_28 node : 28 <= calculateRadialMindMapTreeHeight node.
Proof.
  rewrite calculateRadialMindMapTreeHeight_unfold.
  destruct (isLeafLike node); lia.
Qed.

Lemma sumZ_lower_bound {A : Type} (h : A -> Z) (b : Z) (cs : list A) :
  (forall c, b <= h c) -> Z.of_nat (length cs) * b <= sumZ (map h cs).
Proof.
  intros Hb. induction cs as [|c cs IH]; simpl; [lia|].
  specialize (Hb c). lia.
Qed.

Lemma calculateRadialMindMapTreeHeight_recurrence node :
  calculateRadialMindMapTreeHeight node
  = heightRecurrence 28 8 calculateRadialMindMapTreeHeight node.
Proof.
  rewrite calculateRadialMindMapTreeHeight_unfold. unfold heightRecurrence.
  destruct (isLeafLike node) eqn:Hl; [reflexivity|].
  rewrite heightLoop_spec by lia.
  pose proof (isLeafLike_false_length _ Hl) as Hlen. rewrite Hlen.
  pose proof (sumZ_lower_bound calculateRadialMindMapTreeHeight 28
                (children node) radial_height_ge_28) as Hsum.
  apply Nat.eqb_neq in Hlen.
  lia.
Qed.

(** C6. For every tree node, both subtree-height functions satisfy the
    recurrence: a collapsed or childless node has height 24 in the linear
    family ([calculateTreeHeight]) and 28 in the orthogonal family
    ([calculateRadialMindMapTreeHeight]); any other node's height is the sum
    of its children's subtree heights plus (count - 1) times the gap, the
    gap being 20 in the linear family and 8 in the orthogonal one. *)
Theorem subtree_height_recurrence (node : MindMapNode) :
  calculateTreeHeight node
  = (if (length (children node) =? 0)%nat || collapsed node then 24
     else sumZ (map calculateTreeHeight (children node))
          + (Z.of_nat (length (children node)) - 1) * 20)
  /\ calculateRadialMindMapTreeHeight node
     = (if (length (children node) =? 0)%nat || collapsed node then 28
        else sumZ (map calculateRadialMindMapTreeHeight (children node))
             + (Z.of_nat (length (children node)) - 1) * 8).
Proof.
  split.
  - apply calculateTreeHeight_recurrence.
  - apply calculateRadialMindMapTreeHeight_recurrence.
Qed.

End LayoutFacts.

Module MeasureFacts.
Import JsString Tree Renderer Vocabulary.

Open Scope Q_scope.

(** With [n] wide and [m] narrow characters the loop has added
    [n * fontSize + m * (fontSize * 0.55)]. *)
Lemma fold_addCharWidth fontSize (cs : list jsstring) :
  forall acc,
    fold_left (addCharWidth fontSize) cs acc
    == acc
       + ofNat (length (List.filter isCJKChar cs)) * fontSize
       + ofNat (length (List.filter (fun c => negb (isCJKChar c)) cs))
         * (fontSize * 0.55).
Proof.
  induction cs as [|c cs IH]; intros acc; simpl.
  - unfold ofNat. simpl. ring.
  - rewrite IH. unfold addCharWidth.
    destruct (isCJKChar c); simpl negb; cbv iota; cbn [length];
      unfold ofNat; rewrite Nat2Z.inj_succ, <- Z.add_1_r, inject_Z_plus;
      simpl (inject_Z 1); ring.
Qed.

Lemma labelFontSize_pos depth : 0 < labelFontSize depth.
Proof.
  unfold labelFontSize.
  apply Qlt_le_trans with (y := 10); [reflexivity|apply Q.le_max_l].
Qed.

Lemma filter_all (p : jsstring -> bool) (l : list jsstring) :
  forallb p l = true ->
  List.filter p l = l /\ List.filter (fun c => negb (p c)) l = [].
Proof.
  induction l as [|c l IHl]; simpl; [auto|].
  intros H. apply andb_true_iff in H as [Hc Hl].
  destruct (IHl Hl) as [E1 E2].
  rewrite Hc. simpl. rewrite E1, E2. auto.
Qed.

(** For equal character counts the wide string measures more. *)
Lemma cjk_wider_at_equal_count (s t : jsstring) (depth : nat) :
  forallb isCJKChar (chars s) = true ->
  forallb (fun c => negb (isCJKChar c)) (chars t) = true ->
  length (chars s) = length (chars t) ->
  (0 < length (chars s))%nat ->
  calculateTextWidth t depth < calculateTextWidth s depth.
Proof.
  intros Hs Ht Hlen Hpos. unfold calculateTextWidth.
  rewrite !fold_addCharWidth.
  destruct (filter_all _ _ Hs) as [E1 E2].
  destruct (filter_all _ _ Ht) as [E3 E4].
  assert (E5 : List.filter isCJKChar (chars t) = []).
  { rewrite <- E4. apply List.filter_ext. intros c.
    destruct (isCJKChar c); reflexivity. }
  rewrite E1, E2, E3, E5, <- Hlen. simpl length.
  pose proof (labelFontSize_pos depth) as Hfont.
  set (f := labelFontSize depth) in *.
  assert (Hn : 0 < ofNat (length (chars s))).
  { unfold ofNat. change 0 with (inject_Z 0). rewrite <- Zlt_Qlt. lia. }
  set (n := ofNat (length (chars s))) in *.
  assert (Hprod : 0 < n * f) by (apply Qmult_lt_0_compat; assumption).
  assert (L : 0 + ofNat 0 * f + n * (f * 0.55) + 16 == 0.55 * (n * f) + 16)
    by (unfold ofNat; simpl (inject_Z (Z.of_nat 0)); ring).
  assert (R : 0 + n * f + ofNat 0 * (f * 0.55) + 16 == n * f + 16)
    by (unfold ofNat; simpl (inject_Z (Z.of_nat 0)); ring).
  rewrite L, R. apply Qplus_lt_l.
  assert (H : 0.55 * (n * f) < 1 * (n * f))
    by (apply Qmult_lt_compat_r; [assumption|reflexivity]).
  rewrite Qmult_1_l in H. exact H.
Qed.

(** C7, as the code has it.  At depth 0 the font size is 13; the two
    characters of the CJK string measure 2 * 13 + 16 = 42, the four of
    [abcd] measure 4 * (13 * 0.55) + 16 = 44.6, so the CJK string is the
    narrower of the two; against a string of equal character count ([ab],
    30.3) it is the wider. *)
Theorem measure_zhongwen_abcd :
  calculateTextWidth zhongwen 0 == 42
  /\ calculateTextWidth abcd 0 == 44.6
  /\ calculateTextWidth zhongwen 0 < calculateTextWidth abcd 0
  /\ calculateTextWidth ab 0 == 30.3
  /\ calculateTextWidth ab 0 < calculateTextWidth zhongwen 0.
Proof. repeat split; vm_compute; reflexivity. Qed.

(** C7, as stated, fails: the width of the CJK string is not greater than
    that of [abcd]. *)
Lemma measure_zhongwen_not_wider_than_abcd :
  ~ (calculateTextWidth abcd 0 < calculateTextWidth zhongwen 0).
Proof. vm_compute. intros H. discriminate H. Qed.

(** The same comparison in double-precision arithmetic. *)
Example binary64_measure_comparison :
  PrimFloat.ltb (calculateTextWidthF zhongwen 0) (calculateTextWidthF abcd 0) = true
  /\ PrimFloat.eqb (calculateTextWidthF zhongwen 0) 42%float = true.
Proof. split; vm_compute; reflexivity. Qed.

End MeasureFacts.

Module ZoomFacts.
Import Renderer Settings Vocabulary.

Lemma clamp_in_range (x : Q) : (0.1 <= Qmax 0.1 (Qmin 5 x) /\ Qmax 0.1 (Qmin 5 x) <= 5)%Q.
Proof.
  split.
  - apply Q.le_max_l.
  - apply Q.max_lub; [discriminate|apply Q.le_min_l].
Qed.

Lemma zoom_scale factor cx cy rect v :
  scale (zoom factor cx cy rect v) = Qmax 0.1 (Qmin 5 (scale v * factor)).
Proof.
  unfold zoom.
  destruct cx as [x|], cy as [y|], rect as [[l t]|]; reflexivity.
Qed.

(** C9, as the code has it.  Whatever the factor and the zoom centre, [zoom]
    leaves the scale within 0.1 and 5, and so do the pinch handlers; a
    note-panel width outside 200..800 is ignored: the settings stay as they
    were.  (Numbers are rationals: the statement is about every factor that
    is a number, not about NaN.) *)
Theorem zoom_clamped_width_ignored
        (v : View) (factor : Q) (cx cy : option Q) (rect : option (Q * Q))
        (initialScale gestureScale : Q) (w : Z) (s : MindMapSettings) :
  (w < 200 \/ 800 < w)%Z ->
  (0.1 <= scale (zoom factor cx cy rect v) <= 5)%Q
  /\ (0.1 <= pinchScale initialScale gestureScale <= 5)%Q
  /\ notePanelWidthOnChange (Some w) s = s.
Proof.
  intros Hout. repeat split.
  - rewrite zoom_scale. apply clamp_in_range.
  - rewrite zoom_scale. apply clamp_in_range.
  - apply clamp_in_range.
  - apply clamp_in_range.
  - unfold notePanelWidthOnChange.
    destruct (200 <=? w)%Z eqn:H1, (w <=? 800)%Z eqn:H2; simpl; try reflexivity.
    apply Z.leb_le in H1. apply Z.leb_le in H2. lia.
Qed.

Lemma zoom_clamped_width_ignored_witness :
  (1000 < 200 \/ 800 < 1000)%Z
  /\ (0.1 <= scale (zoom 1.2 None None None (mkView clockwise 4.9 0 0)) <= 5)%Q
  /\ notePanelWidthOnChange (Some 1000%Z) DEFAULT_SETTINGS = DEFAULT_SETTINGS.
Proof.
  assert (Hout : (1000 < 200 \/ 800 < 1000)%Z) by (right; reflexivity).
  split; [exact Hout|].
  destruct (zoom_clamped_width_ignored (mkView clockwise 4.9 0 0) 1.2
              None None None 1 1 1000 DEFAULT_SETTINGS Hout) as [Hz [_ Hw]].
  split; [exact Hz|exact Hw].
Defined.

(** C9, as stated, fails on the width: the input 1000 is not brought to 800,
    the width stays 300. *)
Lemma width_1000_not_clamped :
  notePanelWidth (notePanelWidthOnChange (Some 1000%Z) DEFAULT_SETTINGS) = 300%Z
  /\ notePanelWidth (notePanelWidthOnChange (Some 1000%Z) DEFAULT_SETTINGS)
     <> clampZ 200 800 1000.
Proof. split; [reflexivity|discriminate]. Qed.

End ZoomFacts.

Module FitFacts.
Import Renderer Vocabulary.

Open Scope Q_scope.




End FitFacts.

(* ================================================================== *)
(** ** Lines, blanks and markers *)
(* ================================================================== *)

Module LineFacts.
Import JsString Vocabulary.

Open Scope N_scope.

Lemma takeWhile_dropWhile p s : s = takeWhile p s ++ dropWhile p s.
Proof.
  induction s as [|c s IH]; simpl; [reflexivity|].
  destruct (p c); simpl; [f_equal; exact IH|reflexivity].
Qed.

Lemma takeWhile_all p s : forallb p (takeWhile p s) = true.
Proof.
  induction s as [|c s IH]; simpl; [reflexivity|].
  destruct (p c) eqn:Hc; simpl; [rewrite Hc; exact IH|reflexivity].
Qed.

Lemma takeWhile_hash s :
  takeWhile (N.eqb HASH) s = repeat HASH (countWhile (N.eqb HASH) s).
Proof.
  induction s as [|c s IH]; [reflexivity|].
  cbn [takeWhile countWhile].
  destruct (N.eqb HASH c) eqn:E; [|reflexivity].
  apply N.eqb_eq in E. subst c. cbn [repeat]. f_equal. exact IH.
Qed.

Lemma dropWhile_all p s : forallb p s = true -> dropWhile p s = [].
Proof.
  induction s as [|c s IH]; simpl; [reflexivity|].
  intros H. apply andb_true_iff in H as [-> Hs]. auto.
Qed.

Lemma dropWhile_stop p l x r :
  forallb p l = true -> p x = false -> dropWhile p (l ++ x :: r) = x :: r.
Proof.
  induction l as [|c l IH]; simpl; intros Hl Hx.
  - rewrite Hx. reflexivity.
  - apply andb_true_iff in Hl as [-> Hl]. auto.
Qed.

Lemma countWhile_stop p l x r :
  forallb p l = true -> p x = false -> countWhile p (l ++ x :: r) = length l.
Proof.
  induction l as [|c l IH]; simpl; intros Hl Hx.
  - rewrite Hx. reflexivity.
  - apply andb_true_iff in Hl as [-> Hl]. f_equal. auto.
Qed.

Lemma dropWhile_head p s c r : dropWhile p s = c :: r -> p c = false.
Proof.
  induction s as [|d s IH]; simpl; [discriminate|].
  destruct (p d) eqn:Hd; [exact IH|].
  intros [= <- _]. exact Hd.
Qed.

Lemma repeat_hash_all k : forallb (N.eqb HASH) (repeat HASH k) = true.
Proof. induction k; simpl; auto. Qed.

Lemma space_not_hash c : isSpace c = true -> N.eqb HASH c = false.
Proof.
  intros Hc. destruct (N.eqb_spec HASH c) as [<-|]; [discriminate Hc|reflexivity].
Qed.

(** A blank line is one that [trim] empties. *)
Lemma trim_blank s : forallb isSpace s = true -> trim s = [].
Proof.
  intros H. unfold trim, trimStart, trimEnd.
  rewrite (dropWhile_all _ _ H). reflexivity.
Qed.

Lemma split_nonempty s : split s <> [].
Proof.
  destruct s as [|c s]; simpl; [discriminate|].
  destruct (c =? NEWLINE); [discriminate|].
  destruct (split s); discriminate.
Qed.

Lemma split_blank s :
  forallb isSpace s = true ->
  Forall (fun l => forallb isSpace l = true) (split s).
Proof.
  induction s as [|c s IH]; simpl; intros H.
  - repeat constructor.
  - apply andb_true_iff in H as [Hc Hs]. specialize (IH Hs).
    destruct (c =? NEWLINE).
    + constructor; [reflexivity|exact IH].
    + destruct (split s) as [|l ls]; [repeat constructor; simpl; rewrite Hc; reflexivity|].
      inversion IH as [|? ? Hl Hls]; subst.
      constructor; [simpl; rewrite Hc; exact Hl|exact Hls].
Qed.

(** The three regular-expression tests against the spelled-out shapes. *)
Lemma headingTest_iff (minLevel : nat) (line : jsstring) :
  (1 <= minLevel)%nat ->
  (minLevel <=? countWhile (N.eqb HASH) (dropWhile isSpace line))%nat
  && match dropWhile (N.eqb HASH) (dropWhile isSpace line) with
     | c :: _ => isSpace c
     | [] => false
     end = true
  <-> HeadingLine minLevel line.
Proof.
  intros Hmin. split.
  - intros H. apply andb_true_iff in H as [Hk Hc].
    apply Nat.leb_le in Hk.
    destruct (dropWhile (N.eqb HASH) (dropWhile isSpace line)) as [|c rest] eqn:Hd;
      [discriminate|].
    exists (takeWhile isSpace line),
           (countWhile (N.eqb HASH) (dropWhile isSpace line)), c, rest.
    repeat split; [apply takeWhile_all|exact Hk|exact Hc|].
    rewrite <- takeWhile_hash, <- Hd, <- takeWhile_dropWhile.
    apply takeWhile_dropWhile.
  - intros (ws & k & c & rest & Hws & Hk & Hc & ->).
    destruct k as [|k]; [lia|].
    assert (Hr : dropWhile isSpace (ws ++ repeat HASH (S k) ++ c :: rest)
                 = repeat HASH (S k) ++ c :: rest)
      by (simpl; apply dropWhile_stop; [exact Hws|reflexivity]).
    rewrite Hr.
    rewrite (countWhile_stop _ _ _ _ (repeat_hash_all (S k)) (space_not_hash _ Hc)).
    rewrite (dropWhile_stop _ _ _ _ (repeat_hash_all (S k)) (space_not_hash _ Hc)).
    rewrite repeat_length, Hc, andb_true_r. apply Nat.leb_le. exact Hk.
Qed.

Lemma testMultiLevelHeading_iff line :
  testMultiLevelHeading line = true <-> HeadingLine 2 line.
Proof. apply (headingTest_iff 2). lia. Qed.

Lemma testHeading_iff line :
  testHeading line = true <-> HeadingLine 1 line.
Proof. apply (headingTest_iff 1). lia. Qed.

Lemma testListItem_iff line :
  testListItem line = true <-> BulletLine line.
Proof.
  unfold testListItem. split.
  - destruct (dropWhile isSpace line) as [|b [|c rest]] eqn:Hd; try discriminate.
    intros H. apply andb_true_iff in H as [Hb Hc].
    exists (takeWhile isSpace line), b, c, rest.
    repeat split; [apply takeWhile_all| |exact Hc|].
    + apply orb_true_iff in Hb as [Hb|Hb]; apply N.eqb_eq in Hb; auto.
    + rewrite <- Hd. apply takeWhile_dropWhile.
  - intros (ws & b & c & rest & Hws & Hb & Hc & ->).
    assert (Hnb : isSpace b = false) by (destruct Hb as [->| ->]; reflexivity).
    rewrite (dropWhile_stop _ _ _ _ Hws Hnb), Hc, andb_true_r.
    destruct Hb as [->| ->]; reflexivity.
Qed.

Lemma existsb_iff {A : Type} (p : A -> bool) (P : A -> Prop) (l : list A) :
  (forall x, p x = true <-> P x) ->
  existsb p l = true <-> exists x, In x l /\ P x.
Proof.
  intros Hp. rewrite existsb_exists.
  split; intros (x & Hin & Hx); exists x; split; auto; apply Hp; exact Hx.
Qed.

End LineFacts.

(* ================================================================== *)
(** ** parseMarkdownList: blank input and mode selection *)
(* ================================================================== *)

Module ModeFacts.
Import JsString Tree Parser Vocabulary LineFacts.

Lemma blank_line_tests line :
  forallb isSpace line = true ->
  testMultiLevelHeading line = false
  /\ testHeading line = false
  /\ testListItem line = false.
Proof.
  intros H. unfold testMultiLevelHeading, testHeading, testListItem.
  rewrite (dropWhile_all _ _ H). auto.
Qed.

Lemma blank_lines_no_marker (lines : list jsstring) :
  Forall (fun l => forallb isSpace l = true) lines ->
  hasMultiLevelHeadings lines = false
  /\ hasHeadings lines = false
  /\ hasListItems lines = false.
Proof.
  unfold hasMultiLevelHeadings, hasHeadings, hasListItems.
  induction 1 as [|l ls Hl _ (IH1 & IH2 & IH3)]; simpl; [auto|].
  destruct (blank_line_tests l Hl) as (-> & -> & ->). auto.
Qed.

Lemma scanTitle_blank (lines : list jsstring) :
  Forall (fun l => forallb isSpace l = true) lines ->
  forall i, scanTitle i lines = (lit "Root", 0%nat).
Proof.
  induction 1 as [|l ls Hl _ IH]; intros i; simpl; [reflexivity|].
  rewrite (trim_blank _ Hl). simpl. apply IH.
Qed.

Lemma listStep_blank m st line :
  forallb isSpace line = true -> listStep m st line = st.
Proof. intros H. unfold listStep. rewrite (trim_blank _ H). reflexivity. Qed.

Lemma fold_listStep_blank m (lines : list jsstring) :
  Forall (fun l => forallb isSpace l = true) lines ->
  forall st, fold_left (listStep m) lines st = st.
Proof.
  induction 1 as [|l ls Hl _ IH]; intros st; simpl; [reflexivity|].
  rewrite (listStep_blank _ _ _ Hl). apply IH.
Qed.

Lemma parseListMode_blank m (lines : list jsstring) :
  Forall (fun l => forallb isSpace l = true) lines ->
  parseListMode m lines = Some (bareRoot m).
Proof.
  intros H. unfold parseListMode, parseListModeRef, listRun.
  rewrite (scanTitle_blank _ H). cbn [fst drop].
  rewrite (fold_listStep_blank _ _ H). reflexivity.
Qed.

(** C1, what the code does.  For every input that is empty or made of
    whitespace only, [parseMarkdownList] does not return [null]: the test
    [lines.length === 0] never fires ([split] returns at least one line),
    List Mode is selected and the synthetic root, titled Root and without
    children, is returned. *)
Theorem blank_input_returns_bare_root (m : Store) (text : jsstring) :
  forallb isSpace text = true ->
  parseMarkdownList m text = Some (bareRoot m).
Proof.
  intros H. unfold parseMarkdownList.
  pose proof (split_blank _ H) as Hlines.
  destruct (blank_lines_no_marker _ Hlines) as (-> & -> & _).
  destruct (split text) as [|l ls] eqn:Hs; [destruct (split_nonempty _ Hs)|].
  cbn [length Nat.eqb andb]. apply parseListMode_blank, Hlines.
Qed.

Lemma blank_input_returns_bare_root_witness :
  forallb isSpace [] = true
  /\ parseMarkdownList ∅ [] = Some (bareRoot ∅)
  /\ parseMarkdownList ∅ [] <> None.
Proof.
  assert (H : forallb isSpace [] = true) by reflexivity.
  split; [exact H|].
  split; [exact (blank_input_returns_bare_root ∅ [] H)|].
  rewrite (blank_input_returns_bare_root ∅ [] H). discriminate.
Defined.

(** C5, as the code has it.  For every input text, the mode is chosen by the
    first rule that applies, where a heading marker of level [n] or more is
    optional leading whitespace, [n] or more hashes and then a whitespace
    character, which the three tests of [parseMarkdownList] require: if some
    line has such a marker of level 2 or more the result is that of Heading
    Mode, bullet lines or not; otherwise, if some line has a heading marker
    and no line is a bullet line, it is again that of Heading Mode;
    otherwise it is that of List Mode.  Hashes with no whitespace after them
    do not count as a marker. *)
Theorem mode_selection_first_applicable_rule (m : Store) (text : jsstring) :
  let lines := split text in
  let multi := exists l, In l lines /\ HeadingLine 2 l in
  let heading := exists l, In l lines /\ HeadingLine 1 l in
  let bullet := exists l, In l lines /\ BulletLine l in
  (multi -> parseMarkdownList m text = parseHeadingsMode m lines)
  /\ (~ multi -> heading /\ ~ bullet ->
      parseMarkdownList m text = parseHeadingsMode m lines)
  /\ (~ multi -> ~ (heading /\ ~ bullet) ->
      parseMarkdownList m text = parseListMode m lines).
Proof.
  cbv zeta. unfold parseMarkdownList.
  pose proof (existsb_iff _ _ (split text) testMultiLevelHeading_iff) as Hm.
  pose proof (existsb_iff _ _ (split text) testHeading_iff) as Hh.
  pose proof (existsb_iff _ _ (split text) testListItem_iff) as Hb.
  fold (hasMultiLevelHeadings (split text)) in Hm.
  fold (hasHeadings (split text)) in Hh.
  fold (hasListItems (split text)) in Hb.
  destruct (split text) as [|l0 ls] eqn:Hs; [destruct (split_nonempty _ Hs)|].
  cbn [length Nat.eqb].
  split; [|split].
  - intros Hmul. apply Hm in Hmul. rewrite Hmul. reflexivity.
  - intros Hnm [Hhd Hnb].
    destruct (hasMultiLevelHeadings (l0 :: ls)) eqn:Em;
      [exfalso; apply Hnm, Hm; reflexivity|].
    apply Hh in Hhd. rewrite Hhd.
    destruct (hasListItems (l0 :: ls)) eqn:Eb;
      [exfalso; apply Hnb, Hb; reflexivity|].
    reflexivity.
  - intros Hnm Hn.
    destruct (hasMultiLevelHeadings (l0 :: ls)) eqn:Em;
      [exfalso; apply Hnm, Hm; reflexivity|].
    destruct (hasHeadings (l0 :: ls)) eqn:Eh; [|reflexivity].
    destruct (hasListItems (l0 :: ls)) eqn:Eb; [reflexivity|].
    exfalso. apply Hn. split; [apply Hh; reflexivity|].
    intros Hbul. apply Hb in Hbul. discriminate Hbul.
Qed.

Lemma mode_selection_first_applicable_rule_witness :
  let text := lit "## A" ++ [NEWLINE] ++ lit "- b" in
  (exists l, In l (split text) /\ HeadingLine 2 l)
  /\ parseMarkdownList ∅ text = parseHeadingsMode ∅ (split text).
Proof.
  cbv zeta.
  set (text := lit "## A" ++ [NEWLINE] ++ lit "- b").
  assert (H : exists l, In l (split text) /\ HeadingLine 2 l).
  { exists (lit "## A"). split; [left; reflexivity|].
    exists [], 2%nat, SPACE, (lit "A").
    repeat split; reflexivity. }
  split; [exact H|].
  exact (proj1 (mode_selection_first_applicable_rule ∅ text) H).
Defined.

(** C5, as stated, fails.  The text made of the lines [##Title] and [- a]
    has a line with two leading hash markers; no whitespace follows them, so
    none of the heading tests matches, and the result is that of List Mode
    (the first line gives the title of the root, the bullet its only child),
    not that of Heading Mode (a single node [Title] with the bullet line as
    its note). *)
Lemma hashes_without_space_select_list_mode :
  let text := lit "##Title" ++ [NEWLINE] ++ lit "- a" in
  (exists l, In l (split text) /\ LeadingHashes 2 l)
  /\ parseMarkdownList ∅ text
     = Some (mkNode (lit "root") (lit "Title")
               [mkNode (lit "list-0-0-a") (lit "a") [] false None] false None)
  /\ parseHeadingsMode ∅ (split text)
     = Some (mkNode (lit "heading-2-0-Title") (lit "Title") [] false
               (Some (lit "- a")))
  /\ ~ ((exists l, In l (split text) /\ LeadingHashes 2 l) ->
        parseMarkdownList ∅ text = parseHeadingsMode ∅ (split text)).
Proof.
  cbv zeta.
  set (text := lit "##Title" ++ [NEWLINE] ++ lit "- a").
  assert (H : exists l, In l (split text) /\ LeadingHashes 2 l).
  { exists (lit "##Title"). split; [left; reflexivity|].
    exists [], 2%nat, (lit "Title"). repeat split. lia. }
  assert (Hl : parseMarkdownList ∅ text
               = Some (mkNode (lit "root") (lit "Title")
                         [mkNode (lit "list-0-0-a") (lit "a") [] false None]
                         false None))
    by (vm_compute; reflexivity).
  assert (Hh : parseHeadingsMode ∅ (split text)
               = Some (mkNode (lit "heading-2-0-Title") (lit "Title") [] false
                         (Some (lit "- a"))))
    by (vm_compute; reflexivity).
  split; [exact H|]. split; [exact Hl|]. split; [exact Hh|].
  intros Hclaim. specialize (Hclaim H). rewrite Hl, Hh in Hclaim.
  discriminate Hclaim.
Qed.

End ModeFacts.

(* ================================================================== *)
(** ** The store only decides the flags *)
(* ================================================================== *)

Module StoreFacts.
Import JsString Tree Parser Session Vocabulary TreeFacts.

Section Retag.

Variable f : jsstring -> bool.

Lemma lookup_map {A B : Type} (g : A -> B) (l : list A) (i : nat) :
  map g l !! i = option_map g (l !! i).
Proof.
  revert i. induction l as [|x l IH]; intros [|i]; simpl; auto.
Qed.

Lemma insert_map {A B : Type} (g : A -> B) (l : list A) (i : nat) (x : A) :
  <[i := g x]> (map g l) = map g (<[i := x]> l).
Proof.
  revert i. induction l as [|y l IH]; intros [|i]; simpl; auto.
  f_equal. apply IH.
Qed.

Lemma pushChild_retag h parent child :
  pushChild (map (retag f) h) parent child = map (retag f) (pushChild h parent child).
Proof.
  unfold pushChild. rewrite lookup_map.
  destruct (h !! parent) as [o|]; simpl; [|reflexivity].
  rewrite <- insert_map. reflexivity.
Qed.

Lemma setNote_retag h r n :
  setNote (map (retag f) h) r n = map (retag f) (setNote h r n).
Proof.
  unfold setNote. rewrite lookup_map.
  destruct (h !! r) as [o|]; simpl; [|reflexivity].
  rewrite <- insert_map. reflexivity.
Qed.

Lemma flushNote_retag st : flushNote (retagH f st) = retagH f (flushNote st).
Proof.
  destruct st as [h root stack cur notes index].
  unfold flushNote, retagH.
  cbn [hs_currentNode hs_noteLines hs_heap hs_root hs_stack hs_nodeIndex].
  destruct cur as [cur|]; [|reflexivity].
  destruct notes as [|n ns]; [reflexivity|].
  rewrite setNote_retag. reflexivity.
Qed.

(** Reading back commutes with redoing the flags. *)
Lemma omap_lookup_map (ts : list MindMapNode) (base : nat) (refs : list nat) :
  omap (fun r => if (base <? r)%nat then map (retagTree f) ts !! (r - S base)%nat
                 else None) refs
  = map (retagTree f)
        (omap (fun r => if (base <? r)%nat then ts !! (r - S base)%nat else None)
              refs).
Proof.
  induction refs as [|r refs IH]; [reflexivity|].
  cbn [omap list_omap]. rewrite IH.
  destruct (base <? r)%nat; [|reflexivity].
  rewrite lookup_map. destruct (ts !! (r - S base)%nat); reflexivity.
Qed.

Lemma snapshotFrom_retag (cells : Heap) :
  forall base,
    snapshotFrom base (map (retag f) cells)
    = map (retagTree f) (snapshotFrom base cells).
Proof.
  induction cells as [|o cells IH]; intros base; [reflexivity|].
  cbn [map snapshotFrom]. rewrite IH, omap_lookup_map. reflexivity.
Qed.

Lemma snapshot_retag h r :
  snapshot (map (retag f) h) r = option_map (retagTree f) (snapshot h r).
Proof.
  destruct r as [r|]; [|reflexivity].
  unfold snapshot. rewrite snapshotFrom_retag. apply lookup_map.
Qed.

(** Redoing the flags keeps the ids, in order, and makes every flag the
    value of [f] at the node's id. *)
Lemma nodes_retagTree t : nodes (retagTree f t) = map (retagTree f) (nodes t).
Proof.
  induction t as [i t cs c n IH] using MindMapNode_ind'.
  cbn [retagTree nodes children map]. f_equal.
  induction IH as [|k ks Hk _ IHks]; [reflexivity|].
  cbn [map flat_map]. rewrite map_app, Hk, IHks. reflexivity.
Qed.

Lemma ids_retagTree t : ids (retagTree f t) = ids t.
Proof.
  unfold ids. rewrite nodes_retagTree, map_map.
  apply map_ext. intros [? ? ? ? ?]. reflexivity.
Qed.

Lemma collapsed_retagTree t n :
  In n (nodes (retagTree f t)) -> collapsed n = f (id n).
Proof.
  rewrite nodes_retagTree, in_map_iff.
  intros ([? ? ? ? ?] & <- & _). reflexivity.
Qed.

End Retag.

(** One step of either parser under store [m] is the step under any other
    store, with the flags redone from [m]. *)
Lemma retag_snoc f (h : Heap) i t c :
  map (retag f) h ++ [newObj i t (f i)] = map (retag f) (h ++ [newObj i t c]).
Proof. rewrite map_app. reflexivity. Qed.

Lemma headingStep_retag m m' st line :
  headingStep m (retagH (getCollapsed m) st) line
  = retagH (getCollapsed m) (headingStep m' st line).
Proof.
  unfold headingStep.
  destruct (matchHeading (trim line)) as [[level captured]|].
  - rewrite flushNote_retag.
    destruct (flushNote st) as [h root stack cur notes index].
    unfold retagH.
    cbn [hs_heap hs_root hs_stack hs_currentNode hs_noteLines hs_nodeIndex].
    rewrite length_map.
    rewrite (retag_snoc _ _ _ _
               (getCollapsed m' (headingId (trim captured) level index))).
    destruct root as [root|];
      cbn [hs_heap hs_root hs_stack hs_currentNode hs_noteLines hs_nodeIndex];
      [|reflexivity].
    destruct (popLevels level stack) as [|parent rest];
      rewrite pushChild_retag; reflexivity.
  - destruct (truthy (trim line)); reflexivity.
Qed.

Lemma fold_headingStep_retag m m' (lines : list jsstring) :
  forall st,
    fold_left (headingStep m) lines (retagH (getCollapsed m) st)
    = retagH (getCollapsed m) (fold_left (headingStep m') lines st).
Proof.
  induction lines as [|l ls IH]; intros st; [reflexivity|].
  cbn [fold_left]. rewrite (headingStep_retag m m'). apply IH.
Qed.

Lemma headingRun_retag m m' lines :
  headingRun m lines = retagH (getCollapsed m) (headingRun m' lines).
Proof.
  unfold headingRun.
  change hsInit with (retagH (getCollapsed m) hsInit) at 1.
  rewrite (fold_headingStep_retag m m'). apply flushNote_retag.
Qed.

Lemma parseHeadingsMode_retag m m' lines :
  parseHeadingsMode m lines
  = option_map (retagTree (getCollapsed m)) (parseHeadingsMode m' lines).
Proof.
  unfold parseHeadingsMode, parseHeadingsModeRef.
  rewrite (headingRun_retag m m'). apply snapshot_retag.
Qed.

Lemma listStep_retag m m' st line :
  listStep m (retagL (getCollapsed m) st) line
  = retagL (getCollapsed m) (listStep m' st line).
Proof.
  unfold listStep.
  destruct (negb (truthy (trim line))); [reflexivity|].
  destruct (startsWithHash (trim line)); [reflexivity|].
  destruct st as [h stack index].
  unfold retagL. cbn [ls_heap ls_stack ls_nodeIndex].
  rewrite length_map.
  rewrite (retag_snoc _ _ _ _
             (getCollapsed m' (listId (trim (stripBullet (trim line)))
                                      (getIndentWidth line) index))).
  destruct (popIndents (Z.of_nat (getIndentWidth line)) stack)
    as [|parent rest]; cbn [ls_heap ls_stack ls_nodeIndex]; [reflexivity|].
  rewrite pushChild_retag. reflexivity.
Qed.

Lemma fold_listStep_retag m m' (lines : list jsstring) :
  forall st,
    fold_left (listStep m) lines (retagL (getCollapsed m) st)
    = retagL (getCollapsed m) (fold_left (listStep m') lines st).
Proof.
  induction lines as [|l ls IH]; intros st; [reflexivity|].
  cbn [fold_left]. rewrite (listStep_retag m m'). apply IH.
Qed.

Lemma listRun_retag m m' lines :
  listRun m lines = retagL (getCollapsed m) (listRun m' lines).
Proof.
  unfold listRun. destruct (scanTitle 0 lines) as [rootTitle startIndex].
  change (lsInit m rootTitle) with (retagL (getCollapsed m) (lsInit m' rootTitle)).
  apply fold_listStep_retag.
Qed.

Lemma parseListMode_retag m m' lines :
  parseListMode m lines
  = option_map (retagTree (getCollapsed m)) (parseListMode m' lines).
Proof.
  unfold parseListMode, parseListModeRef.
  rewrite (listRun_retag m m').
  unfold retagL at 1 2 3 4 5. cbn [ls_heap].
  rewrite lookup_map.
  destruct (ls_heap (listRun m' lines) !! 0%nat) as [root|]; cbn [option_map];
    [|apply snapshot_retag].
  cbn [retag o_children].
  destruct (o_children root) as [|only [|other more]]; try apply snapshot_retag.
  destruct (streq (fst (scanTitle 0 lines)) (lit "Root")); apply snapshot_retag.
Qed.

(** The tree parsed under a store is the tree parsed under any other store
    with every flag looked up again. *)
Lemma parseMarkdownList_retag m m' text :
  parseMarkdownList m text
  = option_map (retagTree (getCollapsed m)) (parseMarkdownList m' text).
Proof.
  unfold parseMarkdownList.
  destruct (length (split text) =? 0)%nat; [reflexivity|].
  destruct (hasMultiLevelHeadings (split text)); [apply parseHeadingsMode_retag|].
  destruct (hasHeadings (split text) && negb (hasListItems (split text)));
    [apply parseHeadingsMode_retag|apply parseListMode_retag].
Qed.

End StoreFacts.

(* ================================================================== *)
(** ** Parsing again *)
(* ================================================================== *)

Module SessionFacts.
Import JsString Tree Parser Session Vocabulary TreeFacts StoreFacts.

(** The ids of a parse result do not depend on the store at all. *)
Lemma ids_independent_of_store m m' text :
  option_map ids (parseMarkdownList m text)
  = option_map ids (parseMarkdownList m' text).
Proof.
  rewrite (parseMarkdownList_retag m m').
  destruct (parseMarkdownList m' text) as [t|]; [|reflexivity].
  cbn [option_map]. rewrite ids_retagTree. reflexivity.
Qed.

(** Every flag of a parse result is the store's entry for the node's id. *)
Lemma flags_from_store m text t n :
  parseMarkdownList m text = Some t -> In n (nodes t) ->
  collapsed n = getCollapsed m (id n).
Proof.
  rewrite (parseMarkdownList_retag m m).
  destruct (parseMarkdownList m text) as [t0|]; [|discriminate].
  intros [= <-]. apply collapsed_retagTree.
Qed.

Lemma getCollapsed_set m i b : getCollapsed (setCollapsedState i b m) i = b.
Proof.
  unfold getCollapsed, setCollapsedState. rewrite lookup_insert_eq.
  apply orb_false_r.
Qed.

(** C3. For every source text, every node [n] with at least one child in
    its parse result and every boolean [b]: after [setCollapsedState(n.id, b)]
    parsing the same text again yields a tree that holds a node with the id
    of [n] and the flag [b]; indeed every node of the new tree with that id
    has the flag [b]. *)
Theorem toggle_survives_reparse
        (m : Store) (text : jsstring) (t n : MindMapNode) (b : bool) :
  fst (parse text m) = Some t ->
  In n (nodes t) ->
  children n <> [] ->
  exists t' n',
    fst (toggleThenParse (id n) b text (snd (parse text m))) = Some t'
    /\ In n' (nodes t') /\ id n' = id n /\ collapsed n' = b
    /\ forall k, In k (nodes t') -> id k = id n -> collapsed k = b.
Proof.
  unfold toggleThenParse, bind, parse, setCollapsed. cbn [fst snd]. intros Ht Hn _.
  set (m2 := setCollapsedState (id n) b m).
  set (g := getCollapsed m2).
  exists (retagTree g t), (retagTree g n).
  assert (Ht' : parseMarkdownList m2 text = Some (retagTree g t))
    by (rewrite (parseMarkdownList_retag m2 m), Ht; reflexivity).
  assert (Hid : id (retagTree g n) = id n) by (destruct n; reflexivity).
  split; [exact Ht'|].
  split; [rewrite nodes_retagTree; apply in_map; exact Hn|].
  split; [exact Hid|].
  split.
  - destruct n as [i ? ? ? ?]. cbn [retagTree collapsed id].
    apply getCollapsed_set.
  - intros k Hk Hki.
    rewrite (flags_from_store _ _ _ _ Ht' Hk), Hki.
    apply getCollapsed_set.
Qed.

Lemma toggle_survives_reparse_witness :
  let text := lit "- A" ++ [NEWLINE] ++ lit "  - B" in
  let t := mkNode (lit "list-0-0-A") (lit "A")
                  [mkNode (lit "list-2-1-B") (lit "B") [] false None]
                  false None in
  fst (parse text ∅) = Some t
  /\ In t (nodes t)
  /\ children t <> []
  /\ exists t' n',
       fst (toggleThenParse (id t) true text (snd (parse text ∅))) = Some t'
       /\ In n' (nodes t') /\ id n' = id t /\ collapsed n' = true.
Proof.
  cbv zeta.
  set (text := lit "- A" ++ [NEWLINE] ++ lit "  - B").
  set (t := mkNode (lit "list-0-0-A") (lit "A")
                   [mkNode (lit "list-2-1-B") (lit "B") [] false None]
                   false None).
  assert (H1 : fst (parse text ∅) = Some t) by (vm_compute; reflexivity).
  assert (H2 : In t (nodes t)) by (left; reflexivity).
  assert (H3 : children t <> []) by discriminate.
  split; [exact H1|]. split; [exact H2|]. split; [exact H3|].
  destruct (toggle_survives_reparse ∅ text t t true H1 H2 H3)
    as (t' & n' & Ht' & Hn' & Hid & Hc & _).
  exists t', n'. repeat split; assumption.
Defined.

End SessionFacts.

(* ================================================================== *)
(** ** What the two render modes draw *)
(* ================================================================== *)

Module DrawingFacts.
Import JsString Tree Renderer Drawing Vocabulary TreeFacts.

Lemma shapes_andThen a b :
  shapes (andThen a b)
  = ((shapes a).1 ++ (shapes b).1, (shapes a).2 ++ (shapes b).2).
Proof. unfold shapes, andThen. cbn. rewrite !map_app. reflexivity. Qed.

Lemma flat_map_flat_map {A B C : Type} (g : B -> list C) (h : A -> list B) l :
  flat_map g (flat_map h l) = flat_map (fun x => flat_map g (h x)) l.
Proof.
  induction l as [|x l IH]; [reflexivity|].
  cbn [flat_map]. rewrite flat_map_app, IH. reflexivity.
Qed.

Lemma forEachChild_shapes (body : MindMapNode -> Q -> Out)
      (L N : MindMapNode -> list Shape) (cs : list MindMapNode) :
  Forall (fun c => forall y, shapes (body c y) = (L c, N c)) cs ->
  forall y, shapes (forEachChild body cs y) = (flat_map L cs, flat_map N cs).
Proof.
  induction 1 as [|c cs Hc _ IH]; intros y; [reflexivity|].
  cbn [forEachChild flat_map]. rewrite shapes_andThen, Hc, IH. reflexivity.
Qed.

(** One child callback: the node's own elements, then the loop over its
    children when it is expanded. *)
Lemma renderRightChild_unfold child parentRight parentY currentY depth :
  exists own childRight childCenterY start,
    renderRightChild child parentRight parentY currentY depth
    = andThen own
        (if negb (collapsed child) && hasChildren child
         then forEachChild
                (fun c y => renderRightChild c childRight childCenterY y (S depth))
                (children child) start
         else nothing)
    /\ shapes own = ([SPath], ownShapes child).
Proof.
  destruct child as [i t cs c n].
  eexists _, _, _, _. split; [reflexivity|].
  unfold shapes, ownShapes. cbn [linesGroup nodesGroup map shape].
  f_equal. rewrite !map_app. cbn [map shape].
  destruct (hasNote _), (hasChildren _); reflexivity.
Qed.

Lemma renderLeftChild_unfold child parentLeft parentY currentY depth :
  exists own nodeX childCenterY start,
    renderLeftChild child parentLeft parentY currentY depth
    = andThen own
        (if negb (collapsed child) && hasChildren child
         then forEachChild
                (fun c y => renderLeftChild c nodeX childCenterY y (S depth))
                (children child) start
         else nothing)
    /\ shapes own = ([SPath], ownShapes child).
Proof.
  destruct child as [i t cs c n].
  eexists _, _, _, _. split; [reflexivity|].
  unfold shapes, ownShapes. cbn [linesGroup nodesGroup map shape].
  f_equal. rewrite !map_app. cbn [map shape].
  destruct (hasNote _), (hasChildren _); reflexivity.
Qed.

Lemma drawn_unfold t :
  drawn t = t :: (if negb (collapsed t) && hasChildren t
                  then flat_map drawn (children t) else []).
Proof. destruct t; reflexivity. Qed.

Lemma pathsOf_flat_map (h : MindMapNode -> list MindMapNode) cs :
  pathsOf (flat_map h cs) = flat_map (fun c => pathsOf (h c)) cs.
Proof.
  unfold pathsOf. induction cs as [|c cs IH]; [reflexivity|].
  cbn [flat_map]. rewrite map_app, IH. reflexivity.
Qed.

Lemma renderRightChild_shapes child :
  forall parentRight parentY currentY depth,
    shapes (renderRightChild child parentRight parentY currentY depth)
    = (pathsOf (drawn child), flat_map ownShapes (drawn child)).
Proof.
  induction child as [i t cs c n IH] using MindMapNode_ind'.
  intros parentRight parentY currentY depth.
  destruct (renderRightChild_unfold (mkNode i t cs c n)
              parentRight parentY currentY depth)
    as (own & childRight & childCenterY & start & -> & Hown).
  rewrite shapes_andThen, Hown, drawn_unfold.
  cbn [children collapsed fst snd].
  destruct (negb c && hasChildren (mkNode i t cs c n)).
  - rewrite (forEachChild_shapes _ (fun k => pathsOf (drawn k))
               (fun k => flat_map ownShapes (drawn k))).
    + cbn [fst snd flat_map pathsOf map app].
      fold (pathsOf (flat_map drawn cs)).
      rewrite pathsOf_flat_map, flat_map_flat_map. reflexivity.
    + eapply Forall_impl; [exact IH|]. intros k Hk y. apply Hk.
  - cbn. rewrite !app_nil_r. reflexivity.
Qed.

Lemma renderLeftChild_shapes child :
  forall parentLeft parentY currentY depth,
    shapes (renderLeftChild child parentLeft parentY currentY depth)
    = (pathsOf (drawn child), flat_map ownShapes (drawn child)).
Proof.
  induction child as [i t cs c n IH] using MindMapNode_ind'.
  intros parentLeft parentY currentY depth.
  destruct (renderLeftChild_unfold (mkNode i t cs c n)
              parentLeft parentY currentY depth)
    as (own & nodeX & childCenterY & start & -> & Hown).
  rewrite shapes_andThen, Hown, drawn_unfold.
  cbn [children collapsed fst snd].
  destruct (negb c && hasChildren (mkNode i t cs c n)).
  - rewrite (forEachChild_shapes _ (fun k => pathsOf (drawn k))
               (fun k => flat_map ownShapes (drawn k))).
    + cbn [fst snd flat_map pathsOf map app].
      fold (pathsOf (flat_map drawn cs)).
      rewrite pathsOf_flat_map, flat_map_flat_map. reflexivity.
    + eapply Forall_impl; [exact IH|]. intros k Hk y. apply Hk.
  - cbn. rewrite !app_nil_r. reflexivity.
Qed.

Lemma renderOutlineViewChildren_shapes cs parentRight parentY depth :
  shapes (renderOutlineViewChildren cs parentRight parentY depth)
  = (pathsOf (drawnUnder cs), flat_map ownShapes (drawnUnder cs)).
Proof.
  unfold renderOutlineViewChildren, drawnUnder.
  rewrite (forEachChild_shapes _ (fun k => pathsOf (drawn k))
             (fun k => flat_map ownShapes (drawn k))).
  - rewrite pathsOf_flat_map, flat_map_flat_map. reflexivity.
  - apply Forall_forall. intros k _ y. apply renderRightChild_shapes.
Qed.

Lemma renderRadialMindMapChildrenLeft_shapes cs parentLeft parentY depth :
  shapes (renderRadialMindMapChildrenLeft cs parentLeft parentY depth)
  = (pathsOf (drawnUnder cs), flat_map ownShapes (drawnUnder cs)).
Proof.
  unfold renderRadialMindMapChildrenLeft, drawnUnder.
  rewrite (forEachChild_shapes _ (fun k => pathsOf (drawn k))
             (fun k => flat_map ownShapes (drawn k))).
  - rewrite pathsOf_flat_map, flat_map_flat_map. reflexivity.
  - apply Forall_forall. intros k _ y. apply renderLeftChild_shapes.
Qed.

Lemma root_part_shapes root (e1 e2 e3 : Svg) (rest : Out) :
  shape e1 = SRect -> shape e2 = SText (text root) -> shape e3 = SNoteIcon ->
  shapes (andThen (mkOut [] ([e1; e2] ++ (if hasNote root then [e3] else [])))
                  rest)
  = ((shapes rest).1, rootShapes root ++ (shapes rest).2).
Proof.
  intros H1 H2 H3. rewrite shapes_andThen.
  unfold shapes at 1 3, rootShapes. cbn [linesGroup nodesGroup fst snd map app].
  rewrite H1, H2. destruct (hasNote root); cbn [map app]; rewrite ?H3; reflexivity.
Qed.

Lemma no_children_drawn root :
  hasChildren root = false -> drawnUnder (children root) = [].
Proof.
  unfold hasChildren. intros Hc. apply Nat.ltb_ge in Hc.
  destruct (children root); [reflexivity|simpl in Hc; lia].
Qed.

(** Both modes draw the root without an indicator and then everything under
    its children; the root's own [collapsed] flag is never read for that. *)
Lemma render_shapes mode root :
  shapes (render mode root)
  = (pathsOf (drawnUnder (children root)),
     rootShapes root ++ flat_map ownShapes (drawnUnder (children root))).
Proof.
  destruct mode.
  - (* logic *)
    unfold render, renderOutlineView. cbv zeta.
    rewrite root_part_shapes by reflexivity.
    destruct (hasChildren root) eqn:Hc.
    + rewrite renderOutlineViewChildren_shapes. reflexivity.
    + rewrite (no_children_drawn _ Hc). reflexivity.
  - (* clockwise *)
    unfold render, renderRadialMindMap. cbv zeta.
    rewrite root_part_shapes by reflexivity.
    destruct (hasChildren root) eqn:Hc.
    + rewrite shapes_andThen.
      set (k := Nat.div2 (S (length (children root)))).
      assert (Hr : forall x y d,
                 shapes (if (0 <? length (take k (children root)))%nat
                         then renderRadialMindMapChildrenRight
                                (take k (children root)) x y d
                         else nothing)
                 = (pathsOf (drawnUnder (take k (children root))),
                    flat_map ownShapes (drawnUnder (take k (children root))))).
      { intros x y d. destruct (take k (children root)) as [|c0 cs0] eqn:E.
        - reflexivity.
        - cbn [length Nat.ltb Nat.leb].
          apply renderOutlineViewChildren_shapes. }
      assert (Hl : forall x y d,
                 shapes (if (0 <? length (drop k (children root)))%nat
                         then renderRadialMindMapChildrenLeft
                                (drop k (children root)) x y d
                         else nothing)
                 = (pathsOf (drawnUnder (drop k (children root))),
                    flat_map ownShapes (drawnUnder (drop k (children root))))).
      { intros x y d. destruct (drop k (children root)) as [|c0 cs0] eqn:E.
        - reflexivity.
        - cbn [length Nat.ltb Nat.leb].
          apply renderRadialMindMapChildrenLeft_shapes. }
      rewrite Hr, Hl. cbn [fst snd].
      unfold pathsOf, drawnUnder.
      rewrite <- map_app, <- !flat_map_app, take_drop. reflexivity.
    + rewrite (no_children_drawn _ Hc). reflexivity.
Qed.

Lemma drawn_nonempty t : (1 <= length (drawn t))%nat.
Proof. rewrite drawn_unfold. simpl. lia. Qed.

Lemma drawnUnder_length cs : (length cs <= length (drawnUnder cs))%nat.
Proof.
  unfold drawnUnder. induction cs as [|c cs IH]; [reflexivity|].
  cbn [flat_map length]. rewrite length_app.
  pose proof (drawn_nonempty c). lia.
Qed.

Lemma ownShapes_one_box (ns : list MindMapNode) :
  length (List.filter isSRect (flat_map ownShapes ns)) = length ns.
Proof.
  induction ns as [|n ns IH]; [reflexivity|].
  cbn [flat_map]. rewrite List.filter_app, length_app, IH.
  unfold ownShapes. destruct (hasNote n), (hasChildren n); reflexivity.
Qed.

(** C8, as the code has it.  For every tree whose root has at least one
    child, rendering with the root's collapsed flag set to true draws, in
    both render modes, exactly what it draws with the flag set to false: the
    root (box and label, no collapse indicator) and everything under its
    children, with one connector path per drawn non-root node.  So there is
    at least one connector and there are at least two drawn nodes.  An
    indicator showing the direct child count belongs to a collapsed non-root
    node with children. *)
Theorem collapsed_root_still_draws_children
        (root : MindMapNode) (mode : RenderMode) :
  children root <> [] ->
  let o := render mode (withCollapsed true root) in
  let under := drawnUnder (children root) in
  shapes o = (pathsOf under, rootShapes root ++ flat_map ownShapes under)
  /\ shapes o = shapes (render mode (withCollapsed false root))
  /\ connectorCount o = length under
  /\ drawnNodeCount o = S (length under)
  /\ (1 <= length (children root) <= length under)%nat.
Proof.
  intros Hcs. cbv zeta.
  pose proof (render_shapes mode (withCollapsed true root)) as Ht.
  pose proof (render_shapes mode (withCollapsed false root)) as Hf.
  change (children (withCollapsed true root)) with (children root) in Ht.
  change (children (withCollapsed false root)) with (children root) in Hf.
  change (rootShapes (withCollapsed true root)) with (rootShapes root) in Ht.
  change (rootShapes (withCollapsed false root)) with (rootShapes root) in Hf.
  assert (Hl : map shape (linesGroup (render mode (withCollapsed true root)))
               = pathsOf (drawnUnder (children root)))
    by exact (f_equal fst Ht).
  assert (Hn : map shape (nodesGroup (render mode (withCollapsed true root)))
               = rootShapes root ++ flat_map ownShapes (drawnUnder (children root)))
    by exact (f_equal snd Ht).
  split; [exact Ht|].
  split; [rewrite Ht, Hf; reflexivity|].
  split.
  - unfold connectorCount.
    rewrite <- (length_map shape), Hl. unfold pathsOf. apply length_map.
  - split.
    + unfold drawnNodeCount.
      rewrite Hn, List.filter_app, length_app, ownShapes_one_box.
      unfold rootShapes. destruct (hasNote root); reflexivity.
    + split; [|apply drawnUnder_length].
      destruct (children root); [congruence|simpl; lia].
Qed.

Lemma collapsed_root_still_draws_children_witness :
  children collapsedExample <> []
  /\ connectorCount (render logic (withCollapsed true collapsedExample))
     = length (drawnUnder (children collapsedExample))
  /\ drawnNodeCount (render logic (withCollapsed true collapsedExample))
     = S (length (drawnUnder (children collapsedExample))).
Proof.
  assert (H : children collapsedExample <> []) by discriminate.
  split; [exact H|].
  destruct (collapsed_root_still_draws_children collapsedExample logic H)
    as (_ & _ & Hc & Hn & _).
  split; [exact Hc|exact Hn].
Defined.

(** C8, as stated, fails: the outline with item A and sub-item B, parsed and
    then collapsed at the root, is drawn with one connector and two nodes in
    either mode. *)
Lemma collapsed_root_draws_connector_and_child :
  option_map (withCollapsed true)
             (Parser.parseMarkdownList ∅ (lit "- A" ++ [NEWLINE] ++ lit "  - B"))
  = Some collapsedExample
  /\ connectorCount (render logic collapsedExample) = 1%nat
  /\ drawnNodeCount (render logic collapsedExample) = 2%nat
  /\ connectorCount (render clockwise collapsedExample) = 1%nat
  /\ drawnNodeCount (render clockwise collapsedExample) = 2%nat.
Proof. repeat split; vm_compute; reflexivity. Qed.

End DrawingFacts.

(* ================================================================== *)
(** ** The object graph the parsers build *)
(* ================================================================== *)

Module HeapFacts.
Import JsString Tree Parser Vocabulary.

Lemma forward_snoc h i t c : forward h -> forward (h ++ [newObj i t c]).
Proof.
  intros Hf k o Hk. rewrite length_app. cbn [length].
  destruct (decide (k < length h)%nat) as [Hlt|Hge].
  - rewrite lookup_app_l in Hk by exact Hlt.
    eapply Forall_impl; [exact (Hf k o Hk)|]. cbn. intros r Hr. lia.
  - rewrite lookup_app_r in Hk by lia.
    destruct (k - length h)%nat as [|j]; [|destruct j; discriminate Hk].
    injection Hk as <-. constructor.
Qed.

Lemma forward_pushChild h parent child :
  forward h -> (parent < child < length h)%nat ->
  forward (pushChild h parent child).
Proof.
  intros Hf Hpc. unfold pushChild.
  destruct (h !! parent) as [o|] eqn:Ho; [|exact Hf].
  intros k o' Hk. rewrite length_insert.
  destruct (decide (k = parent)) as [->|Hne].
  - rewrite list_lookup_insert_eq in Hk by lia.
    injection Hk as <-. cbn [o_children].
    apply Forall_app. split; [exact (Hf parent o Ho)|].
    constructor; [exact Hpc|constructor].
  - rewrite list_lookup_insert_ne in Hk by congruence.
    exact (Hf k o' Hk).
Qed.

Lemma forward_setNote h r n : forward h -> forward (setNote h r n).
Proof.
  intros Hf. unfold setNote.
  destruct (h !! r) as [o|] eqn:Ho; [|exact Hf].
  intros k o' Hk. rewrite length_insert.
  destruct (decide (k = r)) as [->|Hne].
  - rewrite list_lookup_insert_eq in Hk by (apply lookup_lt_Some in Ho; lia).
    injection Hk as <-. exact (Hf r o Ho).
  - rewrite list_lookup_insert_ne in Hk by congruence.
    exact (Hf k o' Hk).
Qed.

Lemma length_pushChild h parent child : length (pushChild h parent child) = length h.
Proof.
  unfold pushChild. destruct (h !! parent); [apply length_insert|reflexivity].
Qed.

Lemma length_setNote h r n : length (setNote h r n) = length h.
Proof.
  unfold setNote. destruct (h !! r); [apply length_insert|reflexivity].
Qed.

(** *** Heading Mode *)

Lemma popLevels_sub (P : HEntry -> Prop) level stack :
  Forall P stack -> Forall P (popLevels level stack).
Proof.
  induction 1 as [|e rest He Hrest IH]; cbn [popLevels]; [constructor|].
  destruct (level <=? h_level e)%nat; [exact IH|constructor; assumption].
Qed.

Lemma flushNote_HInv st : HInv st -> HInv (flushNote st).
Proof.
  destruct st as [h root stack cur notes index].
  unfold flushNote, HInv.
  cbn [hs_heap hs_root hs_stack hs_currentNode hs_noteLines hs_nodeIndex].
  destruct cur as [cur|]; [|tauto].
  destruct notes as [|n ns]; [tauto|].
  cbn [hs_heap hs_root hs_stack hs_currentNode hs_noteLines hs_nodeIndex].
  rewrite length_setNote. intros (Hf & Hs & Hr).
  split; [apply forward_setNote, Hf|]. split; assumption.
Qed.

Lemma headingStep_HInv m st line : HInv st -> HInv (headingStep m st line).
Proof.
  intros Hinv. unfold headingStep.
  destruct (matchHeading (trim line)) as [[level captured]|].
  - apply flushNote_HInv in Hinv.
    destruct (flushNote st) as [h root stack cur notes index].
    destruct Hinv as (Hf & Hs & Hr).
    cbn [hs_heap hs_root hs_stack hs_currentNode hs_noteLines hs_nodeIndex] in *.
    set (new := newObj _ _ _).
    assert (Hf' : forward (h ++ [new])) by apply forward_snoc, Hf.
    assert (Hlen : length (h ++ [new]) = S (length h))
      by (rewrite length_app; cbn; lia).
    assert (Hs' : forall (P : list HEntry), Forall (fun e => (h_node e < length h)%nat) P ->
                  Forall (fun e => (h_node e < S (length h))%nat) P)
      by (intros P HP; eapply Forall_impl; [exact HP|]; cbn; intros; lia).
    destruct root as [root|]; unfold HInv;
      cbn [hs_heap hs_root hs_stack hs_currentNode hs_noteLines hs_nodeIndex].
    + pose proof (Hr root eq_refl) as Hroot.
      pose proof (popLevels_sub _ level stack Hs) as Hpop.
      destruct (popLevels level stack) as [|parent rest] eqn:Epop.
      * rewrite length_pushChild, Hlen.
        split; [apply forward_pushChild; [exact Hf'|lia]|].
        split; [constructor; [cbn; lia|constructor]|].
        intros r [= <-]. lia.
      * rewrite length_pushChild, Hlen.
        inversion Hpop as [|? ? Hp Hrest]; subst.
        split; [apply forward_pushChild; [exact Hf'|lia]|].
        split; [constructor; [cbn; lia|apply Hs'; constructor; assumption]|].
        intros r [= <-]. lia.
    + rewrite Hlen.
      split; [exact Hf'|].
      split; [constructor; [cbn; lia|apply Hs', Hs]|].
      intros r [= <-]. lia.
  - destruct (truthy (trim line)); [|exact Hinv].
    destruct st as [h root stack cur notes index]. exact Hinv.
Qed.

Lemma hsInit_HInv : HInv hsInit.
Proof.
  unfold HInv, hsInit.
  cbn [hs_heap hs_root hs_stack hs_currentNode hs_noteLines hs_nodeIndex].
  split; [intros i o Hi; destruct i; discriminate Hi|].
  split; [constructor|discriminate].
Qed.

Lemma fold_HInv m (lines : list jsstring) :
  forall st, HInv st -> HInv (fold_left (headingStep m) lines st).
Proof.
  induction lines as [|l ls IH]; intros st Hst; [exact Hst|].
  cbn [fold_left]. apply IH, headingStep_HInv, Hst.
Qed.

Lemma parseHeadingsMode_forward m lines :
  forward (snd (parseHeadingsModeRef m lines))
  /\ forall r, fst (parseHeadingsModeRef m lines) = Some r ->
               (r < length (snd (parseHeadingsModeRef m lines)))%nat.
Proof.
  unfold parseHeadingsModeRef, headingRun. cbn [fst snd].
  pose proof (flushNote_HInv _ (fold_HInv m lines _ hsInit_HInv)) as (Hf & _ & Hr).
  split; assumption.
Qed.

(** *** List Mode *)

Lemma popIndents_sub (P : LEntry -> Prop) indent stack :
  Forall P stack -> Forall P (popIndents indent stack).
Proof.
  induction 1 as [|e rest He Hrest IH]; cbn [popIndents]; [constructor|].
  destruct rest as [|e' rest']; [constructor; assumption|].
  destruct (indent <=? l_indent e)%Z; [exact IH|constructor; assumption].
Qed.

Lemma popIndents_nonempty indent stack :
  stack <> [] -> popIndents indent stack <> [].
Proof.
  induction stack as [|e rest IH]; [congruence|]. intros _.
  cbn [popIndents]. destruct rest as [|e' rest']; [discriminate|].
  destruct (indent <=? l_indent e)%Z; [apply IH; discriminate|discriminate].
Qed.

Lemma pushChild_keeps h parent child k o' :
  pushChild h parent child !! k = Some o' ->
  exists o, h !! k = Some o /\ o_id o' = o_id o /\ o_text o' = o_text o.
Proof.
  unfold pushChild. destruct (h !! parent) as [p|] eqn:Hp; [|eauto].
  destruct (decide (k = parent)) as [->|Hne].
  - rewrite list_lookup_insert_eq by (apply lookup_lt_Some in Hp; lia).
    intros [= <-]. exists p. auto.
  - rewrite list_lookup_insert_ne by congruence. eauto.
Qed.

Lemma pushChild_root h parent child root :
  h !! 0%nat = Some root ->
  exists root', pushChild h parent child !! 0%nat = Some root'
                /\ o_id root' = o_id root /\ o_text root' = o_text root.
Proof.
  intros Hroot. unfold pushChild.
  destruct (h !! parent) as [p|] eqn:Hp; [|eauto].
  destruct (decide (parent = 0%nat)) as [->|Hne].
  - rewrite list_lookup_insert_eq by (apply lookup_lt_Some in Hp; lia).
    rewrite Hroot in Hp. injection Hp as <-. eauto.
  - rewrite list_lookup_insert_ne by congruence. eauto.
Qed.

Lemma listStep_LInv title m st line :
  LInv title st -> LInv title (listStep m st line).
Proof.
  intros Hinv. unfold listStep.
  destruct (negb (truthy (trim line))); [exact Hinv|].
  destruct (startsWithHash (trim line)); [exact Hinv|].
  destruct st as [h stack index].
  destruct Hinv as (Hf & Hne & Hs & root & Hroot & Hid & Htext).
  cbn [ls_heap ls_stack ls_nodeIndex] in *.
  set (new := newObj _ _ _).
  set (indent := Z.of_nat (getIndentWidth line)).
  pose proof (popIndents_sub _ indent stack Hs) as Hpop.
  pose proof (popIndents_nonempty indent stack Hne) as Hpne.
  destruct (popIndents indent stack) as [|parent rest]; [congruence|].
  inversion Hpop as [|? ? Hp Hrest]; subst.
  assert (Hlen : length (h ++ [new]) = S (length h))
    by (rewrite length_app; cbn; lia).
  unfold LInv. cbn [ls_heap ls_stack ls_nodeIndex].
  rewrite length_pushChild, Hlen.
  split; [apply forward_pushChild; [apply forward_snoc, Hf|lia]|].
  split; [discriminate|].
  split.
  - constructor; [cbn; lia|].
    eapply Forall_impl; [exact Hpop|]. cbn. intros; lia.
  - assert (Hroot' : (h ++ [new]) !! 0%nat = Some root)
      by (rewrite lookup_app_l; [exact Hroot|apply lookup_lt_Some in Hroot; lia]).
    destruct (pushChild_root _ (l_node parent) (length h) _ Hroot')
      as (root' & Hr' & Hid' & Htext').
    exists root'. rewrite Hid', Htext'. auto.
Qed.

Lemma lsInit_LInv m title : LInv title (lsInit m title).
Proof.
  unfold LInv, lsInit. cbn [ls_heap ls_stack ls_nodeIndex].
  split.
  - intros i o Hi. destruct i as [|i]; [|destruct i; discriminate Hi].
    injection Hi as <-. constructor.
  - split; [discriminate|].
    split; [repeat constructor|].
    eexists. split; [reflexivity|]. split; reflexivity.
Qed.

Lemma fold_LInv title m (lines : list jsstring) :
  forall st, LInv title st -> LInv title (fold_left (listStep m) lines st).
Proof.
  induction lines as [|l ls IH]; intros st Hst; [exact Hst|].
  cbn [fold_left]. apply IH, listStep_LInv, Hst.
Qed.

Lemma listRun_LInv m lines : LInv (fst (scanTitle 0 lines)) (listRun m lines).
Proof.
  unfold listRun. destruct (scanTitle 0 lines) as [title start].
  apply fold_LInv, lsInit_LInv.
Qed.

Lemma parseListMode_forward m lines :
  forward (snd (parseListModeRef m lines))
  /\ exists r, fst (parseListModeRef m lines) = Some r
               /\ (r < length (snd (parseListModeRef m lines)))%nat.
Proof.
  unfold parseListModeRef.
  destruct (listRun_LInv m lines) as (Hf & _ & _ & root & Hroot & _).
  rewrite Hroot.
  assert (H0 : (0 < length (ls_heap (listRun m lines)))%nat)
    by (apply lookup_lt_Some in Hroot; exact Hroot).
  pose proof (Hf _ _ Hroot) as Hcs.
  destruct (o_children root) as [|only [|other more]];
    cbn [fst snd]; try (split; [exact Hf|exists 0%nat; auto]).
  inversion Hcs as [|? ? Honly _]; subst.
  destruct (streq _ _); cbn [fst snd];
    (split; [exact Hf|eexists; split; [reflexivity|lia]]).
Qed.

Lemma scanTitle_default (lines : list jsstring) :
  forall i, snd (scanTitle i lines) = 0%nat -> fst (scanTitle i lines) = lit "Root".
Proof.
  induction lines as [|l ls IH]; intros i; cbn [scanTitle]; [reflexivity|].
  destruct (negb (truthy (trim l))); [apply IH|].
  destruct (startsWithHash (trim l)); [discriminate|reflexivity].
Qed.

(** The synthetic root is kept unless it has exactly one child and its title
    is the placeholder, be it by default (no title line) or because the
    title line itself says Root. *)
Lemma list_mode_root_kept_iff m lines :
  exists root,
    ls_heap (listRun m lines) !! 0%nat = Some root
    /\ o_id root = lit "root"
    /\ o_text root = fst (scanTitle 0 lines)
    /\ (fst (parseListModeRef m lines) = Some 0%nat
        <-> ~ (length (o_children root) = 1%nat
               /\ (titleLineFound lines = false
                   \/ fst (scanTitle 0 lines) = lit "Root"))).
Proof.
  destruct (listRun_LInv m lines) as (Hf & _ & _ & root & Hroot & Hid & Htext).
  exists root. repeat split; try assumption.
  - unfold parseListModeRef. rewrite Hroot.
    pose proof (Hf _ _ Hroot) as Hcs.
    destruct (o_children root) as [|only [|other more]];
      [intros _ [Hl _]; discriminate Hl| |intros _ [Hl _]; discriminate Hl].
    inversion Hcs as [|? ? Honly _]; subst.
    unfold streq. case_bool_decide as Ht; cbn [fst].
    + intros [= ->]. lia.
    + intros _ [_ [Hno|Hyes]]; [|congruence].
      apply Ht, scanTitle_default.
      unfold titleLineFound in Hno. apply negb_false_iff, Nat.eqb_eq in Hno.
      exact Hno.
  - intros Hnot. unfold parseListModeRef. rewrite Hroot.
    destruct (o_children root) as [|only [|other more]]; try reflexivity.
    unfold streq. case_bool_decide as Ht; [|reflexivity].
    exfalso. apply Hnot. split; [reflexivity|right; exact Ht].
Qed.

(** C4, what the code does on a titled outline with a single top-level item:
    the title line [# Root] is there, yet the synthetic root is dropped and
    the item comes back as the root; with any other title ([# T]) the
    synthetic root is kept. *)
Theorem title_Root_single_item_elided :
  parseMarkdownList ∅ (lit "# Root" ++ [NEWLINE] ++ lit "- A")
  = Some (mkNode (lit "list-0-0-A") (lit "A") [] false None)
  /\ parseMarkdownList ∅ (lit "# T" ++ [NEWLINE] ++ lit "- A")
     = Some (mkNode (lit "root") (lit "T")
                    [mkNode (lit "list-0-0-A") (lit "A") [] false None]
                    false None).
Proof. split; vm_compute; reflexivity. Qed.

(** *** Reading the graph back loses nothing *)

Lemma snapshotFrom_length (cells : Heap) :
  forall base, length (snapshotFrom base cells) = length cells.
Proof.
  induction cells as [|o cells IH]; intros base; [reflexivity|].
  cbn [snapshotFrom length]. rewrite IH. reflexivity.
Qed.

Lemma omap_all_found (t0 : MindMapNode) (ts : list MindMapNode)
      (base : nat) (refs : list nat) :
  Forall (fun r => (base < r < S base + length ts)%nat) refs ->
  Forall2 (fun r c => (t0 :: ts) !! (r - base)%nat = Some c) refs
          (omap (fun r => if (base <? r)%nat then ts !! (r - S base)%nat else None)
                refs).
Proof.
  induction 1 as [|r refs Hr _ IH]; [constructor|].
  cbn [omap list_omap].
  replace (base <? r)%nat with true by (symmetry; apply Nat.ltb_lt; lia).
  destruct (lookup_lt_is_Some_2 ts (r - S base)%nat) as [c Hc]; [lia|].
  rewrite Hc. constructor; [|exact IH].
  replace (r - base)%nat with (S (r - S base)) by lia. exact Hc.
Qed.

Lemma Forall2_impl_Forall {A B : Type} (P : A -> Prop) (R R' : A -> B -> Prop)
      (l : list A) (k : list B) :
  Forall P l -> Forall2 R l k ->
  (forall x y, P x -> R x y -> R' x y) -> Forall2 R' l k.
Proof.
  intros HP HR Himp. revert HP.
  induction HR as [|x y l k Hxy _ IH]; intros HP; [constructor|].
  inversion HP as [|? ? Hx Hl]; subst.
  constructor; [apply Himp; assumption|apply IH, Hl].
Qed.

Lemma snapshotFrom_lookup (cells : Heap) :
  forall base k o,
    cells !! k = Some o ->
    Forall (fun r => (base + k < r < base + length cells)%nat) (o_children o) ->
    exists t,
      snapshotFrom base cells !! k = Some t
      /\ id t = o_id o /\ text t = o_text o
      /\ collapsed t = o_collapsed o /\ note t = o_note o
      /\ Forall2 (fun r c => snapshotFrom base cells !! (r - base)%nat = Some c)
                 (o_children o) (children t).
Proof.
  induction cells as [|o0 cells IH]; intros base k o Hk Hrefs;
    [destruct k; discriminate Hk|].
  destruct k as [|k].
  - injection Hk as <-. cbn [snapshotFrom].
    eexists. split; [reflexivity|]. cbn [id text collapsed note children].
    repeat split.
    apply omap_all_found. rewrite snapshotFrom_length.
    eapply Forall_impl; [exact Hrefs|]. cbn. intros r Hr. lia.
  - cbn [snapshotFrom].
    assert (Hrefs' : Forall (fun r => (S base + k < r < S base + length cells)%nat)
                            (o_children o))
      by (eapply Forall_impl; [exact Hrefs|]; cbn; intros r Hr; lia).
    destruct (IH (S base) k o Hk Hrefs') as (t & Ht & Hi & Htx & Hc & Hn & Hcs).
    exists t. split; [exact Ht|]. repeat split; try assumption.
    eapply Forall2_impl_Forall; [exact Hrefs'|exact Hcs|].
    cbn. intros r c Hr Hrc.
    replace (r - base)%nat with (S (r - S base)) by lia. exact Hrc.
Qed.

(** Under [forward] the tree read at a reference has the object's fields and
    one child tree per child reference, each read at that reference. *)
Lemma snapshot_faithful (h : Heap) (i : nat) (o : Obj) :
  forward h -> h !! i = Some o ->
  exists t,
    snapshot h (Some i) = Some t
    /\ id t = o_id o /\ text t = o_text o
    /\ collapsed t = o_collapsed o /\ note t = o_note o
    /\ Forall2 (fun r c => snapshot h (Some r) = Some c)
               (o_children o) (children t).
Proof.
  intros Hf Hi.
  destruct (snapshotFrom_lookup h 0 i o Hi) as (t & Ht & Hrest).
  - eapply Forall_impl; [exact (Hf i o Hi)|]. cbn. intros r Hr. lia.
  - exists t. split; [exact Ht|].
    destruct Hrest as (H1 & H2 & H3 & H4 & Hcs).
    repeat split; try assumption.
    eapply Forall2_impl; [exact Hcs|].
    cbn. intros r c Hrc. rewrite Nat.sub_0_r in Hrc. exact Hrc.
Qed.

(** *** When the result is [null] *)

Lemma snapshot_allocated (h : Heap) (r : nat) :
  (r < length h)%nat -> exists t, snapshot h (Some r) = Some t.
Proof.
  intros Hr. unfold snapshot.
  apply lookup_lt_is_Some_2. rewrite snapshotFrom_length. exact Hr.
Qed.

(** List Mode always returns a node. *)
Lemma parseListMode_returns m lines : exists t, parseListMode m lines = Some t.
Proof.
  unfold parseListMode.
  destruct (parseListMode_forward m lines) as (_ & r & Hr & Hlt).
  destruct (parseListModeRef m lines) as [ref h]. cbn [fst snd] in *.
  subst ref. apply snapshot_allocated, Hlt.
Qed.

(** Heading Mode returns [null] exactly when no line matched as a heading. *)
Lemma parseHeadingsMode_null_iff m lines :
  parseHeadingsMode m lines = None <-> hs_root (headingRun m lines) = None.
Proof.
  unfold parseHeadingsMode.
  destruct (parseHeadingsMode_forward m lines) as (_ & Hr).
  unfold parseHeadingsModeRef in *. cbn [fst snd] in *.
  destruct (hs_root (headingRun m lines)) as [r|]; [|split; reflexivity].
  destruct (snapshot_allocated _ r (Hr r eq_refl)) as [t Ht].
  rewrite Ht. split; discriminate.
Qed.

(** A heading whose text holds a carriage return is not matched by the
    heading pattern of Heading Mode, which then finds no root. *)
Example null_from_unmatched_heading :
  parseMarkdownList ∅ (lit "# a" ++ [13%N] ++ lit "b") = None.
Proof. vm_compute. reflexivity. Qed.

End HeapFacts.

(* ================================================================== *)
(** ** Allocation order is traversal order *)
(* ================================================================== *)

Module PreorderFacts.
Import JsString Tree Parser Vocabulary Preorder TreeFacts StoreFacts HeapFacts.

Lemma Pre_Chain_order g :
  (forall i e, Pre g i e -> (i < e)%nat)
  /\ (forall s cs e, Chain g s cs e -> (s <= e)%nat).
Proof.
  apply Pre_Chain_ind; intros; lia.
Qed.

Lemma Pre_lt g i e : Pre g i e -> (i < e)%nat.
Proof. apply Pre_Chain_order. Qed.

Lemma Chain_le g s cs e : Chain g s cs e -> (s <= e)%nat.
Proof. apply Pre_Chain_order. Qed.

(** Both predicates only look at the objects in the range they speak of. *)
Lemma Pre_Chain_local g :
  (forall i e, Pre g i e ->
     forall g', (forall k, (i <= k < e)%nat -> g' !! k = g !! k) -> Pre g' i e)
  /\ (forall s cs e, Chain g s cs e ->
        forall g', (forall k, (s <= k < e)%nat -> g' !! k = g !! k) ->
                   Chain g' s cs e).
Proof.
  apply Pre_Chain_ind.
  - intros i e cs Hi Hc IH g' Hsame.
    pose proof (Chain_le _ _ _ _ Hc) as Hle.
    apply Pre_intro with (cs := cs).
    + rewrite Hsame by lia. exact Hi.
    + apply IH. intros k Hk. apply Hsame. lia.
  - intros s g' _. constructor.
  - intros s cs e' e Hp IHp Hc IHc g' Hsame.
    pose proof (Pre_lt _ _ _ Hp). pose proof (Chain_le _ _ _ _ Hc).
    apply Chain_cons with (e' := e').
    + apply IHp. intros k Hk. apply Hsame. lia.
    + apply IHc. intros k Hk. apply Hsame. lia.
Qed.

Lemma Pre_local g g' i e :
  Pre g i e -> (forall k, (i <= k < e)%nat -> g' !! k = g !! k) -> Pre g' i e.
Proof. intros H. apply Pre_Chain_local, H. Qed.

Lemma Chain_local g g' s cs e :
  Chain g s cs e -> (forall k, (s <= k < e)%nat -> g' !! k = g !! k) ->
  Chain g' s cs e.
Proof. intros H. apply Pre_Chain_local, H. Qed.

Lemma Chain_snoc g s cs e' e :
  Chain g s cs e' -> Pre g e' e -> Chain g s (cs ++ [e']) e.
Proof.
  intros Hc Hp. induction Hc as [s|s cs e1 e2 Hp1 Hc1 IH].
  - cbn. apply Chain_cons with (e' := e); [exact Hp|constructor].
  - cbn. apply Chain_cons with (e' := e1); [exact Hp1|apply IH, Hp].
Qed.

Lemma Below_lt g c p rest : Below g c (p :: rest) -> (p < c)%nat.
Proof.
  intros [(closed & _ & Hc) _]. apply Chain_le in Hc. lia.
Qed.

Lemma Below_local g g' c stack :
  Below g c stack -> (forall k, (k < c)%nat -> g' !! k = g !! k) ->
  Below g' c stack.
Proof.
  revert c. induction stack as [|p rest IH]; intros c Hb Hsame; [exact I|].
  pose proof (Below_lt _ _ _ _ Hb) as Hlt.
  destruct Hb as [(closed & Hp & Hc) Hrest].
  split.
  - exists closed. split; [rewrite Hsame by lia; exact Hp|].
    eapply Chain_local; [exact Hc|]. intros k Hk. apply Hsame. lia.
  - apply IH; [exact Hrest|]. intros k Hk. apply Hsame. lia.
Qed.

Lemma Open_top g top rest : Open g (top :: rest) -> Pre g top (length g).
Proof.
  intros [(cs & Ht & Hc) _]. exact (Pre_intro _ _ _ _ Ht Hc).
Qed.

(** [stack.pop()] *)
Lemma Open_pop g top p rest : Open g (top :: p :: rest) -> Open g (p :: rest).
Proof.
  intros Ho. pose proof (Open_top _ _ _ Ho) as Hpre.
  destruct Ho as [_ [(closed & Hp & Hc) Hrest]].
  split; [|exact Hrest].
  exists (closed ++ [top]). split; [exact Hp|].
  apply Chain_snoc; assumption.
Qed.

Lemma Open_suffix g (pre s : list nat) : s <> [] -> Open g (pre ++ s) -> Open g s.
Proof.
  intros Hs. induction pre as [|a pre IH]; [auto|].
  intros Ho. apply IH. cbn [app] in Ho.
  destruct (pre ++ s) as [|b l] eqn:E.
  - destruct pre; [cbn in E; congruence|discriminate E].
  - exact (Open_pop _ _ _ _ Ho).
Qed.

Lemma Open_bottom g stack r :
  Open g stack -> last stack = Some r -> Pre g r (length g).
Proof.
  induction stack as [|a [|b l] IH]; intros Ho Hl.
  - destruct Ho.
  - cbn in Hl. injection Hl as <-. exact (Open_top _ _ _ Ho).
  - apply IH; [exact (Open_pop _ _ _ _ Ho)|].
    rewrite last_cons_cons in Hl. exact Hl.
Qed.

(** Allocating a node and pushing it onto the top's [children] and onto the
    stack. *)
Lemma Open_push g top rest cs :
  Open g (top :: rest) -> g !! top = Some cs ->
  Open (<[top := cs ++ [length g]]> (g ++ [[]])) (length g :: top :: rest).
Proof.
  intros Ho Ht.
  assert (Htop : (top < length g)%nat) by (apply lookup_lt_Some in Ht; exact Ht).
  set (g' := <[top := cs ++ [length g]]> (g ++ [[]])).
  assert (Hlen : length g' = S (length g))
    by (unfold g'; rewrite length_insert, length_app; cbn; lia).
  assert (Hother : forall k, k <> top -> (k < length g)%nat -> g' !! k = g !! k).
  { intros k Hk Hlt. unfold g'.
    rewrite list_lookup_insert_ne by congruence.
    apply lookup_app_l. exact Hlt. }
  destruct Ho as [(cs0 & Ht0 & Hc) Hrest].
  rewrite Ht in Ht0. injection Ht0 as <-.
  split.
  - exists []. split.
    + unfold g'. rewrite list_lookup_insert_ne by lia.
      rewrite lookup_app_r by lia. rewrite Nat.sub_diag. reflexivity.
    + rewrite Hlen. constructor.
  - split.
    + exists cs. split.
      * unfold g'. apply list_lookup_insert_eq. rewrite length_app. cbn. lia.
      * eapply Chain_local; [exact Hc|]. intros k Hk. apply Hother; lia.
    + eapply Below_local; [exact Hrest|]. intros k Hk. apply Hother; lia.
Qed.

(** *** The heap operations on the children table *)

Lemma kids_length h : length (kids h) = length h.
Proof. apply length_map. Qed.

Lemma kids_lookup h i cs :
  kids h !! i = Some cs <-> exists o, h !! i = Some o /\ o_children o = cs.
Proof.
  unfold kids. rewrite lookup_map. destruct (h !! i) as [o|]; cbn.
  - split; [intros [= <-]; eauto|intros (o' & [= <-] & <-); reflexivity].
  - split; [discriminate|intros (o' & Ho & _); discriminate].
Qed.

Lemma kids_setNote h r n : kids (setNote h r n) = kids h.
Proof.
  unfold setNote, kids. destruct (h !! r) as [o|] eqn:Ho; [|reflexivity].
  rewrite <- insert_map. cbn [o_children].
  apply list_insert_id. rewrite lookup_map, Ho. reflexivity.
Qed.

Lemma kids_alloc_push h p cs i t c :
  kids h !! p = Some cs ->
  kids (pushChild (h ++ [newObj i t c]) p (length h))
  = <[p := cs ++ [length (kids h)]]> (kids h ++ [[]]).
Proof.
  intros Hp. apply kids_lookup in Hp as (o & Ho & <-).
  unfold pushChild.
  rewrite lookup_app_l by (apply lookup_lt_Some in Ho; exact Ho).
  rewrite Ho. unfold kids at 1. rewrite <- insert_map. cbn [o_children].
  rewrite map_app, kids_length. reflexivity.
Qed.

Lemma ids_pushChild h p c : map o_id (pushChild h p c) = map o_id h.
Proof.
  unfold pushChild. destruct (h !! p) as [o|] eqn:Ho; [|reflexivity].
  rewrite <- insert_map. cbn [o_id].
  apply list_insert_id. rewrite lookup_map, Ho. reflexivity.
Qed.

Lemma texts_pushChild h p c : map o_text (pushChild h p c) = map o_text h.
Proof.
  unfold pushChild. destruct (h !! p) as [o|] eqn:Ho; [|reflexivity].
  rewrite <- insert_map. cbn [o_text].
  apply list_insert_id. rewrite lookup_map, Ho. reflexivity.
Qed.

Lemma ids_setNote h r n : map o_id (setNote h r n) = map o_id h.
Proof.
  unfold setNote. destruct (h !! r) as [o|] eqn:Ho; [|reflexivity].
  rewrite <- insert_map. cbn [o_id].
  apply list_insert_id. rewrite lookup_map, Ho. reflexivity.
Qed.

Lemma texts_setNote h r n : map o_text (setNote h r n) = map o_text h.
Proof.
  unfold setNote. destruct (h !! r) as [o|] eqn:Ho; [|reflexivity].
  rewrite <- insert_map. cbn [o_text].
  apply list_insert_id. rewrite lookup_map, Ho. reflexivity.
Qed.

(** *** What one List Mode step does *)

Lemma popIndents_suffix indent stack :
  exists pre, stack = pre ++ popIndents indent stack.
Proof.
  induction stack as [|e rest IH]; [exists []; reflexivity|].
  cbn [popIndents]. destruct rest as [|e' rest']; [exists []; reflexivity|].
  destruct (indent <=? l_indent e)%Z; [|exists []; reflexivity].
  destruct IH as [pre Hpre]. exists (e :: pre). cbn [app]. f_equal. exact Hpre.
Qed.

Lemma listStep_skip m st line :
  isItemLine line = false -> listStep m st line = st.
Proof.
  unfold isItemLine, listStep. intros H.
  destruct (truthy (trim line)); [|reflexivity].
  cbn in H. apply negb_false_iff in H. rewrite H. reflexivity.
Qed.

Lemma listStep_item m st line :
  isItemLine line = true -> ls_stack st <> [] ->
  exists pre parent rest,
    ls_stack st = pre ++ parent :: rest
    /\ listStep m st line
       = mkLState
           (pushChild
              (ls_heap st
               ++ [newObj (listId (itemText line) (getIndentWidth line)
                                  (ls_nodeIndex st))
                          (itemText line)
                          (getCollapsed m (listId (itemText line)
                                                  (getIndentWidth line)
                                                  (ls_nodeIndex st)))])
              (l_node parent) (length (ls_heap st)))
           (mkLEntry (length (ls_heap st))
                     (Z.of_nat (length (parent :: rest)) - 1)
                     (Z.of_nat (getIndentWidth line))
            :: parent :: rest)
           (S (ls_nodeIndex st)).
Proof.
  unfold isItemLine, listStep. intros H Hne.
  apply andb_true_iff in H as [H1 H2]. apply negb_true_iff in H2.
  rewrite H1, H2. cbn [negb].
  destruct (popIndents_suffix (Z.of_nat (getIndentWidth line)) (ls_stack st))
    as [pre Hpre].
  pose proof (popIndents_nonempty (Z.of_nat (getIndentWidth line)) _ Hne) as Hp.
  destruct (popIndents (Z.of_nat (getIndentWidth line)) (ls_stack st))
    as [|parent rest]; [congruence|].
  exists pre, parent, rest. split; [exact Hpre|reflexivity].
Qed.

Lemma last_app_nonempty {A : Type} (pre s : list A) :
  s <> [] -> last (pre ++ s) = last s.
Proof.
  intros Hs. destruct (exists_last Hs) as (s' & x & ->).
  rewrite app_assoc, !last_snoc. reflexivity.
Qed.

Lemma listStep_LOpen m st line :
  ls_stack st <> [] -> LOpen st -> LOpen (listStep m st line).
Proof.
  intros Hne [Ho Hl].
  destruct (isItemLine line) eqn:Hitem;
    [|rewrite (listStep_skip _ _ _ Hitem); split; assumption].
  destruct (listStep_item m st line Hitem Hne) as (pre & parent & rest & Hst & ->).
  unfold LOpen. cbn [ls_heap ls_stack map l_node].
  rewrite Hst, map_app in Ho, Hl. cbn [map] in Ho, Hl.
  apply Open_suffix in Ho; [|discriminate].
  rewrite last_app_nonempty in Hl by discriminate.
  destruct Ho as [(cs & Hp & Hc) Hrest].
  rewrite (kids_alloc_push _ _ _ _ _ _ Hp).
  split.
  - pose proof (Open_push _ _ (map l_node rest) _
                  (conj (ex_intro _ cs (conj Hp Hc)) Hrest) Hp) as H.
    rewrite kids_length in *. exact H.
  - rewrite last_cons_cons. exact Hl.
Qed.

Lemma lsInit_LOpen m title : LOpen (lsInit m title).
Proof.
  unfold LOpen, lsInit. cbn [ls_heap ls_stack map l_node kids o_children newObj].
  split; [|reflexivity].
  split; [|exact I]. exists []. split; [reflexivity|constructor].
Qed.

Lemma fold_listStep_LOpen m title (lines : list jsstring) :
  forall st, LInv title st -> LOpen st ->
             LOpen (fold_left (listStep m) lines st).
Proof.
  induction lines as [|l ls IH]; intros st Hinv Ho; [exact Ho|].
  cbn [fold_left]. apply IH; [apply listStep_LInv, Hinv|].
  apply listStep_LOpen; [apply Hinv|exact Ho].
Qed.

Lemma listRun_Pre m lines :
  Pre (kids (ls_heap (listRun m lines))) 0 (length (ls_heap (listRun m lines))).
Proof.
  unfold listRun. destruct (scanTitle 0 lines) as [title start].
  destruct (fold_listStep_LOpen m title (drop start lines) _
              (lsInit_LInv m title) (lsInit_LOpen m title)) as [Ho Hl].
  rewrite <- kids_length. exact (Open_bottom _ _ _ Ho Hl).
Qed.

(** The texts and ids stored by List Mode, in allocation order. *)
Lemma fold_listStep_texts m title (lines : list jsstring) :
  forall st, LInv title st ->
    map o_text (ls_heap (fold_left (listStep m) lines st))
    = map o_text (ls_heap st) ++ itemTexts lines.
Proof.
  induction lines as [|l ls IH]; intros st Hinv.
  - cbn. rewrite app_nil_r. reflexivity.
  - cbn [fold_left]. rewrite IH by (apply listStep_LInv, Hinv).
    unfold itemTexts. cbn [List.filter].
    destruct (isItemLine l) eqn:Hitem.
    + destruct (listStep_item m st l Hitem) as (pre & parent & rest & _ & ->);
        [apply Hinv|].
      cbn [ls_heap map]. rewrite texts_pushChild, map_app, <- app_assoc.
      reflexivity.
    + rewrite (listStep_skip _ _ _ Hitem). reflexivity.
Qed.

Lemma listRun_texts m lines :
  map o_text (ls_heap (listRun m lines))
  = fst (scanTitle 0 lines) :: itemTexts (drop (snd (scanTitle 0 lines)) lines).
Proof.
  unfold listRun. destruct (scanTitle 0 lines) as [title start]. cbn [fst snd].
  rewrite (fold_listStep_texts m title) by apply lsInit_LInv. reflexivity.
Qed.

Lemma listStep_LIds m st line :
  ls_stack st <> [] -> LIds st -> LIds (listStep m st line).
Proof.
  intros Hne [Hidx Hids].
  destruct (isItemLine line) eqn:Hitem;
    [|rewrite (listStep_skip _ _ _ Hitem); split; assumption].
  destruct (listStep_item m st line Hitem Hne) as (pre & parent & rest & _ & ->).
  unfold LIds. cbn [ls_heap ls_nodeIndex].
  rewrite length_pushChild, length_app. cbn [length].
  split; [lia|].
  intros k o Hk.
  assert (Hid : map o_id (pushChild
                   (ls_heap st ++ [newObj (listId (itemText line)
                        (getIndentWidth line) (ls_nodeIndex st)) (itemText line)
                        (getCollapsed m (listId (itemText line)
                        (getIndentWidth line) (ls_nodeIndex st)))])
                   (l_node parent) (length (ls_heap st))) !! k
                = Some (o_id o))
    by (rewrite lookup_map, Hk; reflexivity).
  rewrite ids_pushChild, map_app in Hid.
  destruct (decide (k < length (ls_heap st))%nat) as [Hlt|Hge].
  - rewrite lookup_app_l in Hid by (rewrite length_map; exact Hlt).
    rewrite lookup_map in Hid.
    destruct (ls_heap st !! k) as [o'|] eqn:Ho'; [|discriminate Hid].
    cbn in Hid. injection Hid as Hid. rewrite <- Hid. exact (Hids k o' Ho').
  - rewrite lookup_app_r in Hid by (rewrite length_map; lia).
    rewrite length_map in Hid.
    destruct (k - length (ls_heap st))%nat as [|j] eqn:Hj;
      [|destruct j; discriminate Hid].
    cbn in Hid. injection Hid as Hid.
    assert (k = S (ls_nodeIndex st)) as -> by lia.
    eexists _, _. symmetry. exact Hid.
Qed.

Lemma lsInit_LIds m title : LIds (lsInit m title).
Proof.
  unfold LIds, lsInit. cbn [ls_heap ls_nodeIndex length].
  split; [reflexivity|].
  intros k o Hk. destruct k as [|k]; [|destruct k; discriminate Hk].
  injection Hk as <-. reflexivity.
Qed.

Lemma fold_listStep_LIds m title (lines : list jsstring) :
  forall st, LInv title st -> LIds st -> LIds (fold_left (listStep m) lines st).
Proof.
  induction lines as [|l ls IH]; intros st Hinv Hi; [exact Hi|].
  cbn [fold_left]. apply IH; [apply listStep_LInv, Hinv|].
  apply listStep_LIds; [apply Hinv|exact Hi].
Qed.

Lemma listRun_LIds m lines : LIds (listRun m lines).
Proof.
  unfold listRun. destruct (scanTitle 0 lines) as [title start].
  apply (fold_listStep_LIds m title); [apply lsInit_LInv|apply lsInit_LIds].
Qed.

(** *** Ids with different counters differ *)

Lemma digits_are_digits d : forallb isDigit (digits d) = true.
Proof. induction d; cbn [digits forallb]; rewrite ?IHd; reflexivity. Qed.

Lemma digits_inj d d' : digits d = digits d' -> d = d'.
Proof.
  revert d'. induction d; intros d' H; destruct d'; cbn [digits] in H;
    try discriminate H; try reflexivity;
    injection H as H; f_equal; apply IHd, H.
Qed.

Lemma natToString_inj a b : natToString a = natToString b -> a = b.
Proof.
  unfold natToString. intros H. apply digits_inj in H.
  rewrite <- (DecimalNat.Unsigned.of_to a), <- (DecimalNat.Unsigned.of_to b), H.
  reflexivity.
Qed.

(** A run of digits ends at the first dash. *)
Lemma digits_then_dash (ds ds' r r' : jsstring) :
  forallb isDigit ds = true -> forallb isDigit ds' = true ->
  ds ++ DASH :: r = ds' ++ DASH :: r' -> ds = ds' /\ r = r'.
Proof.
  revert ds'. induction ds as [|c ds IH]; intros ds' Hd Hd' H.
  - destruct ds' as [|c' ds']; cbn in H.
    + injection H as ->. auto.
    + injection H as <- _. cbn in Hd'. discriminate Hd'.
  - destruct ds' as [|c' ds']; cbn in H.
    + injection H as -> _. cbn in Hd. discriminate Hd.
    + injection H as <- H. cbn in Hd, Hd'.
      apply andb_true_iff in Hd as [_ Hd]. apply andb_true_iff in Hd' as [_ Hd'].
      destruct (IH ds' Hd Hd' H) as [-> ->]. auto.
Qed.

Lemma numbered_id_inj (prefix : jsstring) a i r a' i' r' :
  prefix ++ natToString a ++ lit "-" ++ natToString i ++ lit "-" ++ r
  = prefix ++ natToString a' ++ lit "-" ++ natToString i' ++ lit "-" ++ r' ->
  i = i'.
Proof.
  intros H. apply app_inv_head in H.
  change (lit "-") with [DASH] in H. cbn [app] in H.
  apply digits_then_dash in H as [_ H]; try apply digits_are_digits.
  apply digits_then_dash in H as [H _]; try apply digits_are_digits.
  apply natToString_inj, H.
Qed.

Lemma listId_inj t a i t' a' i' : listId t a i = listId t' a' i' -> i = i'.
Proof. apply numbered_id_inj. Qed.

Lemma headingId_inj t a i t' a' i' : headingId t a i = headingId t' a' i' -> i = i'.
Proof. apply numbered_id_inj. Qed.

Lemma listId_not_root t a i : listId t a i <> lit "root".
Proof. unfold listId. intros H. discriminate H. Qed.

Lemma NoDup_map_by_index {A B : Type} (f : A -> B) (l : list A) :
  (forall i j x y, l !! i = Some x -> l !! j = Some y -> f x = f y -> i = j) ->
  NoDup (map f l).
Proof.
  intros H. apply NoDup_alt. intros i j b Hi Hj.
  rewrite lookup_map in Hi, Hj.
  destruct (l !! i) as [x|] eqn:Hx; [|discriminate Hi].
  destruct (l !! j) as [y|] eqn:Hy; [|discriminate Hj].
  cbn in Hi, Hj. injection Hi as Hi. injection Hj as Hj.
  apply (H i j x y Hx Hy). congruence.
Qed.

Lemma LIds_NoDup st : LIds st -> NoDup (map o_id (ls_heap st)).
Proof.
  intros [_ Hids]. apply NoDup_map_by_index. intros i j x y Hx Hy Hxy.
  pose proof (Hids i x Hx) as Hi. pose proof (Hids j y Hy) as Hj.
  destruct i as [|i], j as [|j]; try reflexivity.
  - destruct Hj as (t & a & Hj). rewrite Hi, Hj in Hxy.
    symmetry in Hxy. destruct (listId_not_root _ _ _ Hxy).
  - destruct Hi as (t & a & Hi). rewrite Hi, Hj in Hxy.
    destruct (listId_not_root _ _ _ Hxy).
  - destruct Hi as (t & a & Hi). destruct Hj as (t' & a' & Hj).
    rewrite Hi, Hj in Hxy. f_equal. exact (listId_inj _ _ _ _ _ _ Hxy).
Qed.

Lemma HIds_NoDup st : HIds st -> NoDup (map o_id (hs_heap st)).
Proof.
  intros [_ Hids]. apply NoDup_map_by_index. intros i j x y Hx Hy Hxy.
  destruct (Hids i x Hx) as (t & a & Hi).
  destruct (Hids j y Hy) as (t' & a' & Hj).
  rewrite Hi, Hj in Hxy. exact (headingId_inj _ _ _ _ _ _ Hxy).
Qed.

(** *** Heading Mode *)

Lemma popLevels_suffix level stack :
  exists pre, stack = pre ++ popLevels level stack.
Proof.
  induction stack as [|e rest IH]; [exists []; reflexivity|].
  cbn [popLevels]. destruct (level <=? h_level e)%nat; [|exists []; reflexivity].
  destruct IH as [pre Hpre]. exists (e :: pre). cbn [app]. f_equal. exact Hpre.
Qed.

Lemma hpath_cons e e' rest :
  hpath (e :: e' :: rest) = h_node e :: hpath (e' :: rest).
Proof.
  unfold hpath. cbn [map]. rewrite last_cons_cons.
  destruct (last (h_node e' :: map h_node rest)) as [[|k]|]; reflexivity.
Qed.

Lemma hpath_ends_at_root stack : exists pre, hpath stack = pre ++ [0%nat].
Proof.
  unfold hpath. destruct (last (map h_node stack)) as [[|k]|] eqn:E; eauto.
  apply last_Some in E. exact E.
Qed.

Lemma hpath_last stack : last (hpath stack) = Some 0%nat.
Proof.
  destruct (hpath_ends_at_root stack) as [pre ->]. apply last_snoc.
Qed.

Lemma hpath_suffix pre s :
  s <> [] -> hpath (pre ++ s) = map h_node pre ++ hpath s.
Proof.
  intros Hs. unfold hpath. rewrite map_app.
  rewrite last_app_nonempty by (destruct s; [congruence|discriminate]).
  destruct (last (map h_node s)) as [[|k]|]; rewrite ?app_assoc; reflexivity.
Qed.

Lemma flushNote_HOpen st : HOpen st -> HOpen (flushNote st).
Proof.
  destruct st as [h root stack cur notes index].
  unfold flushNote, HOpen.
  cbn [hs_heap hs_root hs_stack hs_currentNode hs_noteLines hs_nodeIndex].
  destruct cur as [cur|]; [|tauto].
  destruct notes as [|n ns]; [tauto|].
  cbn [hs_heap hs_root hs_stack hs_currentNode hs_noteLines hs_nodeIndex].
  destruct root as [r|].
  - rewrite kids_setNote. tauto.
  - intros [-> ->]. split; reflexivity.
Qed.

Lemma headingStep_HOpen m st line : HOpen st -> HOpen (headingStep m st line).
Proof.
  intros Ho. unfold headingStep.
  destruct (matchHeading (trim line)) as [[level captured]|].
  - apply flushNote_HOpen in Ho.
    destruct (flushNote st) as [h root stack cur notes index].
    unfold HOpen in *.
    cbn [hs_heap hs_root hs_stack hs_currentNode hs_noteLines hs_nodeIndex] in *.
    set (new := newObj _ _ _).
    destruct root as [r|].
    + destruct Ho as [-> Ho]. split; [reflexivity|].
      destruct (popLevels_suffix level stack) as [pre Hpre].
      destruct (popLevels level stack) as [|parent rest] eqn:Epop.
      * (* the stack is emptied: the new node hangs under the root *)
        destruct (hpath_ends_at_root stack) as [pre' Hp']. rewrite Hp' in Ho.
        apply Open_suffix in Ho; [|discriminate].
        pose proof Ho as [(cs & Hcs & _) _].
        assert (Hn : length h <> 0%nat)
          by (apply lookup_lt_Some in Hcs; rewrite kids_length in Hcs; lia).
        pose proof (Open_push _ _ _ _ Ho Hcs) as H.
        cbn [hs_heap hs_stack]. subst new.
        rewrite (kids_alloc_push _ _ _ _ _ _ Hcs).
        rewrite kids_length in *.
        unfold hpath. cbn [map h_node last].
        destruct (length h) as [|n]; [congruence|exact H].
      * rewrite Hpre, hpath_suffix in Ho by discriminate.
        apply Open_suffix in Ho;
          [|destruct (hpath_ends_at_root (parent :: rest)) as [q ->];
            destruct q; discriminate].
        assert (Hhd : exists tl, hpath (parent :: rest) = h_node parent :: tl).
        { destruct rest as [|e' rest']; [|rewrite hpath_cons; eauto].
          unfold hpath. cbn [map last].
          destruct (h_node parent) as [|k]; eauto. }
        destruct Hhd as [tl Htl]. rewrite Htl in Ho.
        pose proof Ho as [(cs & Hcs & _) _].
        pose proof (Open_push _ _ _ _ Ho Hcs) as H.
        cbn [hs_heap hs_stack]. subst new.
        rewrite (kids_alloc_push _ _ _ _ _ _ Hcs).
        rewrite kids_length in *. rewrite hpath_cons, Htl. exact H.
    + destruct Ho as [-> ->]. cbn [length app hs_heap hs_stack hs_root].
      split; [reflexivity|].
      unfold hpath, new, newObj.
      cbn [map h_node last kids o_children length].
      split; [|exact I]. exists []. split; [reflexivity|constructor].
  - destruct (truthy (trim line)); [|exact Ho].
    destruct st as [h root stack cur notes index]. exact Ho.
Qed.

Lemma hsInit_HOpen : HOpen hsInit.
Proof. split; reflexivity. Qed.

Lemma fold_headingStep_HOpen m (lines : list jsstring) :
  forall st, HOpen st -> HOpen (fold_left (headingStep m) lines st).
Proof.
  induction lines as [|l ls IH]; intros st Hst; [exact Hst|].
  cbn [fold_left]. apply IH, headingStep_HOpen, Hst.
Qed.

Lemma headingRun_HOpen m lines : HOpen (headingRun m lines).
Proof.
  unfold headingRun. apply flushNote_HOpen, fold_headingStep_HOpen, hsInit_HOpen.
Qed.

Lemma flushNote_texts st :
  map o_text (hs_heap (flushNote st)) = map o_text (hs_heap st)
  /\ map o_id (hs_heap (flushNote st)) = map o_id (hs_heap st)
  /\ length (hs_heap (flushNote st)) = length (hs_heap st)
  /\ hs_nodeIndex (flushNote st) = hs_nodeIndex st.
Proof.
  destruct st as [h root stack cur notes index].
  unfold flushNote.
  cbn [hs_heap hs_root hs_stack hs_currentNode hs_noteLines hs_nodeIndex].
  destruct cur as [cur|]; [|auto].
  destruct notes as [|n ns]; [auto|].
  cbn [hs_heap hs_nodeIndex].
  rewrite texts_setNote, ids_setNote, length_setNote. auto.
Qed.

(** What a heading line adds to the heap: one object, with the heading's
    text and an id made from the counter. *)
Lemma headingStep_heap m st line :
  let st' := headingStep m st line in
  match matchHeading (trim line) with
  | Some (level, captured) =>
      map o_text (hs_heap st') = map o_text (hs_heap st) ++ [trim captured]
      /\ map o_id (hs_heap st')
         = map o_id (hs_heap st)
           ++ [headingId (trim captured) level (hs_nodeIndex st)]
      /\ hs_nodeIndex st' = S (hs_nodeIndex st)
  | None =>
      hs_heap st' = hs_heap st /\ hs_nodeIndex st' = hs_nodeIndex st
  end.
Proof.
  cbv zeta. unfold headingStep.
  destruct (matchHeading (trim line)) as [[level captured]|].
  - destruct (flushNote_texts st) as (Ht & Hi & _ & Hx).
    destruct (flushNote st) as [h root stack cur notes index].
    cbn [hs_heap hs_root hs_stack hs_currentNode hs_noteLines hs_nodeIndex] in *.
    rewrite <- Ht, <- Hi, <- Hx.
    destruct root as [r|];
      cbn [hs_heap hs_root hs_stack hs_currentNode hs_noteLines hs_nodeIndex].
    + destruct (popLevels level stack) as [|parent rest];
        rewrite texts_pushChild, ids_pushChild, !map_app; auto.
    + rewrite !map_app. auto.
  - destruct (truthy (trim line)); [|auto].
    destruct st; auto.
Qed.

Lemma fold_headingStep_texts m (lines : list jsstring) :
  forall st,
    map o_text (hs_heap (fold_left (headingStep m) lines st))
    = map o_text (hs_heap st) ++ headingTexts lines.
Proof.
  induction lines as [|l ls IH]; intros st.
  - cbn. rewrite app_nil_r. reflexivity.
  - cbn [fold_left]. rewrite IH.
    pose proof (headingStep_heap m st l) as H. cbv zeta in H.
    unfold headingTexts, headingText. cbn [omap list_omap].
    destruct (matchHeading (trim l)) as [[level captured]|].
    + destruct H as (-> & _). rewrite <- app_assoc. reflexivity.
    + destruct H as (-> & _). reflexivity.
Qed.

Lemma headingRun_texts m lines :
  map o_text (hs_heap (headingRun m lines)) = headingTexts lines.
Proof.
  unfold headingRun.
  destruct (flushNote_texts (fold_left (headingStep m) lines hsInit)) as (-> & _).
  apply fold_headingStep_texts.
Qed.

Lemma headingStep_HIds m st line : HIds st -> HIds (headingStep m st line).
Proof.
  intros [Hidx Hids].
  pose proof (headingStep_heap m st line) as H. cbv zeta in H.
  destruct (matchHeading (trim line)) as [[level captured]|].
  - destruct H as (_ & Hi & Hx). unfold HIds.
    assert (Hlen : length (hs_heap (headingStep m st line))
                   = S (length (hs_heap st))).
    { rewrite <- (length_map o_id), Hi, length_app, length_map. cbn. lia. }
    split; [lia|].
    intros k o Hk.
    assert (Hko : map o_id (hs_heap (headingStep m st line)) !! k = Some (o_id o))
      by (rewrite lookup_map, Hk; reflexivity).
    rewrite Hi in Hko.
    destruct (decide (k < length (hs_heap st))%nat) as [Hlt|Hge].
    + rewrite lookup_app_l in Hko by (rewrite length_map; exact Hlt).
      rewrite lookup_map in Hko.
      destruct (hs_heap st !! k) as [o'|] eqn:Ho'; [|discriminate Hko].
      cbn in Hko. injection Hko as Hko. rewrite <- Hko. exact (Hids k o' Ho').
    + apply lookup_lt_Some in Hk. rewrite Hlen in Hk.
      rewrite lookup_app_r in Hko by (rewrite length_map; lia).
      rewrite length_map in Hko.
      replace (k - length (hs_heap st))%nat with 0%nat in Hko by lia.
      cbn in Hko. injection Hko as Hko.
      assert (k = hs_nodeIndex st) as -> by lia.
      eexists _, _. symmetry. exact Hko.
  - destruct H as (Hh & Hx). unfold HIds. rewrite Hh, Hx. split; assumption.
Qed.

Lemma headingRun_HIds m lines : HIds (headingRun m lines).
Proof.
  unfold headingRun.
  assert (H : forall ls st, HIds st -> HIds (fold_left (headingStep m) ls st)).
  { induction ls as [|l ls IH]; intros st Hst; [exact Hst|].
    cbn [fold_left]. apply IH, headingStep_HIds, Hst. }
  specialize (H lines hsInit).
  destruct (flushNote_texts (fold_left (headingStep m) lines hsInit))
    as (_ & Hi & Hl & Hx).
  destruct H as [Hidx Hids].
  { split; [reflexivity|]. intros k o Hk. destruct k; discriminate Hk. }
  split; [rewrite Hx, Hl; exact Hidx|].
  intros k o Hk.
  assert (Hko : map o_id (hs_heap (flushNote (fold_left (headingStep m) lines hsInit)))
                !! k = Some (o_id o))
    by (rewrite lookup_map, Hk; reflexivity).
  rewrite Hi, lookup_map in Hko.
  destruct (hs_heap (fold_left (headingStep m) lines hsInit) !! k) as [o'|] eqn:Ho';
    [|discriminate Hko].
  cbn in Hko. injection Hko as Hko. rewrite <- Hko. exact (Hids k o' Ho').
Qed.

(** *** From the heap to the tree *)

Lemma nodes_unfold t : nodes t = t :: flat_map nodes (children t).
Proof. destruct t; reflexivity. Qed.

Lemma take_drop_join {A : Type} (l : list A) (s e' e : nat) :
  (s <= e')%nat -> (e' <= e)%nat ->
  take (e' - s) (drop s l) ++ take (e - e') (drop e' l) = take (e - s) (drop s l).
Proof.
  intros H1 H2.
  replace (drop e' l) with (drop (e' - s) (drop s l))
    by (rewrite drop_drop; f_equal; lia).
  rewrite take_take_drop. f_equal. lia.
Qed.

Lemma snapshotFrom_fields (cells : Heap) :
  forall base,
    map id (snapshotFrom base cells) = map o_id cells
    /\ map text (snapshotFrom base cells) = map o_text cells
    /\ map collapsed (snapshotFrom base cells) = map o_collapsed cells
    /\ map note (snapshotFrom base cells) = map o_note cells.
Proof.
  induction cells as [|o cells IH]; intros base; [auto|].
  destruct (IH (S base)) as (H1 & H2 & H3 & H4).
  cbn [snapshotFrom map id text collapsed note].
  rewrite H1, H2, H3, H4. auto.
Qed.

(** The traversal of the tree read at [i] is the run of trees read at
    [i], [i+1], ..., [e-1]. *)
Lemma Pre_nodes (h : Heap) :
  forward h ->
  (forall i e, Pre (kids h) i e ->
     forall t, snapshotFrom 0 h !! i = Some t ->
               nodes t = take (e - i) (drop i (snapshotFrom 0 h)))
  /\ (forall s cs e, Chain (kids h) s cs e ->
        forall ts, Forall2 (fun c t => snapshotFrom 0 h !! c = Some t) cs ts ->
                   flat_map nodes ts = take (e - s) (drop s (snapshotFrom 0 h))).
Proof.
  intros Hf. apply Pre_Chain_ind.
  - intros i e cs Hi Hc IH t Ht.
    apply kids_lookup in Hi as (o & Ho & <-).
    destruct (snapshot_faithful h i o Hf Ho) as (t' & Ht' & _ & _ & _ & _ & Hcs).
    unfold snapshot in Ht', Hcs. rewrite Ht in Ht'. injection Ht' as <-.
    pose proof (Chain_le _ _ _ _ Hc) as Hle.
    rewrite nodes_unfold, (IH _ Hcs), (drop_S _ _ _ Ht).
    replace (e - i)%nat with (S (e - S i)) by lia. reflexivity.
  - intros s ts Hts. inversion Hts; subst.
    rewrite Nat.sub_diag. reflexivity.
  - intros s cs e' e Hp IHp Hc IHc ts Hts.
    inversion Hts as [|? t ? ts' Ht Hts']; subst.
    cbn [flat_map]. rewrite (IHp _ Ht), (IHc _ Hts').
    apply take_drop_join; [apply Pre_lt in Hp; lia|exact (Chain_le _ _ _ _ Hc)].
Qed.

Lemma Pre_to_end_nodes (h : Heap) (i : nat) :
  forward h -> Pre (kids h) i (length h) ->
  exists t, snapshot h (Some i) = Some t
            /\ nodes t = drop i (snapshotFrom 0 h).
Proof.
  intros Hf Hp.
  pose proof (Pre_lt _ _ _ Hp) as Hlt.
  destruct (snapshot_allocated h i Hlt) as [t Ht].
  exists t. split; [exact Ht|].
  rewrite (proj1 (Pre_nodes h Hf) _ _ Hp t Ht).
  apply take_ge. rewrite length_drop, snapshotFrom_length. lia.
Qed.

(** The result of List Mode, as a range of the heap: everything, or
    everything but the synthetic root. *)
Lemma parseListMode_range m lines :
  exists i t,
    (i = 0%nat \/ (i = 1%nat /\ fst (scanTitle 0 lines) = lit "Root"))
    /\ parseListMode m lines = Some t
    /\ nodes t = drop i (snapshotFrom 0 (ls_heap (listRun m lines))).
Proof.
  pose proof (listRun_Pre m lines) as Hp.
  destruct (listRun_LInv m lines) as (Hf & _ & _ & root & Hroot & _).
  unfold parseListMode, parseListModeRef. rewrite Hroot.
  set (h := ls_heap (listRun m lines)) in *.
  assert (Hkept : exists t, snapshot h (Some 0%nat) = Some t
                            /\ nodes t = drop 0 (snapshotFrom 0 h))
    by (apply Pre_to_end_nodes; assumption).
  destruct Hkept as (t0 & Ht0 & Hn0).
  assert (Hkept : exists i t,
             (i = 0%nat \/ (i = 1%nat /\ fst (scanTitle 0 lines) = lit "Root"))
             /\ snapshot h (Some 0%nat) = Some t
             /\ nodes t = drop i (snapshotFrom 0 h)).
  { exists 0%nat, t0. split; [left; reflexivity|]. split; assumption. }
  destruct (o_children root) as [|only [|other more]] eqn:Hcs;
    [exact Hkept| |exact Hkept].
  unfold streq. case_bool_decide as Htitle; [|exact Hkept].
  inversion Hp as [? ? cs Hk Hc]; subst.
  apply kids_lookup in Hk as (o & Ho & <-).
  rewrite Hroot in Ho. injection Ho as <-. rewrite Hcs in Hc.
  inversion Hc as [|? ? e' ? Hp1 Hc1]; subst.
  inversion Hc1; subst.
  destruct (Pre_to_end_nodes h 1 Hf Hp1) as (t1 & Ht1 & Hn1).
  exists 1%nat, t1. split; [right; split; [reflexivity|exact Htitle]|].
  split; assumption.
Qed.

(** The result of Heading Mode: [null] on an empty heap, the whole heap
    otherwise. *)
Lemma parseHeadingsMode_range m lines :
  (hs_heap (headingRun m lines) = [] /\ parseHeadingsMode m lines = None)
  \/ (exists t, parseHeadingsMode m lines = Some t
                /\ nodes t = snapshotFrom 0 (hs_heap (headingRun m lines))).
Proof.
  pose proof (headingRun_HOpen m lines) as Ho.
  destruct (parseHeadingsMode_forward m lines) as (Hf & _).
  unfold parseHeadingsMode, parseHeadingsModeRef in *. cbn [fst snd] in Hf.
  unfold HOpen in Ho.
  destruct (hs_root (headingRun m lines)) as [r|].
  - right. destruct Ho as [-> Ho].
    pose proof (Open_bottom _ _ _ Ho (hpath_last (hs_stack (headingRun m lines)))) as Hp.
    rewrite kids_length in Hp.
    exact (Pre_to_end_nodes _ 0 Hf Hp).
  - left. destruct Ho as [Hh _]. auto.
Qed.

End PreorderFacts.

(* ================================================================== *)
(** ** Parse results: order, completeness, unique ids, null *)
(* ================================================================== *)

Module OrderFacts.
Import JsString Tree Parser Vocabulary Preorder TreeFacts StoreFacts HeapFacts
       PreorderFacts.

Lemma map_drop {A B : Type} (f : A -> B) (n : nat) (l : list A) :
  map f (drop n l) = drop n (map f l).
Proof. symmetry. apply skipn_map. Qed.

Lemma parseListMode_texts m lines :
  exists i t,
    (i = 0%nat \/ (i = 1%nat /\ fst (scanTitle 0 lines) = lit "Root"))
    /\ parseListMode m lines = Some t
    /\ map text (nodes t)
       = drop i (fst (scanTitle 0 lines)
                 :: itemTexts (drop (snd (scanTitle 0 lines)) lines))
    /\ NoDup (ids t).
Proof.
  destruct (parseListMode_range m lines) as (i & t & Hi & Ht & Hn).
  exists i, t. split; [exact Hi|]. split; [exact Ht|].
  destruct (snapshotFrom_fields (ls_heap (listRun m lines)) 0) as (Hid & Htx & _).
  unfold ids. rewrite Hn, !map_drop, Hid, Htx, listRun_texts.
  split; [reflexivity|].
  eapply sublist_NoDup; [|apply sublist_drop].
  apply LIds_NoDup, listRun_LIds.
Qed.

Lemma parseHeadingsMode_texts m lines :
  (headingTexts lines = [] /\ parseHeadingsMode m lines = None)
  \/ (exists t, parseHeadingsMode m lines = Some t
                /\ map text (nodes t) = headingTexts lines
                /\ NoDup (ids t)).
Proof.
  destruct (snapshotFrom_fields (hs_heap (headingRun m lines)) 0) as (Hid & Htx & _).
  destruct (parseHeadingsMode_range m lines) as [[Hh Hnone]|(t & Ht & Hn)].
  - left. split; [|exact Hnone].
    rewrite <- headingRun_texts with (m := m), Hh. reflexivity.
  - right. exists t. split; [exact Ht|].
    unfold ids. rewrite Hn, Hid, Htx, headingRun_texts.
    split; [reflexivity|]. apply HIds_NoDup, headingRun_HIds.
Qed.

Lemma parse_ids_NoDup m text t :
  parseMarkdownList m text = Some t -> NoDup (ids t).
Proof.
  unfold parseMarkdownList.
  destruct (length (split text) =? 0)%nat; [discriminate|].
  assert (Hh : parseHeadingsMode m (split text) = Some t -> NoDup (ids t)).
  { destruct (parseHeadingsMode_texts m (split text))
      as [[_ ->]|(t' & -> & _ & Hnd)]; [discriminate|].
    intros [= <-]. exact Hnd. }
  destruct (hasMultiLevelHeadings (split text)); [exact Hh|].
  destruct (hasHeadings (split text) && negb (hasListItems (split text)));
    [exact Hh|].
  destruct (parseListMode_texts m (split text)) as (i & t' & _ & -> & _ & Hnd).
  intros [= <-]. exact Hnd.
Qed.

(** X1. List Mode loses no line and keeps the source order: the labels of
    the result, in traversal order, are the labels of the lines that are
    neither blank nor start with a hash (after the title line, if there is
    one), in the order of the lines; the root title comes first unless the
    synthetic root was dropped. *)
Theorem list_mode_keeps_every_item_in_order (m : Store) (lines : list jsstring) :
  let title := fst (scanTitle 0 lines) in
  let items := itemTexts (drop (snd (scanTitle 0 lines)) lines) in
  exists t,
    parseListMode m lines = Some t
    /\ (map text (nodes t) = title :: items
        \/ (title = lit "Root" /\ map text (nodes t) = items)).
Proof.
  cbv zeta.
  destruct (parseListMode_texts m lines) as (i & t & Hi & Ht & Htx & _).
  exists t. split; [exact Ht|].
  destruct Hi as [->|[-> Htitle]]; [left|right; split; [exact Htitle|]];
    exact Htx.
Qed.

(** X2. Heading Mode loses no heading and keeps the source order: the result
    is [null] exactly when no line matches the heading pattern; otherwise
    the labels of the result, in traversal order, are the heading texts in
    the order of the lines, so the root is the first heading whatever its
    level. *)
Theorem heading_mode_keeps_every_heading_in_order
        (m : Store) (lines : list jsstring) :
  (parseHeadingsMode m lines = None <-> headingTexts lines = [])
  /\ (forall t, parseHeadingsMode m lines = Some t ->
                map text (nodes t) = headingTexts lines
                /\ head (headingTexts lines) = Some (text t)).
Proof.
  destruct (parseHeadingsMode_texts m lines)
    as [[Hnil Hnone]|(t & Ht & Htx & _)].
  - split; [tauto|]. rewrite Hnone. discriminate.
  - split.
    + rewrite Ht, <- Htx, nodes_unfold. split; discriminate.
    + intros t' Ht'. rewrite Ht in Ht'. injection Ht' as <-.
      split; [exact Htx|]. rewrite <- Htx, nodes_unfold. reflexivity.
Qed.

(** X3. The ids of one parse result are pairwise distinct: every id carries
    the value of the per-call counter, which no two nodes share. *)
Theorem parse_result_ids_unique (m : Store) (text : jsstring) (t : MindMapNode) :
  parseMarkdownList m text = Some t -> NoDup (ids t).
Proof. apply parse_ids_NoDup. Qed.

Lemma parse_result_ids_unique_witness :
  let text := lit "- A" ++ [NEWLINE] ++ lit "  - A" in
  let t := mkNode (lit "list-0-0-A") (lit "A")
                  [mkNode (lit "list-2-1-A") (lit "A") [] false None]
                  false None in
  parseMarkdownList ∅ text = Some t /\ NoDup (ids t).
Proof.
  cbv zeta.
  assert (H : parseMarkdownList ∅ (lit "- A" ++ [NEWLINE] ++ lit "  - A")
              = Some (mkNode (lit "list-0-0-A") (lit "A")
                        [mkNode (lit "list-2-1-A") (lit "A") [] false None]
                        false None))
    by (vm_compute; reflexivity).
  split; [exact H|exact (parse_result_ids_unique _ _ _ H)].
Defined.

(** X4. [parseMarkdownList] returns [null] in one situation only: Heading
    Mode was selected and no line, once trimmed, matches the heading
    pattern.  List Mode never returns [null]. *)
Theorem parse_null_iff (m : Store) (text : jsstring) :
  parseMarkdownList m text = None
  <-> (hasMultiLevelHeadings (split text)
       || hasHeadings (split text) && negb (hasListItems (split text))) = true
      /\ headingTexts (split text) = [].
Proof.
  unfold parseMarkdownList.
  destruct (split text) as [|l0 ls] eqn:Hs; [destruct (LineFacts.split_nonempty _ Hs)|].
  cbn [length Nat.eqb].
  assert (Hh : parseHeadingsMode m (l0 :: ls) = None
               <-> headingTexts (l0 :: ls) = []).
  { destruct (parseHeadingsMode_texts m (l0 :: ls))
      as [[Hnil Hnone]|(t & Ht & Htx & _)]; [tauto|].
    rewrite Ht, <- Htx, nodes_unfold. split; discriminate. }
  destruct (hasMultiLevelHeadings (l0 :: ls)); cbn [orb]; [tauto|].
  destruct (hasHeadings (l0 :: ls) && negb (hasListItems (l0 :: ls)));
    [tauto|].
  destruct (parseListMode_returns m (l0 :: ls)) as [t ->].
  split; [discriminate|intros [H _]; discriminate H].
Qed.

End OrderFacts.

(* ================================================================== *)
(** ** The store and the buttons *)
(* ================================================================== *)

Module ButtonFacts.
Import JsString Tree Parser Session Renderer Drawing Controls Vocabulary
       ButtonVocabulary TreeFacts StoreFacts SessionFacts OrderFacts.

Lemma retagTree_agree (f : jsstring -> bool) (g : MindMapNode -> bool) t :
  (forall n, In n (nodes t) -> f (id n) = g n) -> retagTree f t = reflag g t.
Proof.
  induction t as [i tx cs c n IH] using MindMapNode_ind'. intros H.
  assert (H0 : f i = g (mkNode i tx cs c n))
    by (apply (H (mkNode i tx cs c n)); left; reflexivity).
  cbn [retagTree reflag id text children note]. rewrite H0.
  f_equal. apply map_ext_in. intros k Hk.
  rewrite Forall_forall in IH. apply IH; [apply list_elem_of_In, Hk|].
  intros n' Hn'. apply H. right. apply in_flat_map. eauto.
Qed.

Lemma reflag_collapsed t : reflag collapsed t = t.
Proof.
  induction t as [i tx cs c n IH] using MindMapNode_ind'.
  cbn [reflag id text children note collapsed]. f_equal.
  rewrite <- (map_id cs) at 2. apply map_ext_in. intros k Hk.
  rewrite Forall_forall in IH. apply IH, list_elem_of_In, Hk.
Qed.

Lemma retagTree_retagTree f g t : retagTree f (retagTree g t) = retagTree f t.
Proof.
  induction t as [i tx cs c n IH] using MindMapNode_ind'.
  cbn [retagTree id text children note]. f_equal.
  rewrite map_map. apply map_ext_in. intros k Hk.
  rewrite Forall_forall in IH. apply IH, list_elem_of_In, Hk.
Qed.

Lemma retagTree_reflag f g t : retagTree f (reflag g t) = retagTree f t.
Proof.
  induction t as [i tx cs c n IH] using MindMapNode_ind'.
  cbn [retagTree reflag id text children note]. f_equal.
  rewrite map_map. apply map_ext_in. intros k Hk.
  rewrite Forall_forall in IH. apply IH, list_elem_of_In, Hk.
Qed.

(** A parse result is its own re-flagging from the store it was parsed
    under. *)
Lemma parse_fixed_by_retag m text t :
  parseMarkdownList m text = Some t -> retagTree (getCollapsed m) t = t.
Proof.
  intros Ht. rewrite <- (reflag_collapsed t) at 2.
  apply retagTree_agree. intros n Hn. symmetry.
  exact (flags_from_store _ _ _ _ Ht Hn).
Qed.

Lemma reparse m m' text t :
  parseMarkdownList m text = Some t ->
  parseMarkdownList m' text = Some (retagTree (getCollapsed m') t).
Proof.
  intros Ht. rewrite (parseMarkdownList_retag m' m), Ht. reflexivity.
Qed.

(** X5. The store decides nothing but the flags: the same text parsed under
    two stores gives trees with the same skeleton (ids, labels, notes,
    shape), and each result is the other with every flag looked up again,
    an id absent from the store giving [false]. *)
Theorem store_only_decides_flags (m m' : Store) (text : jsstring) :
  option_map skeleton (parseMarkdownList m text)
  = option_map skeleton (parseMarkdownList m' text)
  /\ parseMarkdownList m text
     = option_map (retagTree (fun i => default false (m !! i)))
                  (parseMarkdownList m' text).
Proof.
  assert (Hg : forall t, retagTree (getCollapsed m) t
                         = retagTree (fun i => default false (m !! i)) t).
  { intros t. rewrite (retagTree_agree (getCollapsed m)
                         (fun n => default false (m !! id n)) t),
                      (retagTree_agree (fun i => default false (m !! i))
                         (fun n => default false (m !! id n)) t); auto.
    intros n _. unfold getCollapsed. destruct (m !! id n) as [[|]|]; reflexivity. }
  rewrite (parseMarkdownList_retag m m').
  destruct (parseMarkdownList m' text) as [t|]; [|auto].
  cbn [option_map]. unfold skeleton. rewrite retagTree_retagTree, Hg. auto.
Qed.

(** X6. Entries of the store under ids that do not occur in the result are
    ignored: writing such an entry leaves the parse result as it was. *)
Theorem stale_entry_ignored
        (m : Store) (text : jsstring) (i : jsstring) (b : bool) :
  (forall t, parseMarkdownList m text = Some t -> ~ In i (ids t)) ->
  parseMarkdownList (setCollapsedState i b m) text = parseMarkdownList m text.
Proof.
  intros Hfresh.
  destruct (parseMarkdownList m text) as [t|] eqn:Ht.
  - rewrite (reparse m _ text t Ht). f_equal.
    rewrite <- (parse_fixed_by_retag m text t Ht) at 2.
    rewrite (retagTree_agree _ (fun n => getCollapsed m (id n)) t),
            (retagTree_agree (getCollapsed m) (fun n => getCollapsed m (id n)) t);
      auto.
    intros n Hn. unfold getCollapsed, setCollapsedState.
    rewrite lookup_insert_ne; [reflexivity|].
    intros ->. apply (Hfresh t eq_refl). unfold ids. apply in_map, Hn.
  - rewrite (parseMarkdownList_retag _ m), Ht. reflexivity.
Qed.

Lemma stale_entry_ignored_witness :
  let text := lit "- A" ++ [NEWLINE] ++ lit "- B" in
  (forall t, parseMarkdownList ∅ text = Some t -> ~ In (lit "list-0-7-gone") (ids t))
  /\ parseMarkdownList (setCollapsedState (lit "list-0-7-gone") true ∅) text
     = parseMarkdownList ∅ text.
Proof.
  cbv zeta.
  assert (H : forall t,
             parseMarkdownList ∅ (lit "- A" ++ [NEWLINE] ++ lit "- B") = Some t ->
             ~ In (lit "list-0-7-gone") (ids t)).
  { intros t Ht. vm_compute in Ht. injection Ht as <-.
    intros Hin. vm_compute in Hin.
    destruct Hin as [Hin|[Hin|[Hin|[]]]]; discriminate Hin. }
  split; [exact H|].
  exact (stale_entry_ignored ∅ _ (lit "list-0-7-gone") true H).
Defined.

(** *** Expand all and Collapse all *)

Lemma setCollapsedStateRec_unfold c node m :
  setCollapsedStateRec c node m
  = if hasChildren node then
      let '(cs, m2) :=
        (fix loop (cs : list MindMapNode) (m : Store)
           : list MindMapNode * Store :=
           match cs with
           | [] => ([], m)
           | child :: rest =>
               let '(child', m') := setCollapsedStateRec c child m in
               let '(rest', m'') := loop rest m' in
               (child' :: rest', m'')
           end) (children node) (setCollapsedState (id node) c m) in
      (mkNode (id node) (text node) cs c (note node), m2)
    else (node, m).
Proof. destruct node; reflexivity. Qed.

Lemma hasChildren_false node : hasChildren node = false -> children node = [].
Proof.
  unfold hasChildren. intros H. apply Nat.ltb_ge in H.
  destruct (children node); [reflexivity|cbn in H; lia].
Qed.

Lemma nodes_reflag g t : nodes (reflag g t) = map (reflag g) (nodes t).
Proof.
  induction t as [i tx cs c n IH] using MindMapNode_ind'.
  cbn [reflag nodes children map]. f_equal.
  induction IH as [|k ks Hk _ IHks]; [reflexivity|].
  cbn [map flat_map]. rewrite map_app, Hk, IHks. reflexivity.
Qed.

Lemma parentIds_unfold t :
  parentIds t
  = (if hasChildren t then [id t] else []) ++ flat_map parentIds (children t).
Proof.
  unfold parentIds. rewrite PreorderFacts.nodes_unfold. cbn [List.filter].
  assert (H : forall cs,
             map id (List.filter hasChildren (flat_map nodes cs))
             = flat_map (fun t => map id (List.filter hasChildren (nodes t))) cs).
  { induction cs as [|k ks IH]; [reflexivity|].
    cbn [flat_map]. rewrite List.filter_app, map_app, IH. reflexivity. }
  destruct (hasChildren t); cbn [map app]; rewrite H; reflexivity.
Qed.

(** The loop over the children, given the effect on each child. *)
Lemma setCollapsedStateRec_children c cs :
  Forall (fun t => forall m,
              fst (setCollapsedStateRec c t m) = reflag (flagAll c) t
              /\ forall i, snd (setCollapsedStateRec c t m) !! i
                           = if bool_decide (i ∈ parentIds t)
                             then Some c else m !! i) cs ->
  forall m0,
    let r :=
      (fix loop (cs : list MindMapNode) (m : Store)
        : list MindMapNode * Store :=
        match cs with
        | [] => ([], m)
        | child :: rest =>
            let '(child', m') := setCollapsedStateRec c child m in
            let '(rest', m'') := loop rest m' in
            (child' :: rest', m'')
        end) cs m0 in
    fst r = map (reflag (flagAll c)) cs
    /\ forall i, snd r !! i
                 = if bool_decide (i ∈ flat_map parentIds cs)
                   then Some c else m0 !! i.
Proof.
  intros IH.
  induction IH as [|k ks Hk _ IHks]; intros m0; cbv zeta.
  - split; [reflexivity|]. intros i. cbn [flat_map].
    rewrite bool_decide_eq_false_2 by (apply not_elem_of_nil).
    reflexivity.
  - destruct (Hk m0) as [Hk1 Hk2].
    destruct (setCollapsedStateRec c k m0) as [k' m1]. cbn [fst snd] in *.
    specialize (IHks m1). cbv zeta in IHks. destruct IHks as [Hr1 Hr2].
    destruct ((fix loop (cs : list MindMapNode) (m : Store)
        : list MindMapNode * Store :=
        match cs with
        | [] => ([], m)
        | child :: rest =>
            let '(child', m') := setCollapsedStateRec c child m in
            let '(rest', m'') := loop rest m' in
            (child' :: rest', m'')
        end) ks m1) as [ks' m2].
    cbn [fst snd map flat_map] in *. subst k' ks'.
    split; [reflexivity|]. intros i. rewrite Hr2, Hk2.
    repeat case_bool_decide; try reflexivity;
      exfalso; rewrite elem_of_app in *; tauto.
Qed.

(** The tree the recursion leaves, and the store it leaves. *)
Lemma setCollapsedStateRec_spec c t :
  forall m,
    fst (setCollapsedStateRec c t m) = reflag (flagAll c) t
    /\ forall i, snd (setCollapsedStateRec c t m) !! i
                 = if bool_decide (i ∈ parentIds t) then Some c else m !! i.
Proof.
  induction t as [i0 tx cs fl n IH] using MindMapNode_ind'. intros m.
  rewrite setCollapsedStateRec_unfold.
  destruct (hasChildren (mkNode i0 tx cs fl n)) eqn:Hc.
  - cbn [id text children note collapsed].
    pose proof (setCollapsedStateRec_children c cs IH
                  (setCollapsedState i0 c m)) as Hloop.
    cbv zeta in Hloop. destruct Hloop as [H1 H2].
    destruct ((fix loop (cs : list MindMapNode) (m : Store)
        : list MindMapNode * Store :=
        match cs with
        | [] => ([], m)
        | child :: rest =>
            let '(child', m') := setCollapsedStateRec c child m in
            let '(rest', m'') := loop rest m' in
            (child' :: rest', m'')
        end) cs (setCollapsedState i0 c m)) as [cs' m2].
    cbn [fst snd] in *. subst cs'.
    split.
    + assert (Hf : flagAll c (mkNode i0 tx cs fl n) = c)
        by (unfold flagAll; rewrite Hc; reflexivity).
      cbn [reflag id text children note]. rewrite Hf. reflexivity.
    + intros i. rewrite H2, parentIds_unfold, Hc. cbn [id children app].
      unfold setCollapsedState.
      destruct (decide (i0 = i)) as [->|Hne].
      * rewrite lookup_insert_eq.
        rewrite (bool_decide_eq_true_2 (i ∈ i :: _)) by (apply elem_of_cons; auto).
        case_bool_decide; reflexivity.
      * rewrite lookup_insert_ne by exact Hne.
        repeat case_bool_decide; try reflexivity; exfalso;
          rewrite elem_of_cons in *; intuition congruence.
  - cbn [fst snd]. pose proof (hasChildren_false _ Hc) as Hcs.
    cbn [children] in Hcs. subst cs.
    split.
    + assert (Hf : flagAll c (mkNode i0 tx [] fl n) = fl)
        by (unfold flagAll; rewrite Hc; reflexivity).
      cbn [reflag map id text children note]. rewrite Hf. reflexivity.
    + intros i. rewrite parentIds_unfold, Hc. cbn [children flat_map app].
      rewrite bool_decide_eq_false_2 by (apply not_elem_of_nil).
      reflexivity.
Qed.


(** X7. Expand all and Collapse all give every node that has children the
    requested flag and leave the childless nodes and everything else (ids,
    labels, notes, shape) as they were; the store then holds the requested
    flag under the id of each node with children, its other entries
    untouched. *)
Theorem expand_collapse_all_effect
        (c : bool) (t : MindMapNode) (m : Store) :
  let '(t', m') := setCollapsedStateRec c t m in
  skeleton t' = skeleton t
  /\ Forall2 (fun n n' => collapsed n' = if hasChildren n then c else collapsed n)
             (nodes t) (nodes t')
  /\ (forall n, In n (nodes t) -> hasChildren n = true -> m' !! id n = Some c)
  /\ (forall i, ~ In i (parentIds t) -> m' !! i = m !! i).
Proof.
  destruct (setCollapsedStateRec_spec c t m) as [H1 H2].
  destruct (setCollapsedStateRec c t m) as [t' m']. cbn [fst snd] in *. subst t'.
  split; [unfold skeleton; apply retagTree_reflag|].
  split.
  - rewrite nodes_reflag. apply Forall2_fmap_r, Forall_Forall2_diag.
    apply Forall_forall. intros n _. destruct n; reflexivity.
  - split.
    + intros n Hn Hc. rewrite H2.
      rewrite bool_decide_eq_true_2; [reflexivity|].
      apply list_elem_of_In. unfold parentIds. apply in_map, filter_In. auto.
    + intros i Hi. rewrite H2.
      rewrite bool_decide_eq_false_2 by (rewrite list_elem_of_In; exact Hi).
      reflexivity.
Qed.



End ButtonFacts.

(* ================================================================== *)
(** ** Zooming, fitting and fullscreen *)
(* ================================================================== *)

Module ViewFacts.
Import Renderer Controls Vocabulary ViewVocabulary.

Open Scope Q_scope.


Lemma zoom_renderMode factor cx cy rect v :
  renderMode (zoom factor cx cy rect v) = renderMode v.
Proof.
  unfold zoom. destruct cx as [x|], cy as [y|], rect as [[l t]|]; reflexivity.
Qed.

Lemma zoomScreen_saved (events : list ZoomEvent) :
  forall s,
    let s' := fold_left (fun s e => zoomScreen e s) events s in
    isFullscreen s' = isFullscreen s
    /\ savedScale s' = savedScale s
    /\ savedTranslateX s' = savedTranslateX s
    /\ savedTranslateY s' = savedTranslateY s
    /\ renderMode (view s') = renderMode (view s).
Proof.
  induction events as [|e es IH]; intros s; cbn [fold_left].
  - repeat split.
  - destruct (IH (zoomScreen e s)) as (H1 & H2 & H3 & H4 & H5).
    cbv zeta. rewrite H1, H2, H3, H4, H5.
    unfold zoomScreen. cbn [isFullscreen savedScale savedTranslateX
                            savedTranslateY view].
    rewrite zoom_renderMode. repeat split.
Qed.





(** X11. Fullscreen gives the view back.  Entering fullscreen with the
    button, zooming any number of times while there, and leaving it again
    (with the button, or with the browser's own exit reported by the
    [fullscreenchange] event) restores scale and translation to what they
    were before; the re-fitting done on entry leaves no trace. *)
Theorem fullscreen_round_trip
        (s : Screen) (entry exit : Measured) (events : list ZoomEvent)
        (exitByButton : bool) :
  isFullscreen s = false ->
  let entered := handleFullscreenChange true entry (toggleFullscreen entry s) in
  let used := fold_left (fun s e => zoomScreen e s) events entered in
  let left :=
    if exitByButton
    then handleFullscreenChange false exit (toggleFullscreen exit used)
    else handleFullscreenChange false exit used in
  view left = view s /\ isFullscreen left = false.
Proof.
  intros Hf. cbv zeta.
  assert (He : handleFullscreenChange true entry (toggleFullscreen entry s)
               = toggleFullscreen entry s).
  { unfold toggleFullscreen, handleFullscreenChange. rewrite Hf. reflexivity. }
  rewrite He.
  destruct (zoomScreen_saved events (toggleFullscreen entry s))
    as (H1 & H2 & H3 & H4 & H5).
  cbv zeta in *.
  set (used := fold_left (fun s e => zoomScreen e s) events
                         (toggleFullscreen entry s)) in *.
  assert (Hfull : isFullscreen used = true).
  { rewrite H1. unfold toggleFullscreen. rewrite Hf. reflexivity. }
  assert (Hsaved : mkView (renderMode (view used)) (savedScale used)
                          (savedTranslateX used) (savedTranslateY used)
                   = view s).
  { rewrite H2, H3, H4, H5. unfold toggleFullscreen. rewrite Hf.
    cbn [negb view savedScale savedTranslateX savedTranslateY renderMode
              centerTree].
    destruct (view s); reflexivity. }
  destruct exitByButton.
  - unfold toggleFullscreen, handleFullscreenChange. rewrite Hfull.
    cbn [negb isFullscreen eqb view]. split; [exact Hsaved|reflexivity].
  - unfold handleFullscreenChange. rewrite Hfull.
    cbn [eqb isFullscreen view]. split; [exact Hsaved|reflexivity].
Qed.

Lemma fullscreen_round_trip_witness :
  let s := mkScreen (mkView logic 0.5 12 34) false 1 0 0 in
  let now := mkMeasured (mkBBox 0 0 2000 900) 1920 1080 in
  let wheel := mkZoomEvent 1.1 (Some 300) (Some 200) (Some (0, 0)) in
  isFullscreen s = false
  /\ view (handleFullscreenChange false now
             (fold_left (fun s e => zoomScreen e s) [wheel; wheel]
                (handleFullscreenChange true now (toggleFullscreen now s))))
     = view s.
Proof.
  cbv zeta.
  assert (Hf : isFullscreen (mkScreen (mkView logic 0.5 12 34) false 1 0 0)
               = false) by reflexivity.
  split; [exact Hf|].
  exact (proj1
           (fullscreen_round_trip
              (mkScreen (mkView logic 0.5 12 34) false 1 0 0)
              (mkMeasured (mkBBox 0 0 2000 900) 1920 1080)
              (mkMeasured (mkBBox 0 0 2000 900) 1920 1080)
              [mkZoomEvent 1.1 (Some 300) (Some 200) (Some (0, 0));
               mkZoomEvent 1.1 (Some 300) (Some 200) (Some (0, 0))]
              false Hf)).
Defined.

End ViewFacts.

(* ================================================================== *)
(** ** Sizes in closed form *)
(* ================================================================== *)

Module SizeFacts.
Import JsString Tree Renderer Drawing Controls Vocabulary ButtonVocabulary.
Import TreeFacts LayoutFacts MeasureFacts.

Lemma sumZ_map_ext {A : Type} (f g : A -> Z) (l : list A) :
  Forall (fun x => f x = g x) l -> sumZ (map f l) = sumZ (map g l).
Proof.
  induction 1 as [|x l Hx _ IH]; [reflexivity|].
  cbn [map sumZ fold_right]. fold (sumZ (map f l)). fold (sumZ (map g l)).
  rewrite Hx, IH. reflexivity.
Qed.

Lemma sumZ_affine {A : Type} (f : A -> Z) (a b : Z) (l : list A) :
  sumZ (map (fun x => (a * f x - b)%Z) l)
  = (a * sumZ (map f l) - Z.of_nat (length l) * b)%Z.
Proof.
  induction l as [|x l IH]; [cbn; lia|].
  cbn [map sumZ fold_right length].
  fold (sumZ (map (fun x => (a * f x - b)%Z) l)). fold (sumZ (map f l)).
  rewrite IH. lia.
Qed.

Lemma sumZ_at_least_length {A : Type} (f : A -> Z) (l : list A) :
  Forall (fun x => (1 <= f x)%Z) l -> (Z.of_nat (length l) <= sumZ (map f l))%Z.
Proof.
  induction 1 as [|x l Hx _ IH]; [cbn; lia|].
  cbn [map sumZ fold_right length]. fold (sumZ (map f l)). lia.
Qed.

Lemma visibleLeaves_unfold t :
  visibleLeaves t
  = if isLeafLike t then 1%Z else sumZ (map visibleLeaves (children t)).
Proof. destruct t; reflexivity. Qed.

(** X13. Subtree heights count visible leaves (a collapsed node standing
    for everything under it): with [n] visible leaves the linear layout takes
    [44 n - 20] and the orthogonal layout [36 n - 8]. *)
Theorem heights_by_visible_leaves (node : MindMapNode) :
  (1 <= visibleLeaves node
   /\ calculateTreeHeight node = 44 * visibleLeaves node - 20
   /\ calculateRadialMindMapTreeHeight node = 36 * visibleLeaves node - 8)%Z.
Proof.
  induction node as [i tx cs c n IH] using MindMapNode_ind'.
  rewrite calculateTreeHeight_recurrence,
          calculateRadialMindMapTreeHeight_recurrence, visibleLeaves_unfold.
  unfold heightRecurrence.
  destruct (isLeafLike (mkNode i tx cs c n)) eqn:Hl; [lia|].
  pose proof (isLeafLike_false_length _ Hl) as Hlen.
  cbn [children] in *. apply Nat.eqb_neq in Hlen.
  assert (H1 : Forall (fun k => (1 <= visibleLeaves k)%Z) cs)
    by (eapply Forall_impl; [exact IH|]; intros k Hk; apply Hk).
  assert (H2 : Forall (fun k => calculateTreeHeight k
                                = (44 * visibleLeaves k - 20)%Z) cs)
    by (eapply Forall_impl; [exact IH|]; intros k Hk; apply Hk).
  assert (H3 : Forall (fun k => calculateRadialMindMapTreeHeight k
                                = (36 * visibleLeaves k - 8)%Z) cs)
    by (eapply Forall_impl; [exact IH|]; intros k Hk; apply Hk).
  rewrite (sumZ_map_ext _ _ _ H2), (sumZ_map_ext _ _ _ H3), !sumZ_affine.
  pose proof (sumZ_at_least_length visibleLeaves cs H1) as Hpos.
  lia.
Qed.

Lemma fold_count {A : Type} (f : A -> nat) (l : list A) :
  forall acc,
    fold_left (fun count child => (count + f child)%nat) l acc
    = (acc + list_sum (map f l))%nat.
Proof.
  induction l as [|x l IH]; intros acc; simpl; [lia|rewrite IH; lia].
Qed.

Lemma countDescendants_unfold node :
  countDescendants node
  = (length (children node)
     + list_sum (map countDescendants (children node)))%nat.
Proof. destruct node as [i tx cs c n]. cbn [countDescendants children]. apply fold_count. Qed.

(** X14. [countDescendants] counts every node below the given one,
    collapsed or not: with the node itself that is the size of the
    subtree. *)
Theorem countDescendants_is_subtree_size (node : MindMapNode) :
  S (countDescendants node) = length (nodes node).
Proof.
  induction node as [i tx cs c n IH] using MindMapNode_ind'.
  rewrite countDescendants_unfold. cbn [nodes children length]. f_equal.
  induction IH as [|k ks Hk _ IHks]; [reflexivity|].
  change (list_sum (map countDescendants (k :: ks)))
    with (countDescendants k + list_sum (map countDescendants ks))%nat.
  cbn [length flat_map]. rewrite length_app, <- Hk, <- IHks.
  lia.
Qed.

End SizeFacts.

(* ================================================================== *)
(** ** What the two modes and the two buttons draw *)
(* ================================================================== *)

Module ScreenFacts.
Import JsString Tree Parser Renderer Drawing Controls Vocabulary
       ButtonVocabulary TreeFacts DrawingFacts ButtonFacts.

Lemma render_counts mode root :
  connectorCount (render mode root) = length (drawnUnder (children root))
  /\ drawnNodeCount (render mode root)
     = S (length (drawnUnder (children root))).
Proof.
  pose proof (render_shapes mode root) as H.
  assert (Hl : map shape (linesGroup (render mode root))
               = pathsOf (drawnUnder (children root)))
    by exact (f_equal fst H).
  assert (Hn : map shape (nodesGroup (render mode root))
               = rootShapes root ++ flat_map ownShapes (drawnUnder (children root)))
    by exact (f_equal snd H).
  split.
  - unfold connectorCount. rewrite <- (length_map shape), Hl.
    unfold pathsOf. apply length_map.
  - unfold drawnNodeCount.
    rewrite Hn, List.filter_app, length_app, ownShapes_one_box.
    unfold rootShapes. destruct (hasNote root); reflexivity.
Qed.

Lemma hasChildren_reflag g t : hasChildren (reflag g t) = hasChildren t.
Proof.
  destruct t as [i tx cs c n]. unfold hasChildren.
  cbn [reflag children]. rewrite length_map. reflexivity.
Qed.

Lemma collapsed_reflag g t : collapsed (reflag g t) = g t.
Proof. destruct t; reflexivity. Qed.

Lemma children_reflag g t : children (reflag g t) = map (reflag g) (children t).
Proof. destruct t; reflexivity. Qed.

(** With everything expanded the whole subtree is drawn. *)
Lemma drawn_expanded t :
  length (drawn (reflag (flagAll false) t)) = length (nodes t).
Proof.
  induction t as [i tx cs c n IH] using MindMapNode_ind'.
  rewrite drawn_unfold, hasChildren_reflag, collapsed_reflag, children_reflag.
  rewrite PreorderFacts.nodes_unfold.
  cbn [children length]. f_equal.
  destruct (hasChildren (mkNode i tx cs c n)) eqn:Hc.
  - assert (Hf : flagAll false (mkNode i tx cs c n) = false)
      by (unfold flagAll; rewrite Hc; reflexivity).
    rewrite Hf. cbn [negb andb]. clear Hc Hf.
    induction IH as [|k ks Hk _ IHks]; [reflexivity|].
    cbn [map flat_map]. rewrite !length_app, Hk, IHks. reflexivity.
  - rewrite andb_false_r.
    pose proof (hasChildren_false _ Hc) as Hcs. cbn [children] in Hcs.
    subst cs. reflexivity.
Qed.

(** With everything collapsed a node is drawn alone. *)
Lemma drawn_collapsed t : length (drawn (reflag (flagAll true) t)) = 1%nat.
Proof.
  rewrite drawn_unfold, hasChildren_reflag, collapsed_reflag.
  unfold flagAll. destruct (hasChildren t); [reflexivity|].
  rewrite andb_false_r. reflexivity.
Qed.

(** X15. The two render modes differ in geometry only: both draw the same
    elements in the same order (the same connectors, boxes, labels, note
    icons and collapse indicators), one connector per drawn node below the
    root. *)
Theorem render_modes_draw_same_elements (root : MindMapNode) :
  shapes (render logic root) = shapes (render clockwise root)
  /\ forall mode,
       connectorCount (render mode root) = length (drawnUnder (children root))
       /\ drawnNodeCount (render mode root)
          = S (connectorCount (render mode root)).
Proof.
  split.
  - rewrite !render_shapes. reflexivity.
  - intros mode. destruct (render_counts mode root) as [H1 H2].
    rewrite H1, H2. split; reflexivity.
Qed.

(** X16. After Expand all every node of the tree is drawn; after Collapse
    all the root and its direct children are, and nothing else (the root's
    own flag never hiding its children). *)
Theorem expand_all_shows_all_collapse_all_shows_top
        (mode : RenderMode) (t : MindMapNode) (m : Store) :
  drawnNodeCount (render mode (fst (setCollapsedStateRec false t m)))
  = length (nodes t)
  /\ drawnNodeCount (render mode (fst (setCollapsedStateRec true t m)))
     = S (length (children t)).
Proof.
  destruct (setCollapsedStateRec_spec false t m) as [Hf _].
  destruct (setCollapsedStateRec_spec true t m) as [Ht _].
  rewrite Hf, Ht.
  destruct (render_counts mode (reflag (flagAll false) t)) as [_ H1].
  destruct (render_counts mode (reflag (flagAll true) t)) as [_ H2].
  rewrite H1, H2, !children_reflag.
  rewrite PreorderFacts.nodes_unfold. cbn [length].
  unfold drawnUnder. split; f_equal.
  - induction (children t) as [|k ks IH]; [reflexivity|].
    cbn [map flat_map]. rewrite !length_app, drawn_expanded, IH. reflexivity.
  - induction (children t) as [|k ks IH]; [reflexivity|].
    cbn [map flat_map length]. rewrite length_app, drawn_collapsed, IH.
    reflexivity.
Qed.

End ScreenFacts.

(* ================================================================== *)
(** ** Node boxes do not overlap *)
(* ================================================================== *)

Module BoxFacts.
Import JsString Tree Renderer Drawing Vocabulary LayoutVocabulary
       BandVocabulary TreeFacts LayoutFacts MeasureFacts DrawingFacts.

Open Scope Q_scope.

Lemma boxes_andThen a b : boxes (andThen a b) = boxes a ++ boxes b.
Proof. unfold boxes, andThen. cbn [nodesGroup]. apply flat_map_app. Qed.

Lemma noOverlap_app l1 l2 :
  noOverlap l1 -> noOverlap l2 ->
  (forall a b, In a l1 -> In b l2 -> apart a b) ->
  noOverlap (l1 ++ l2).
Proof.
  unfold noOverlap. induction 1 as [|a l Ha Hl IH]; intros H2 Hx; [exact H2|].
  cbn [app]. constructor.
  - apply List.Forall_app. split; [exact Ha|].
    apply List.Forall_forall. intros b Hb. apply Hx; [left; reflexivity|exact Hb].
  - apply IH; [exact H2|]. intros x y Hx' Hy. apply Hx; [right; exact Hx'|exact Hy].
Qed.

Lemma height_ge_28 c : 28 <= height c.
Proof.
  unfold height. change 28 with (inject_Z 28). rewrite <- Zle_Qle.
  apply radial_height_ge_28.
Qed.

Lemma span_cons c cs : span (c :: cs) = height c + 8 + span cs.
Proof. reflexivity. Qed.

Lemma span_nonneg cs : 0 <= span cs.
Proof.
  induction cs as [|c cs IH]; [apply Qle_refl|].
  rewrite span_cons. pose proof (height_ge_28 c) as H.
  set (h := height c) in *. set (s := span cs) in *. clearbody h s. lra.
Qed.

Lemma ofNat_S n : ofNat (S n) == ofNat n + 1.
Proof.
  unfold ofNat. rewrite Nat2Z.inj_succ, <- Z.add_1_r, inject_Z_plus.
  reflexivity.
Qed.

Lemma fold_sum (l : list Q) :
  forall acc, fold_left (fun sum h => sum + h) l acc == acc + fold_right Qplus 0 l.
Proof.
  induction l as [|x l IH]; intros acc; cbn [fold_left fold_right].
  - ring.
  - rewrite IH. ring.
Qed.

Lemma sum_heights_span cs :
  fold_right Qplus 0 (map height cs) + ofNat (length cs) * 8 == span cs.
Proof.
  induction cs as [|c cs IH].
  - cbn. reflexivity.
  - cbn [map fold_right length]. rewrite span_cons, ofNat_S, <- IH. ring.
Qed.

(** The room the children take is the room [forEachChild] steps through,
    less the gap after the last child. *)
Lemma totalChildrenHeight_span cs : totalChildrenHeight cs == span cs - 8.
Proof.
  unfold totalChildrenHeight. rewrite fold_sum, <- sum_heights_span. ring.
Qed.

Lemma inject_sumZ cs :
  inject_Z (sumZ (map calculateRadialMindMapTreeHeight cs))
  == fold_right Qplus 0 (map height cs).
Proof.
  induction cs as [|c cs IH]; [reflexivity|].
  cbn [map sumZ fold_right].
  fold (sumZ (map calculateRadialMindMapTreeHeight cs)).
  rewrite inject_Z_plus, IH. reflexivity.
Qed.

(** An expanded node is exactly as high as its children take. *)
Lemma height_expanded c :
  negb (collapsed c) && hasChildren c = true ->
  height c == totalChildrenHeight (children c).
Proof.
  intros H. apply andb_true_iff in H as [Hc Hh].
  assert (Hl : isLeafLike c = false).
  { unfold isLeafLike. unfold hasChildren in Hh. apply Nat.ltb_lt in Hh.
    apply orb_false_iff. split.
    - apply Nat.eqb_neq. lia.
    - destruct (collapsed c); [discriminate|reflexivity]. }
  unfold height. rewrite calculateRadialMindMapTreeHeight_recurrence.
  unfold heightRecurrence. rewrite Hl.
  assert (E : inject_Z (Z.of_nat (length (children c)) - 1)
              == ofNat (length (children c)) - 1).
  { unfold Z.sub, ofNat. rewrite inject_Z_plus, inject_Z_opp. reflexivity. }
  rewrite inject_Z_plus, inject_Z_mult, E, inject_sumZ.
  unfold totalChildrenHeight. rewrite fold_sum.
  change (inject_Z 8) with 8. ring.
Qed.

Lemma calculateTextWidth_ge_16 text depth : 16 <= calculateTextWidth text depth.
Proof.
  unfold calculateTextWidth. cbv zeta. rewrite fold_addCharWidth.
  pose proof (labelFontSize_pos depth) as Hf.
  set (f := labelFontSize depth) in *.
  assert (Hw : 0 <= ofNat (length (List.filter isCJKChar (chars text))))
    by (unfold ofNat; change 0 with (inject_Z 0); rewrite <- Zle_Qle; lia).
  assert (Hn : 0 <= ofNat (length (List.filter (fun c => negb (isCJKChar c))
                                               (chars text))))
    by (unfold ofNat; change 0 with (inject_Z 0); rewrite <- Zle_Qle; lia).
  set (w := ofNat (length (List.filter isCJKChar (chars text)))) in *.
  set (n := ofNat (length (List.filter (fun c => negb (isCJKChar c))
                                       (chars text)))) in *.
  assert (H1 : 0 <= w * f)
    by (apply Qmult_le_0_compat; [exact Hw|apply Qlt_le_weak, Hf]).
  assert (H2 : 0 <= n * (f * 0.55)).
  { apply Qmult_le_0_compat; [exact Hn|].
    apply Qmult_le_0_compat; [apply Qlt_le_weak, Hf|discriminate]. }
  set (a := w * f) in *. set (b := n * (f * 0.55)) in *.
  clearbody a b. clear - H1 H2. lra.
Qed.

Lemma labelFontSize_le_13 depth : labelFontSize depth <= 13.
Proof.
  unfold labelFontSize. apply Q.max_lub; [discriminate|].
  assert (H : 0 <= ofNat depth)
    by (unfold ofNat; change 0 with (inject_Z 0); rewrite <- Zle_Qle; lia).
  set (d := ofNat depth) in *. clearbody d. lra.
Qed.

(** The loop over the children: every child keeps to its own band, the
    bands follow one another, so nothing of one child overlaps anything of
    another. *)
Lemma forEachChild_boxes (side : Box -> Prop) (body : MindMapNode -> Q -> Out)
      (cs : list MindMapNode) :
  Forall (fun c => forall y,
              Forall (fun b => side b /\ inBand y (y + height c) b)
                     (boxes (body c y))
              /\ noOverlap (boxes (body c y))) cs ->
  forall y0,
    Forall (fun b => side b /\ inBand y0 (y0 + span cs - 8) b)
           (boxes (forEachChild body cs y0))
    /\ noOverlap (boxes (forEachChild body cs y0)).
Proof.
  induction 1 as [|c cs Hc _ IH]; intros y0.
  - split; constructor.
  - cbn [forEachChild]. rewrite boxes_andThen, span_cons.
    destruct (Hc y0) as [Hb Hn].
    destruct (IH (y0 + height c + 8)) as [Hb' Hn'].
    pose proof (span_nonneg cs) as Hs.
    split.
    + apply List.Forall_app. split.
      * eapply List.Forall_impl; [|exact Hb].
        intros b [Hside [Ht Hbot]]. split; [exact Hside|].
        unfold inBand. split; [exact Ht|].
        set (h := height c) in *. set (s := span cs) in *.
        set (x := b_top b + b_height b) in *. clearbody h s x.
        clear - Hbot Hs. lra.
      * eapply List.Forall_impl; [|exact Hb'].
        intros b [Hside [Ht Hbot]]. split; [exact Hside|].
        pose proof (height_ge_28 c) as Hh.
        unfold inBand. split.
        -- set (h := height c) in *. set (t := b_top b) in *. clearbody h t.
           clear - Ht Hh. lra.
        -- set (h := height c) in *. set (s := span cs) in *.
           set (x := b_top b + b_height b) in *. clearbody h s x.
           clear - Hbot. lra.
    + apply noOverlap_app; [exact Hn|exact Hn'|].
      intros a b Ha Hb2.
      rewrite List.Forall_forall in Hb, Hb'.
      destruct (Hb a Ha) as [_ [_ Hbot]].
      destruct (Hb' b Hb2) as [_ [Ht _]].
      unfold apart. right. right. left.
      set (h := height c) in *. set (t := b_top b) in *.
      set (x := b_top a + b_height a) in *. clearbody h t x.
      clear - Hbot Ht. lra.
Qed.

Lemma nodeWidth_nonneg text depth (flag : bool) (extra : Q) :
  0 <= extra ->
  0 <= calculateTextWidth text depth + (if flag then extra else 0).
Proof.
  intros He. pose proof (calculateTextWidth_ge_16 text depth) as H.
  set (w := calculateTextWidth text depth) in *. clearbody w.
  destruct flag; clear - H He; lra.
Qed.

(** One child callback with its geometry: the node's box, then the loop
    over its children when it is expanded. *)
Lemma renderRightChild_geometry child parentRight parentY currentY depth :
  let W := calculateTextWidth (text child) depth
           + (if hasNote child then 18 else 0) in
  let nodeX := parentRight + 30 in
  let centerY := currentY + height child / 2 in
  let nodeHeight := labelFontSize depth + 10 in
  exists own,
    renderRightChild child parentRight parentY currentY depth
    = andThen own
        (if negb (collapsed child) && hasChildren child
         then forEachChild
                (fun c y => renderRightChild c (nodeX + W) centerY y (S depth))
                (children child)
                (centerY - totalChildrenHeight (children child) / 2)
         else nothing)
    /\ boxes own = [mkBox nodeX (centerY - nodeHeight / 2) W nodeHeight].
Proof.
  destruct child as [i t cs c n]. cbv zeta.
  eexists. split; [reflexivity|].
  unfold boxes. cbn [nodesGroup].
  destruct (hasNote _), (hasChildren _); reflexivity.
Qed.

Lemma renderLeftChild_geometry child parentLeft parentY currentY depth :
  let W := calculateTextWidth (text child) depth
           + (if hasNote child then 18 else 0) in
  let nodeX := parentLeft - 30 - W in
  let centerY := currentY + height child / 2 in
  let nodeHeight := labelFontSize depth + 10 in
  exists own,
    renderLeftChild child parentLeft parentY currentY depth
    = andThen own
        (if negb (collapsed child) && hasChildren child
         then forEachChild
                (fun c y => renderLeftChild c nodeX centerY y (S depth))
                (children child)
                (centerY - totalChildrenHeight (children child) / 2)
         else nothing)
    /\ boxes own = [mkBox nodeX (centerY - nodeHeight / 2) W nodeHeight].
Proof.
  destruct child as [i t cs c n]. cbv zeta.
  eexists. split; [reflexivity|].
  unfold boxes. cbn [nodesGroup].
  destruct (hasNote _), (hasChildren _); reflexivity.
Qed.

(** The node's own box keeps to the node's band. *)
Lemma own_box_in_band child currentY depth x w :
  inBand currentY (currentY + height child)
         (mkBox x (currentY + height child / 2 - (labelFontSize depth + 10) / 2)
                w (labelFontSize depth + 10)).
Proof.
  unfold inBand. cbn [b_top b_height].
  pose proof (height_ge_28 child) as Hh.
  pose proof (labelFontSize_le_13 depth) as Hf.
  set (h := height child) in *. set (f := labelFontSize depth) in *.
  assert (E1 : h / 2 == (1 # 2) * h) by field.
  assert (E2 : (f + 10) / 2 == (1 # 2) * (f + 10)) by field.
  rewrite E1, E2. clearbody h f. clear - Hh Hf. split; lra.
Qed.

(** The children of an expanded node fill the node's band exactly. *)
Lemma children_band child currentY :
  negb (collapsed child) && hasChildren child = true ->
  let start := currentY + height child / 2
               - totalChildrenHeight (children child) / 2 in
  start == currentY
  /\ start + span (children child) - 8 == currentY + height child.
Proof.
  intros H. cbv zeta.
  pose proof (height_expanded child H) as E.
  pose proof (totalChildrenHeight_span (children child)) as Es.
  rewrite <- E in Es. rewrite <- E.
  set (h := height child) in *. set (s := span (children child)) in *.
  assert (E1 : h / 2 == (1 # 2) * h) by field.
  rewrite E1. clearbody h s. clear - Es. split; lra.
Qed.

Lemma inBand_eq t1 b1 t2 b2 box :
  t1 == t2 -> b1 == b2 -> inBand t1 b1 box -> inBand t2 b2 box.
Proof.
  unfold inBand. intros Et Eb [H1 H2]. rewrite <- Et, <- Eb. split; assumption.
Qed.

Lemma renderRightChild_boxes child :
  forall parentRight parentY currentY depth,
    Forall (fun b => rightOf (parentRight + 30) b
                     /\ inBand currentY (currentY + height child) b)
           (boxes (renderRightChild child parentRight parentY currentY depth))
    /\ noOverlap (boxes (renderRightChild child parentRight parentY currentY
                                          depth)).
Proof.
  induction child as [i t cs c n IH] using MindMapNode_ind'.
  intros parentRight parentY currentY depth.
  set (child := mkNode i t cs c n) in *.
  destruct (renderRightChild_geometry child parentRight parentY currentY depth)
    as (own & -> & Hown).
  rewrite boxes_andThen, Hown.
  set (W := calculateTextWidth (text child) depth
            + (if hasNote child then 18 else 0)) in *.
  assert (HW : 0 <= W) by (apply nodeWidth_nonneg; discriminate).
  set (ownBox := mkBox (parentRight + 30)
                       (currentY + height child / 2
                        - (labelFontSize depth + 10) / 2)
                       W (labelFontSize depth + 10)).
  assert (Hown_ok : rightOf (parentRight + 30) ownBox
                    /\ inBand currentY (currentY + height child) ownBox).
  { split; [apply Qle_refl|apply own_box_in_band]. }
  destruct (negb (collapsed child) && hasChildren child) eqn:Hexp.
  - pose proof (forEachChild_boxes
                  (rightOf (parentRight + 30 + W + 30))
                  (fun c y => renderRightChild c (parentRight + 30 + W)
                                (currentY + height child / 2) y (S depth))
                  (children child)) as Hloop.
    assert (Hpre : Forall
                     (fun c => forall y,
                          Forall (fun b => rightOf (parentRight + 30 + W + 30) b
                                           /\ inBand y (y + height c) b)
                                 (boxes (renderRightChild c
                                           (parentRight + 30 + W)
                                           (currentY + height child / 2) y
                                           (S depth)))
                          /\ noOverlap (boxes (renderRightChild c
                                                 (parentRight + 30 + W)
                                                 (currentY + height child / 2)
                                                 y (S depth))))
                     (children child)).
    { eapply Forall_impl; [exact IH|]. intros k Hk y. apply Hk. }
    specialize (Hloop Hpre
                  (currentY + height child / 2
                   - totalChildrenHeight (children child) / 2)).
    destruct Hloop as [Hb Hn].
    destruct (children_band child currentY Hexp) as [Et Eb].
    split.
    + cbn [app]. constructor; [exact Hown_ok|].
      eapply List.Forall_impl; [|exact Hb].
      intros b [Hside Hband]. split.
      * unfold rightOf in *. set (l := b_left b) in *. clearbody l.
        clear - Hside HW. lra.
      * exact (inBand_eq _ _ _ _ _ Et Eb Hband).
    + cbn [app]. constructor; [|exact Hn].
      eapply List.Forall_impl; [|exact Hb].
      intros b [Hside _]. unfold apart. left.
      unfold rightOf in Hside. cbn [b_left b_width ownBox].
      set (l := b_left b) in *. clearbody l. clear - Hside. lra.
  - change (boxes nothing) with (@nil Box). cbn [app].
    split.
    + constructor; [exact Hown_ok|constructor].
    + constructor; constructor.
Qed.

Lemma renderLeftChild_boxes child :
  forall parentLeft parentY currentY depth,
    Forall (fun b => leftOf (parentLeft - 30) b
                     /\ inBand currentY (currentY + height child) b)
           (boxes (renderLeftChild child parentLeft parentY currentY depth))
    /\ noOverlap (boxes (renderLeftChild child parentLeft parentY currentY
                                         depth)).
Proof.
  induction child as [i t cs c n IH] using MindMapNode_ind'.
  intros parentLeft parentY currentY depth.
  set (child := mkNode i t cs c n) in *.
  destruct (renderLeftChild_geometry child parentLeft parentY currentY depth)
    as (own & -> & Hown).
  rewrite boxes_andThen, Hown.
  set (W := calculateTextWidth (text child) depth
            + (if hasNote child then 18 else 0)) in *.
  assert (HW : 0 <= W) by (apply nodeWidth_nonneg; discriminate).
  set (ownBox := mkBox (parentLeft - 30 - W)
                       (currentY + height child / 2
                        - (labelFontSize depth + 10) / 2)
                       W (labelFontSize depth + 10)).
  assert (Hown_ok : leftOf (parentLeft - 30) ownBox
                    /\ inBand currentY (currentY + height child) ownBox).
  { split; [|apply own_box_in_band].
    unfold leftOf. cbn [b_left b_width ownBox]. clearbody W. clear. lra. }
  destruct (negb (collapsed child) && hasChildren child) eqn:Hexp.
  - pose proof (forEachChild_boxes
                  (leftOf (parentLeft - 30 - W - 30))
                  (fun c y => renderLeftChild c (parentLeft - 30 - W)
                                (currentY + height child / 2) y (S depth))
                  (children child)) as Hloop.
    assert (Hpre : Forall
                     (fun c => forall y,
                          Forall (fun b => leftOf (parentLeft - 30 - W - 30) b
                                           /\ inBand y (y + height c) b)
                                 (boxes (renderLeftChild c
                                           (parentLeft - 30 - W)
                                           (currentY + height child / 2) y
                                           (S depth)))
                          /\ noOverlap (boxes (renderLeftChild c
                                                 (parentLeft - 30 - W)
                                                 (currentY + height child / 2)
                                                 y (S depth))))
                     (children child)).
    { eapply Forall_impl; [exact IH|]. intros k Hk y. apply Hk. }
    specialize (Hloop Hpre
                  (currentY + height child / 2
                   - totalChildrenHeight (children child) / 2)).
    destruct Hloop as [Hb Hn].
    destruct (children_band child currentY Hexp) as [Et Eb].
    split.
    + cbn [app]. constructor; [exact Hown_ok|].
      eapply List.Forall_impl; [|exact Hb].
      intros b [Hside Hband]. split.
      * unfold leftOf in *. set (r := b_left b + b_width b) in *. clearbody r.
        clear - Hside HW. lra.
      * exact (inBand_eq _ _ _ _ _ Et Eb Hband).
    + cbn [app]. constructor; [|exact Hn].
      eapply List.Forall_impl; [|exact Hb].
      intros b [Hside _]. unfold apart. right. left.
      unfold leftOf in Hside. cbn [b_left b_width ownBox].
      set (r := b_left b + b_width b) in *. clearbody r. clear - Hside. lra.
  - change (boxes nothing) with (@nil Box). cbn [app].
    split.
    + constructor; [exact Hown_ok|constructor].
    + constructor; constructor.
Qed.

(** The boxes under a list of right-hand children, and under a list of
    left-hand children. *)
Lemma renderOutlineViewChildren_boxes cs parentRight parentY depth :
  Forall (rightOf (parentRight + 30))
         (boxes (renderOutlineViewChildren cs parentRight parentY depth))
  /\ noOverlap (boxes (renderOutlineViewChildren cs parentRight parentY depth)).
Proof.
  unfold renderOutlineViewChildren.
  destruct (forEachChild_boxes (rightOf (parentRight + 30))
              (fun c y => renderRightChild c parentRight parentY y depth) cs)
    with (y0 := parentY - totalChildrenHeight cs / 2) as [Hb Hn].
  - apply List.Forall_forall. intros c _ y. apply renderRightChild_boxes.
  - split; [|exact Hn].
    eapply List.Forall_impl; [|exact Hb]. intros b [H _]. exact H.
Qed.

Lemma renderRadialMindMapChildrenLeft_boxes cs parentLeft parentY depth :
  Forall (leftOf (parentLeft - 30))
         (boxes (renderRadialMindMapChildrenLeft cs parentLeft parentY depth))
  /\ noOverlap (boxes (renderRadialMindMapChildrenLeft cs parentLeft parentY
                                                       depth)).
Proof.
  unfold renderRadialMindMapChildrenLeft.
  destruct (forEachChild_boxes (leftOf (parentLeft - 30))
              (fun c y => renderLeftChild c parentLeft parentY y depth) cs)
    with (y0 := parentY - totalChildrenHeight cs / 2) as [Hb Hn].
  - apply List.Forall_forall. intros c _ y. apply renderLeftChild_boxes.
  - split; [|exact Hn].
    eapply List.Forall_impl; [|exact Hb]. intros b [H _]. exact H.
Qed.

Lemma boxes_count (l : list Svg) :
  length (flat_map boxOf l) = length (List.filter isSRect (map shape l)).
Proof.
  induction l as [|e l IH]; [reflexivity|].
  cbn [flat_map map List.filter]. rewrite length_app, IH.
  destruct e; reflexivity.
Qed.

(** X17. In neither mode do two node boxes overlap: of any two boxes of a
    drawing one ends before the other begins, horizontally or vertically.
    The boxes are as many as the nodes the tree has on show: one for the
    root and one for every node drawn under it, that is every child of the
    root and, below a node that is not collapsed, every child of that
    node. *)
Theorem node_boxes_never_overlap (mode : RenderMode) (root : MindMapNode) :
  noOverlap (boxes (render mode root))
  /\ length (boxes (render mode root))
     = S (length (drawnUnder (children root))).
Proof.
  split;
    [|rewrite <- (proj2 (ScreenFacts.render_counts mode root));
      apply boxes_count].
  set (W := calculateTextWidth (text root) 0
            + (if hasNote root then 20 else 0)).
  assert (HW : 0 <= W) by (apply nodeWidth_nonneg; discriminate).
  destruct mode.
  - (* logic *)
    unfold render, renderOutlineView. cbv zeta. rewrite boxes_andThen.
    fold W.
    set (startY := height root / 2 + 50).
    assert (Hroot : boxes (mkOut []
                             ([Rect 50 (startY - 24 / 2) W 24 4;
                               Text (50 + calculateTextWidth (text root) 0 / 2)
                                    (startY + 5) 14 (text root)]
                              ++ (if hasNote root
                                  then [addNoteIcon
                                          (50 + calculateTextWidth (text root) 0 + 2)
                                          startY 14]
                                  else [])))
                    = [mkBox 50 (startY - 24 / 2) W 24])
      by (destruct (hasNote root); reflexivity).
    rewrite Hroot. cbn [app].
    destruct (hasChildren root).
    + destruct (renderOutlineViewChildren_boxes (children root) (50 + W) startY 1)
        as [Hb Hn].
      constructor; [|exact Hn].
      eapply List.Forall_impl; [|exact Hb].
      intros b Hside. unfold apart, rightOf in *. left. cbn [b_left b_width].
      set (l := b_left b) in *. clearbody l W. clear - Hside. lra.
    + constructor; constructor.
  - (* clockwise *)
    unfold render, renderRadialMindMap. cbv zeta. rewrite boxes_andThen.
    fold W.
    set (rootX := 400 - W / 2).
    assert (Hroot : boxes (mkOut []
                             ([Rect rootX (300 - 24 / 2) W 24 4;
                               Text (rootX + calculateTextWidth (text root) 0 / 2)
                                    (300 + 5) 14 (text root)]
                              ++ (if hasNote root
                                  then [addNoteIcon
                                          (rootX + calculateTextWidth (text root) 0 + 2)
                                          300 14]
                                  else [])))
                    = [mkBox rootX (300 - 24 / 2) W 24])
      by (destruct (hasNote root); reflexivity).
    rewrite Hroot. cbn [app].
    destruct (hasChildren root); [|constructor; constructor].
    rewrite boxes_andThen.
    set (k := Nat.div2 (S (length (children root)))).
    assert (HR : Forall (rightOf (rootX + W + 30))
                        (boxes (if (0 <? length (take k (children root)))%nat
                                then renderRadialMindMapChildrenRight
                                       (take k (children root)) (rootX + W) 300 1
                                else nothing))
                 /\ noOverlap
                      (boxes (if (0 <? length (take k (children root)))%nat
                              then renderRadialMindMapChildrenRight
                                     (take k (children root)) (rootX + W) 300 1
                              else nothing))).
    { destruct (0 <? length (take k (children root)))%nat.
      - apply renderOutlineViewChildren_boxes.
      - split; constructor. }
    assert (HL : Forall (leftOf (rootX - 30))
                        (boxes (if (0 <? length (drop k (children root)))%nat
                                then renderRadialMindMapChildrenLeft
                                       (drop k (children root)) rootX 300 1
                                else nothing))
                 /\ noOverlap
                      (boxes (if (0 <? length (drop k (children root)))%nat
                              then renderRadialMindMapChildrenLeft
                                     (drop k (children root)) rootX 300 1
                              else nothing))).
    { destruct (0 <? length (drop k (children root)))%nat.
      - apply renderRadialMindMapChildrenLeft_boxes.
      - split; constructor. }
    destruct HR as [HRb HRn]. destruct HL as [HLb HLn].
    constructor.
    + apply List.Forall_app. split.
      * eapply List.Forall_impl; [|exact HRb].
        intros b Hside. unfold apart, rightOf in *. left. cbn [b_left b_width].
        set (l := b_left b) in *. clearbody l rootX W. clear - Hside. lra.
      * eapply List.Forall_impl; [|exact HLb].
        intros b Hside. unfold apart, leftOf in *. right. left.
        cbn [b_left b_width].
        set (r := b_left b + b_width b) in *. clearbody r rootX W.
        clear - Hside. lra.
    + apply noOverlap_app; [exact HRn|exact HLn|].
      intros a b Ha Hb.
      rewrite List.Forall_forall in HRb, HLb.
      pose proof (HRb a Ha) as H1. pose proof (HLb b Hb) as H2.
      unfold apart, rightOf, leftOf in *. right. left.
      set (l := b_left a) in *. set (r := b_left b + b_width b) in *.
      clearbody l r rootX W. clear - H1 H2 HW. lra.
Qed.

End BoxFacts.

(* ================================================================== *)
(** ** Themes *)
(* ================================================================== *)

Module ThemeFacts.
Import JsString Themes.

Lemma streq_true a b : streq a b = true <-> a = b.
Proof. unfold streq. apply bool_decide_eq_true. Qed.

Lemma streq_false a b : streq a b = false <-> a <> b.
Proof. unfold streq. apply bool_decide_eq_false. Qed.

Lemma findTheme_app n l1 l2 :
  findTheme n (l1 ++ l2)
  = match findTheme n l1 with Some t => Some t | None => findTheme n l2 end.
Proof.
  unfold findTheme. induction l1 as [|t l1 IH]; [reflexivity|].
  cbn [app List.find]. destruct (streq (name t) n); [reflexivity|exact IH].
Qed.

Lemma findTheme_name n l t : findTheme n l = Some t -> name t = n.
Proof.
  unfold findTheme. intros H. apply List.find_some in H as [_ H].
  apply streq_true, H.
Qed.

Lemma findTheme_none n l t : findTheme n l = None -> In t l -> name t <> n.
Proof.
  unfold findTheme. intros H Hin.
  apply streq_false. exact (List.find_none _ _ H t Hin).
Qed.

(** What [selectTheme] does for a name other than Custom that resolves. *)
Lemma selectTheme_found n s t :
  n <> lit "Custom" ->
  findTheme n (PRESET_THEMES ++ customThemes s) = Some t ->
  selectTheme n s
  = mkThemeSettings n (customThemes s) (canvasBackgroundColor t) (fontColor t)
                    (nodeBackgroundColor t) (lineColor t) (connectionColor t).
Proof.
  intros Hn Hf. unfold selectTheme, applyTheme.
  apply streq_false in Hn. rewrite Hn.
  cbn [customThemes currentTheme]. rewrite findTheme_app in Hf.
  destruct (findTheme n PRESET_THEMES) as [p|].
  - injection Hf as ->. reflexivity.
  - rewrite Hf. reflexivity.
Qed.

Lemma saveCustomTheme_themes n s :
  truthy n = true ->
  customThemes (saveCustomTheme (Some n) s) = customThemes s ++ [colorsAs n s].
Proof. intros H. unfold saveCustomTheme. rewrite H. reflexivity. Qed.

(** X18. A saved theme can be had back.  After the current colours were
    saved under a name that is not empty, not Custom and not yet the name of
    a preset or custom theme, then, whatever colours are set in the meantime
    and whatever themes are saved later, choosing that name in the dropdown
    restores the saved colours. *)
Theorem saved_theme_restores_colours
        (n : jsstring) (s s' : ThemeSettings) (later : list MindMapTheme) :
  truthy n = true ->
  n <> lit "Custom" ->
  findTheme n (PRESET_THEMES ++ customThemes s) = None ->
  customThemes s' = customThemes (saveCustomTheme (Some n) s) ++ later ->
  let r := selectTheme n s' in
  currentTheme r = n
  /\ colorsAs n r = colorsAs n s
  /\ customThemes r = customThemes s'.
Proof.
  intros Ht Hn Hfresh Hs'. cbv zeta.
  rewrite (selectTheme_found n s' (colorsAs n s) Hn).
  - repeat split.
  - rewrite Hs', saveCustomTheme_themes by exact Ht.
    rewrite findTheme_app in Hfresh |- *.
    destruct (findTheme n PRESET_THEMES); [discriminate|].
    rewrite <- app_assoc, findTheme_app, Hfresh.
    unfold findTheme. cbn [app List.find colorsAs name].
    assert (E : streq n n = true) by (apply streq_true; reflexivity).
    rewrite E. reflexivity.
Qed.

Lemma saved_theme_restores_colours_witness :
  let s := mkThemeSettings (lit "Custom") [] (lit "#101010") (lit "#202020")
                           (lit "#303030") (lit "#404040") (lit "#505050") in
  let s' := selectTheme (lit "Dark") (saveCustomTheme (Some (lit "Mine")) s) in
  truthy (lit "Mine") = true
  /\ colorsAs (lit "Mine") (selectTheme (lit "Mine") s') = colorsAs (lit "Mine") s.
Proof.
  cbv zeta.
  assert (Ht : truthy (lit "Mine") = true) by reflexivity.
  split; [exact Ht|].
  refine (proj1 (proj2
            (saved_theme_restores_colours (lit "Mine") _ _ [] Ht _ _ _))).
  - intros H. discriminate H.
  - vm_compute. reflexivity.
  - vm_compute. reflexivity.
Defined.

(** X19. A theme saved under a name that is already taken is out of
    reach.  If the name resolves to a preset, or else to an older custom
    theme, then choosing the name after saving applies that earlier theme's
    colours, not the ones just saved; the saved theme is in the list all the
    same. *)
Theorem earlier_theme_shadows_saved_one
        (n : jsstring) (s : ThemeSettings) (t : MindMapTheme) :
  truthy n = true ->
  n <> lit "Custom" ->
  findTheme n (PRESET_THEMES ++ customThemes s) = Some t ->
  let saved := saveCustomTheme (Some n) s in
  let r := selectTheme n saved in
  colorsAs n r = t
  /\ In (colorsAs n s) (customThemes saved)
  /\ currentTheme saved = n.
Proof.
  intros Ht Hn Hf. cbv zeta.
  assert (Hf' : findTheme n (PRESET_THEMES
                             ++ customThemes (saveCustomTheme (Some n) s))
                = Some t).
  { rewrite saveCustomTheme_themes by exact Ht.
    rewrite app_assoc, findTheme_app, Hf. reflexivity. }
  rewrite (selectTheme_found n _ t Hn Hf').
  split.
  - pose proof (findTheme_name _ _ _ Hf) as <-. destruct t; reflexivity.
  - split.
    + rewrite saveCustomTheme_themes by exact Ht.
      apply in_or_app. right. left. reflexivity.
    + unfold saveCustomTheme. rewrite Ht. reflexivity.
Qed.

Lemma earlier_theme_shadows_saved_one_witness :
  let s := mkThemeSettings (lit "Custom") [] (lit "#101010") (lit "#202020")
                           (lit "#303030") (lit "#404040") (lit "#505050") in
  truthy (lit "Dark") = true
  /\ colorsAs (lit "Dark")
       (selectTheme (lit "Dark") (saveCustomTheme (Some (lit "Dark")) s))
     = theme "Dark" "#1e1e1e" "#e0e0e0" "#2d2d2d" "#7c7c7c" "#7c7c7c".
Proof.
  cbv zeta.
  assert (Ht : truthy (lit "Dark") = true) by reflexivity.
  split; [exact Ht|].
  refine (proj1 (earlier_theme_shadows_saved_one (lit "Dark") _ _ Ht _ _)).
  - intros H. discriminate H.
  - vm_compute. reflexivity.
Defined.

Lemma filter_other_names n l :
  findTheme n (List.filter (fun t => negb (streq (name t) n)) l) = None.
Proof.
  unfold findTheme. induction l as [|t l IH]; [reflexivity|].
  cbn [List.filter]. destruct (streq (name t) n) eqn:E; cbn [negb]; [exact IH|].
  cbn [List.find]. rewrite E. exact IH.
Qed.

(** X20. Deleting a custom theme removes every custom theme of that name
    and no other.  If it was the current theme, the current theme becomes
    Default and the colours become those of the Default preset; otherwise
    current theme and colours stay as they are. *)
Theorem delete_custom_theme_effect (n : jsstring) (s : ThemeSettings) :
  truthy n = true ->
  let r := deleteCustomTheme n s in
  findTheme n (customThemes r) = None
  /\ (forall t, name t <> n -> In t (customThemes r) <-> In t (customThemes s))
  /\ (currentTheme s = n ->
      currentTheme r = lit "Default"
      /\ findTheme (lit "Default") PRESET_THEMES
         = Some (colorsAs (lit "Default") r))
  /\ (currentTheme s <> n ->
      currentTheme r = currentTheme s /\ colorsAs n r = colorsAs n s).
Proof.
  intros Ht. cbv zeta. unfold deleteCustomTheme. rewrite Ht.
  set (kept := List.filter (fun t => negb (streq (name t) n)) (customThemes s)).
  assert (Hkept : forall t, name t <> n -> In t kept <-> In t (customThemes s)).
  { intros t Hne. unfold kept. rewrite filter_In.
    apply streq_false in Hne. rewrite Hne. cbn [negb]. tauto. }
  destruct (streq (currentTheme s) n) eqn:Hcur.
  - apply streq_true in Hcur.
    split; [apply filter_other_names|].
    split; [exact Hkept|].
    split; [intros _; split; reflexivity|].
    intros Hne. contradiction.
  - apply streq_false in Hcur.
    split; [apply filter_other_names|].
    split; [exact Hkept|].
    split; [intros E; contradiction|].
    intros _. split; reflexivity.
Qed.

Lemma delete_custom_theme_effect_witness :
  let s := mkThemeSettings (lit "Mine")
                           [theme "Mine" "#111111" "#222222" "#333333"
                                  "#444444" "#555555"]
                           (lit "#111111") (lit "#222222") (lit "#333333")
                           (lit "#444444") (lit "#555555") in
  truthy (lit "Mine") = true
  /\ findTheme (lit "Mine") (customThemes (deleteCustomTheme (lit "Mine") s))
     = None
  /\ currentTheme (deleteCustomTheme (lit "Mine") s) = lit "Default".
Proof.
  cbv zeta.
  assert (Ht : truthy (lit "Mine") = true) by reflexivity.
  split; [exact Ht|].
  destruct (delete_custom_theme_effect (lit "Mine")
              (mkThemeSettings (lit "Mine")
                               [theme "Mine" "#111111" "#222222" "#333333"
                                      "#444444" "#555555"]
                               (lit "#111111") (lit "#222222") (lit "#333333")
                               (lit "#444444") (lit "#555555")) Ht)
    as (H1 & _ & H3 & _).
  split; [exact H1|]. exact (proj1 (H3 eq_refl)).
Defined.

End ThemeFacts.

(* ================================================================== *)
(** ** A click on a collapse indicator *)
(* ================================================================== *)

Module ClickFacts.
Import JsString Tree Parser Renderer Drawing Controls Vocabulary
       ButtonVocabulary TreeFacts StoreFacts SessionFacts OrderFacts
       ButtonFacts.











End ClickFacts.

(* ================================================================== *)
(** ** Nesting *)
(* ================================================================== *)

Module NestingFacts.
Import JsString Tree Parser Vocabulary Preorder Nesting NestingStates TreeFacts
       StoreFacts HeapFacts PreorderFacts.

(** *** The stack discipline in general *)

Lemma stackOK_grow K D a b stack :
  stackOK K D stack -> stackOK (K ++ a) (D ++ b) stack.
Proof.
  induction stack as [|[n k] rest IH]; [exact (fun H => H)|].
  cbn [stackOK]. intros [Hk Hrest].
  pose proof (lookup_lt_Some _ _ _ Hk) as Hn.
  split; [apply lookup_app_l_Some, Hk|].
  destruct rest as [|[n' k'] rest'].
  - destruct Hrest as [Hgap Hd]. split.
    + intros x kx Hx Hkx. rewrite lookup_app_l in Hkx by lia. eauto.
    + apply lookup_app_l_Some, Hd.
  - destruct Hrest as (Hlt & Hnn & (d' & Hd' & Hd) & Hgap & Hok).
    split; [exact Hlt|]. split; [exact Hnn|].
    split; [exists d'; split; apply lookup_app_l_Some; assumption|].
    split; [|apply IH, Hok].
    intros x kx Hx Hkx. rewrite lookup_app_l in Hkx by lia. eauto.
Qed.

(** Popping keeps the stack in order and leaves a parent with a smaller
    key, everything after it having a key of at least [w]. *)
Lemma pop_spec K D w N stack :
  stackOK K D stack -> gapAbove K w N stack ->
  stackOK K D (pop w stack)
  /\ gapAbove K w N (pop w stack)
  /\ match pop w stack with
     | (_, kp) :: _ => (kp < w)%nat
     | [] => True
     end.
Proof.
  induction stack as [|[n k] rest IH]; intros Hok Hgap.
  - cbn [pop]. auto.
  - cbn [pop]. destruct (w <=? k)%nat eqn:Hw.
    + apply Nat.leb_le in Hw. cbn [stackOK] in Hok. destruct Hok as [Hk Hrest].
      apply IH.
      * destruct rest as [|[n' k'] rest']; [exact I|]. apply Hrest.
      * cbn [gapAbove] in Hgap.
        destruct rest as [|[n' k'] rest']; cbn [gapAbove].
        -- destruct Hrest as [Hbelow _]. intros x kx Hx Hkx.
           destruct (lt_eq_lt_dec x n) as [[Hlt|Heq]|Hgt].
           ++ specialize (Hbelow x kx Hlt Hkx). lia.
           ++ subst x. rewrite Hk in Hkx. injection Hkx as <-. exact Hw.
           ++ apply (Hgap x kx); [lia|exact Hkx].
        -- destruct Hrest as (_ & _ & _ & Hbetween & _). intros x kx Hx Hkx.
           destruct (lt_eq_lt_dec x n) as [[Hlt|Heq]|Hgt].
           ++ specialize (Hbetween x kx (conj (proj1 Hx) Hlt) Hkx). lia.
           ++ subst x. rewrite Hk in Hkx. injection Hkx as <-. exact Hw.
           ++ apply (Hgap x kx); [lia|exact Hkx].
    + apply Nat.leb_gt in Hw. auto.
Qed.

Lemma stackOK_top K D n k rest : stackOK K D ((n, k) :: rest) -> K !! n = Some k.
Proof. cbn [stackOK]. tauto. Qed.

Lemma Building_empty : Building [] [] [] [].
Proof.
  unfold Building. repeat split; try reflexivity.
  - intros p cs c dp Hp. rewrite lookup_nil in Hp. discriminate.
  - intros H. congruence.
  - intros d H. rewrite lookup_nil in H. discriminate.
  - intros j _ k d H. rewrite lookup_nil in H. discriminate.
Qed.

(** The first object, with no parent. *)
Lemma Building_first w : Building [[]] [w] [0%nat] [(0%nat, w)].
Proof.
  unfold Building. repeat split; try reflexivity.
  - intros p cs c dp Hp Hc. destruct p as [|p]; cbn in Hp.
    + injection Hp as <-. destruct Hc.
    + try rewrite lookup_nil in Hp. discriminate.
  - intros x kx Hx. lia.
  - intros _. exists w, []. reflexivity.
  - intros d H. cbn in H. congruence.
  - intros j Hj k d Hk. destruct j as [|j]; [lia|].
    cbn in Hk. try rewrite lookup_nil in Hk. discriminate.
Qed.

(** A further object: the stack is popped, the object is appended to the
    children of its parent and pushed. *)
Lemma Building_push g K D stack w :
  Building g K D stack -> g <> [] ->
  exists cs dp,
    g !! parentOf (pop w stack) = Some cs
    /\ D !! parentOf (pop w stack) = Some dp
    /\ Building (<[parentOf (pop w stack) := cs ++ [length g]]> (g ++ [[]]))
                (K ++ [w]) (D ++ [S dp])
                ((length g, w) :: pop w stack).
Proof.
  intros (HK & HD & Hdep & Hst & Htop & Hroot & Hnest) Hne.
  destruct (Htop Hne) as (ktop & rest & Hstack).
  set (n := length g) in *.
  assert (Hn : (1 <= n)%nat) by (destruct g; [congruence|cbn in n; lia]).
  assert (Hgap0 : gapAbove K w n stack).
  { rewrite Hstack. cbn [gapAbove]. intros x kx Hx. lia. }
  destruct (pop_spec K D w n stack Hst Hgap0) as (Hpok & Hpgap & Hplt).
  set (popped := pop w stack) in *.
  set (p := parentOf popped).
  assert (Hp : (p < n)%nat).
  { unfold p. destruct popped as [|[p0 kp] popped']; cbn [parentOf]; [lia|].
    apply stackOK_top, lookup_lt_Some in Hpok. lia. }
  destruct (lookup_lt_is_Some_2 g p ltac:(fold n; lia)) as [cs Hcs].
  destruct (lookup_lt_is_Some_2 D p ltac:(lia)) as [dp Hdp].
  exists cs, dp. split; [exact Hcs|]. split; [exact Hdp|].
  assert (HKn : (K ++ [w]) !! n = Some w)
    by (apply list_lookup_middle; lia).
  assert (HDn : (D ++ [S dp]) !! n = Some (S dp))
    by (apply list_lookup_middle; lia).
  unfold Building.
  split; [rewrite length_insert, !length_app; cbn; lia|].
  split; [rewrite length_insert, !length_app; cbn; lia|].
  split.
  { (* depthOK *)
    intros q cs' c dq Hq Hc Hdq.
    apply list_lookup_insert_Some in Hq as [(<- & <- & _)|(Hqp & Hq)].
    - rewrite lookup_app_l in Hdq by lia. rewrite Hdp in Hdq.
      injection Hdq as <-.
      apply in_app_or in Hc as [Hc|[<-|[]]].
      + apply lookup_app_l_Some. exact (Hdep _ _ _ _ Hcs Hc Hdp).
      + exact HDn.
    - apply lookup_snoc_Some in Hq as [[Hlt Hq]|[_ <-]]; [|destruct Hc].
      rewrite lookup_app_l in Hdq by lia.
      apply lookup_app_l_Some. exact (Hdep _ _ _ _ Hq Hc Hdq). }
  assert (Hold : forall x kx, (x < n)%nat -> (K ++ [w]) !! x = Some kx ->
                              K !! x = Some kx).
  { intros x kx Hx Hkx. rewrite lookup_app_l in Hkx by lia. exact Hkx. }
  split.
  { (* stackOK *)
    cbn [stackOK]. split; [exact HKn|].
    destruct popped as [|[p0 kp] popped'] eqn:Hpopped.
    - cbn [gapAbove] in Hpgap. split.
      + intros x kx Hx Hkx. eauto.
      + assert (Ep : p = 0%nat) by reflexivity.
        rewrite Ep in Hdp. rewrite (Hroot dp Hdp) in HDn |- *.
        replace (n =? 0)%nat with false
          by (symmetry; apply Nat.eqb_neq; lia).
        exact HDn.
    - cbn [gapAbove] in Hpgap.
      assert (Ep : p = p0) by reflexivity. rewrite Ep in *.
      split; [exact Hplt|]. split; [exact Hp|].
      split; [exists dp; split; [apply lookup_app_l_Some, Hdp|exact HDn]|].
      split; [intros x kx Hx Hkx; apply (Hpgap x kx Hx); apply Hold; [lia|exact Hkx]|].
      apply stackOK_grow, Hpok. }
  split.
  { intros _. exists w, popped. rewrite length_insert, length_app. cbn.
    f_equal. f_equal. fold n. lia. }
  split.
  { intros d Hd. rewrite lookup_app_l in Hd by lia. exact (Hroot d Hd). }
  (* the nesting rule *)
  intros j Hj k d Hk Hd.
  destruct (lt_eq_lt_dec j n) as [[Hlt|Heq]|Hgt].
  - rewrite lookup_app_l in Hk, Hd by lia.
    destruct (Hnest j Hj k d Hk Hd) as [[Hnone ->]|(i & ki & di & Hi & Hki & Hlt' & Hbetween & Hdi & ->)].
    + left. split; [|reflexivity]. intros i ki Hi Hki.
      apply (Hnone i ki Hi). apply Hold; [lia|exact Hki].
    + right. exists i, ki, di. split; [exact Hi|].
      split; [apply lookup_app_l_Some, Hki|]. split; [exact Hlt'|].
      split; [|split; [apply lookup_app_l_Some, Hdi|reflexivity]].
      intros x kx Hx Hkx. apply (Hbetween x kx Hx). apply Hold; [lia|exact Hkx].
  - subst j. rewrite HKn in Hk. rewrite HDn in Hd.
    injection Hk as <-. injection Hd as <-.
    destruct popped as [|[p0 kp] popped'] eqn:Hpopped.
    + cbn [gapAbove] in Hpgap. left.
      assert (Ep : p = 0%nat) by reflexivity.
      rewrite Ep in Hdp. rewrite (Hroot dp Hdp). split; [|reflexivity].
      intros i ki Hi Hki. apply (Hpgap i ki Hi). apply Hold; assumption.
    + cbn [gapAbove] in Hpgap. right.
      assert (Ep : p = p0) by reflexivity. rewrite Ep in *.
      exists p0, kp, dp. split; [exact Hp|].
      split; [apply lookup_app_l_Some, (stackOK_top _ _ _ _ _ Hpok)|].
      split; [exact Hplt|].
      split; [|split; [apply lookup_app_l_Some, Hdp|reflexivity]].
      intros x kx Hx Hkx. apply (Hpgap x kx Hx). apply Hold; [lia|exact Hkx].
  - rewrite lookup_ge_None_2 in Hk by (rewrite length_app; cbn; lia).
    discriminate.
Qed.

(** *** From the heap to the tree *)

Lemma depths_unfold d t : depths d t = d :: flat_map (depths (S d)) (children t).
Proof. destruct t; reflexivity. Qed.

(** The depths of the tree read at [i] are the depths recorded for the
    objects [i], [i+1], ..., [e-1]. *)
Lemma Pre_depths (h : Heap) (D : list nat) :
  forward h -> depthOK (kids h) D ->
  (forall i e, Pre (kids h) i e ->
     forall t d, snapshotFrom 0 h !! i = Some t -> D !! i = Some d ->
                 depths d t = take (e - i) (drop i D))
  /\ (forall s cs e, Chain (kids h) s cs e ->
        forall ts d,
          Forall2 (fun c t => snapshotFrom 0 h !! c = Some t) cs ts ->
          Forall (fun c => D !! c = Some d) cs ->
          flat_map (depths d) ts = take (e - s) (drop s D)).
Proof.
  intros Hf Hdep. apply Pre_Chain_ind.
  - intros i e cs Hi Hc IH t d Ht Hd.
    pose proof Hi as Hi'.
    apply kids_lookup in Hi as (o & Ho & <-).
    destruct (snapshot_faithful h i o Hf Ho) as (t' & Ht' & _ & _ & _ & _ & Hcs).
    unfold snapshot in Ht', Hcs. rewrite Ht in Ht'. injection Ht' as <-.
    pose proof (Chain_le _ _ _ _ Hc) as Hle.
    assert (Hkids : Forall (fun c => D !! c = Some (S d)) (o_children o)).
    { apply List.Forall_forall. intros c Hin. exact (Hdep _ _ _ _ Hi' Hin Hd). }
    rewrite depths_unfold, (IH _ _ Hcs Hkids), (drop_S _ _ _ Hd).
    replace (e - i)%nat with (S (e - S i)) by lia. reflexivity.
  - intros s ts d Hts _. inversion Hts; subst.
    rewrite Nat.sub_diag. reflexivity.
  - intros s cs e' e Hp IHp Hc IHc ts d Hts Hds.
    inversion Hts as [|? t ? ts' Ht Hts']; subst.
    inversion Hds as [|? ? Hd Hds']; subst.
    cbn [flat_map]. rewrite (IHp _ _ Ht Hd), (IHc _ _ Hts' Hds').
    apply take_drop_join; [apply Pre_lt in Hp; lia|exact (Chain_le _ _ _ _ Hc)].
Qed.

Lemma Pre_to_end_depths (h : Heap) (D : list nat) (i d : nat) t :
  forward h -> depthOK (kids h) D -> length D = length h ->
  Pre (kids h) i (length h) ->
  snapshot h (Some i) = Some t -> D !! i = Some d ->
  depths d t = drop i D.
Proof.
  intros Hf Hdep Hlen Hp Ht Hd.
  rewrite (proj1 (Pre_depths h D Hf Hdep) _ _ Hp t d Ht Hd).
  apply take_ge. rewrite length_drop. lia.
Qed.

(** *** List Mode *)

Lemma popIndents_pop w stack :
  Forall (fun e => (-1 <= l_indent e)%Z) stack ->
  (exists e, last stack = Some e /\ l_indent e = (-1)%Z) ->
  lstack (popIndents (Z.of_nat w) stack) = pop (S w) (lstack stack)
  /\ last (popIndents (Z.of_nat w) stack) = last stack.
Proof.
  induction stack as [|e rest IH]; intros Hall (b & Hlast & Hb).
  - discriminate.
  - apply Forall_cons in Hall as [He Hall].
    destruct rest as [|e' rest'].
    + cbn in Hlast. injection Hlast as <-.
      cbn [popIndents lstack map pop]. rewrite Hb. cbn. auto.
    + rewrite last_cons_cons in Hlast.
      cbn [popIndents]. change (lstack (e :: e' :: rest'))
        with ((l_node e, Z.to_nat (l_indent e + 1)) :: lstack (e' :: rest')).
      cbn [pop].
      destruct (Z.leb_spec (Z.of_nat w) (l_indent e)) as [Hle|Hgt];
        destruct (Nat.leb_spec (S w) (Z.to_nat (l_indent e + 1))) as [Hle'|Hgt'];
        try lia.
      * destruct IH as [IH1 IH2]; [exact Hall|eauto|].
        split; [exact IH1|].
        etransitivity; [exact IH2|]. rewrite last_cons_cons. reflexivity.
      * split; reflexivity.
Qed.

Lemma listStep_item_pop m st line parent rest :
  isItemLine line = true ->
  popIndents (Z.of_nat (getIndentWidth line)) (ls_stack st) = parent :: rest ->
  listStep m st line
  = mkLState
      (pushChild
         (ls_heap st
          ++ [newObj (listId (itemText line) (getIndentWidth line)
                             (ls_nodeIndex st))
                     (itemText line)
                     (getCollapsed m (listId (itemText line)
                                             (getIndentWidth line)
                                             (ls_nodeIndex st)))])
         (l_node parent) (length (ls_heap st)))
      (mkLEntry (length (ls_heap st))
                (Z.of_nat (length (parent :: rest)) - 1)
                (Z.of_nat (getIndentWidth line))
       :: parent :: rest)
      (S (ls_nodeIndex st)).
Proof.
  unfold isItemLine, listStep. intros H Hpop.
  apply andb_true_iff in H as [H1 H2]. apply negb_true_iff in H2.
  rewrite H1, H2. cbn [negb]. rewrite Hpop. reflexivity.
Qed.

Lemma lsInit_LNest m title : LNest [] [0%nat] (lsInit m title).
Proof.
  unfold LNest, lsInit. cbn [ls_heap ls_stack].
  split; [exact (Building_first 0)|].
  split; [repeat constructor; cbn; lia|].
  eexists. split; reflexivity.
Qed.

Lemma listStep_LNest m st line ws D :
  LNest ws D st ->
  exists D',
    LNest (ws ++ itemIndents [line]) D' (listStep m st line).
Proof.
  intros (Hb & Hall & Hlast).
  unfold itemIndents. cbn [List.filter].
  destruct (isItemLine line) eqn:Hitem.
  2:{ rewrite (listStep_skip _ _ _ Hitem). cbn [map]. rewrite app_nil_r.
      exists D. exact (conj Hb (conj Hall Hlast)). }
  cbn [map]. set (w := getIndentWidth line).
  destruct (popIndents_pop w (ls_stack st) Hall Hlast) as [Hpop Hlast'].
  assert (Hg : kids (ls_heap st) <> []).
  { destruct Hb as (HK & _). intros E. rewrite E in HK. discriminate HK. }
  destruct (Building_push _ _ _ _ (S w) Hb Hg) as (cs & dp & Hcs & Hdp & Hb').
  rewrite <- Hpop in Hcs, Hdp, Hb'.
  destruct (popIndents (Z.of_nat w) (ls_stack st)) as [|parent rest] eqn:Hpopped.
  { destruct Hlast as (e & He & _). rewrite <- Hlast' in He. discriminate He. }
  rewrite (listStep_item_pop m st line parent rest Hitem Hpopped).
  change (parentOf (lstack (parent :: rest))) with (l_node parent) in *.
  exists (D ++ [S dp]). unfold LNest. cbn [ls_heap ls_stack].
  rewrite (kids_alloc_push _ _ _ _ _ _ Hcs).
  split.
  - rewrite map_app. cbn [map].
    assert (E : lstack (mkLEntry (length (ls_heap st))
                                 (Z.of_nat (length (parent :: rest)) - 1)
                                 (Z.of_nat (getIndentWidth line))
                        :: parent :: rest)
                = (length (ls_heap st), S w) :: lstack (parent :: rest)).
    { unfold lstack. cbn [map l_node l_indent]. f_equal. f_equal.
      unfold w. lia. }
    rewrite E. rewrite kids_length in Hb' |- *. exact Hb'.
  - split.
    + constructor; [cbn; lia|].
      rewrite <- Hpopped. apply popIndents_sub, Hall.
    + rewrite last_cons_cons, Hlast'. exact Hlast.
Qed.

Lemma fold_listStep_LNest m (lines : list jsstring) :
  forall st ws D,
    LNest ws D st ->
    exists D', LNest (ws ++ itemIndents lines) D' (fold_left (listStep m) lines st).
Proof.
  induction lines as [|l ls IH]; intros st ws D H.
  - exists D. unfold itemIndents. cbn. rewrite app_nil_r. exact H.
  - cbn [fold_left].
    destruct (listStep_LNest m st l ws D H) as (D1 & H1).
    destruct (IH _ _ _ H1) as (D2 & H2).
    exists D2.
    replace (ws ++ itemIndents (l :: ls))
      with ((ws ++ itemIndents [l]) ++ itemIndents ls); [exact H2|].
    unfold itemIndents. rewrite <- app_assoc, <- map_app.
    f_equal. f_equal. cbn [List.filter].
    destruct (isItemLine l); reflexivity.
Qed.

Lemma listRun_LNest m lines :
  exists D,
    LNest (itemIndents (drop (snd (scanTitle 0 lines)) lines)) D (listRun m lines).
Proof.
  unfold listRun. destruct (scanTitle 0 lines) as [title start]. cbn [snd].
  exact (fold_listStep_LNest m (drop start lines) _ [] [0%nat]
           (lsInit_LNest m title)).
Qed.

Lemma lookup_shift (ws : list nat) (x : nat) :
  (0%nat :: map S ws) !! S x = option_map S (ws !! x).
Proof. change (map S ws !! x = option_map S (ws !! x)). apply lookup_map. Qed.

(** The rule for the items alone, the synthetic root left out: its key 0
    is smaller than every item's. *)
Lemma NestRule_items ws ds :
  (forall j, (1 <= j)%nat -> NestRule (0%nat :: map S ws) (0%nat :: ds) j) ->
  forall j, NestRule ws ds j.
Proof.
  intros H j w d Hw Hd.
  assert (HK : (0%nat :: map S ws) !! S j = Some (S w))
    by (rewrite lookup_shift, Hw; reflexivity).
  assert (HD : (0%nat :: ds) !! S j = Some d) by exact Hd.
  assert (Hshift : forall x kx, (0%nat :: map S ws) !! S x = Some kx ->
                                exists wx, ws !! x = Some wx /\ kx = S wx).
  { intros x kx Hx. rewrite lookup_shift in Hx.
    destruct (ws !! x) as [wx|]; [|discriminate].
    cbn in Hx. injection Hx as <-. eauto. }
  destruct (H (S j) ltac:(lia) (S w) d HK HD)
    as [[Hnone _]|(i & ki & di & Hi & Hki & Hlt & Hbetween & Hdi & ->)].
  - specialize (Hnone 0%nat 0%nat ltac:(lia) eq_refl). lia.
  - destruct i as [|i].
    + cbn in Hdi. injection Hdi as <-. left. split; [|reflexivity].
      intros i wi Hi' Hwi.
      assert (Hk : (0%nat :: map S ws) !! S i = Some (S wi))
        by (rewrite lookup_shift, Hwi; reflexivity).
      specialize (Hbetween (S i) (S wi) ltac:(lia) Hk). lia.
    + destruct (Hshift i ki Hki) as (wi & Hwi & ->).
      right. exists i, wi, di. split; [lia|]. split; [exact Hwi|].
      split; [lia|]. split; [|split; [exact Hdi|reflexivity]].
      intros x wx Hx Hwx.
      assert (Hk : (0%nat :: map S ws) !! S x = Some (S wx))
        by (rewrite lookup_shift, Hwx; reflexivity).
      specialize (Hbetween (S x) (S wx) ltac:(lia) Hk). lia.
Qed.

(** Which object List Mode returns: the synthetic root, or its only child. *)
Lemma parseListMode_root_index m lines :
  exists i t,
    (i = 0%nat \/ i = 1%nat)
    /\ parseListMode m lines = Some t
    /\ snapshot (ls_heap (listRun m lines)) (Some i) = Some t
    /\ Pre (kids (ls_heap (listRun m lines))) i
           (length (ls_heap (listRun m lines))).
Proof.
  pose proof (listRun_Pre m lines) as Hp.
  destruct (listRun_LInv m lines) as (Hf & _ & _ & root & Hroot & _).
  unfold parseListMode, parseListModeRef. rewrite Hroot.
  set (h := ls_heap (listRun m lines)) in *.
  destruct (snapshot_allocated h 0 (Pre_lt _ _ _ Hp)) as [t0 Ht0].
  assert (Hkept : exists i t,
             (i = 0%nat \/ i = 1%nat)
             /\ snapshot h (Some 0%nat) = Some t
             /\ snapshot h (Some i) = Some t
             /\ Pre (kids h) i (length h)).
  { exists 0%nat, t0. split; [left; reflexivity|]. repeat split; assumption. }
  destruct (o_children root) as [|only [|other more]] eqn:Hcs;
    [exact Hkept| |exact Hkept].
  unfold streq. case_bool_decide as Htitle; [|exact Hkept].
  inversion Hp as [? ? cs Hk Hc]; subst.
  apply kids_lookup in Hk as (o & Ho & <-).
  rewrite Hroot in Ho. injection Ho as <-. rewrite Hcs in Hc.
  inversion Hc as [|? ? e' ? Hp1 Hc1]; subst.
  inversion Hc1; subst.
  destruct (snapshot_allocated h 1 (Pre_lt _ _ _ Hp1)) as [t1 Ht1].
  exists 1%nat, t1. split; [right; reflexivity|]. repeat split; assumption.
Qed.

(** X22. List Mode nests by indentation.  With the items in source order
    (the order of the nodes in the result, see X1), every item hangs under
    the nearest earlier item of smaller indentation width, one level below
    it; an item with no such predecessor is a top-level item.  Depths are
    counted from the synthetic root, whether the result is that root or,
    the root being elided, its only child. *)
Theorem list_nesting_follows_indentation (m : Store) (lines : list jsstring) :
  let ws := itemIndents (drop (snd (scanTitle 0 lines)) lines) in
  exists t ds,
    parseListMode m lines = Some t
    /\ length ds = length ws
    /\ (forall j, NestRule ws ds j)
    /\ ((id t = lit "root" /\ depths 0 t = 0%nat :: ds)
        \/ (id t <> lit "root" /\ depths 1 t = ds)).
Proof.
  cbv zeta.
  destruct (listRun_LNest m lines) as (D & Hb & _).
  destruct Hb as (HK & HD & Hdep & _ & _ & Hroot & Hnest).
  destruct (listRun_LInv m lines) as (Hf & _ & _ & root & Hr & Hrid & _).
  destruct (listRun_LIds m lines) as [_ Hids].
  set (h := ls_heap (listRun m lines)) in *.
  set (ws := itemIndents (drop (snd (scanTitle 0 lines)) lines)) in *.
  rewrite kids_length in HK, HD. cbn [length] in HK. rewrite length_map in HK.
  destruct D as [|d0 ds]; [cbn in HD; lia|].
  pose proof (Hroot d0 eq_refl) as ->.
  assert (Hlen : length ds = length ws) by (cbn [length] in HD; lia).
  pose proof (NestRule_items ws ds Hnest) as Hrule.
  destruct (parseListMode_root_index m lines) as (i & t & Hi & Ht & Hsnap & Hp).
  fold h in Hsnap, Hp.
  exists t, ds. split; [exact Ht|]. split; [exact Hlen|]. split; [exact Hrule|].
  destruct Hi as [-> | ->].
  - left. split.
    + destruct (snapshot_faithful h 0 root Hf Hr) as (t' & Ht' & Hid & _).
      rewrite Hsnap in Ht'. injection Ht' as <-. rewrite Hid. exact Hrid.
    + exact (Pre_to_end_depths h (0%nat :: ds) 0 0 t Hf Hdep HD Hp Hsnap eq_refl).
  - right.
    pose proof (Pre_lt _ _ _ Hp) as Hlt.
    destruct (lookup_lt_is_Some_2 h 1 Hlt) as [o Ho].
    split.
    + destruct (snapshot_faithful h 1 o Hf Ho) as (t' & Ht' & Hid & _).
      rewrite Hsnap in Ht'. injection Ht' as <-. rewrite Hid.
      destruct (Hids 1%nat o Ho) as (tx & a & ->). apply listId_not_root.
    + assert (Hw : exists w, ws !! 0%nat = Some w)
        by (apply lookup_lt_is_Some_2; lia).
      destruct Hw as [w Hw].
      assert (Hd : exists d, ds !! 0%nat = Some d)
        by (apply lookup_lt_is_Some_2; lia).
      destruct Hd as [d Hd].
      assert (Hd1 : d = 1%nat).
      { destruct (Hrule 0%nat w d Hw Hd)
          as [[_ ->]|(i & ki & di & Hi & _)]; [reflexivity|lia]. }
      subst d.
      exact (Pre_to_end_depths h (0%nat :: ds) 1 1 t Hf Hdep HD Hp Hsnap Hd).
Qed.

(** *** Heading Mode *)

Lemma popLevels_pop level stack :
  hstack (popLevels level stack) = pop level (hstack stack).
Proof.
  induction stack as [|e rest IH]; [reflexivity|].
  cbn [popLevels hstack map pop]. fold (hstack rest).
  destruct (level <=? h_level e)%nat; [exact IH|reflexivity].
Qed.

Lemma flushNote_HNest ls D st : HNest ls D st -> HNest ls D (flushNote st).
Proof.
  destruct st as [h root stack cur notes index].
  unfold HNest, flushNote.
  cbn [hs_heap hs_root hs_stack hs_currentNode hs_noteLines hs_nodeIndex].
  destruct cur as [cur|]; [|auto].
  destruct notes as [|n ns]; [auto|].
  cbn [hs_heap hs_root hs_stack]. rewrite kids_setNote.
  intros [Hb Hroot]. split; [exact Hb|].
  pose proof (length_setNote h cur (trim (join (n :: ns)))) as Hlen.
  destruct root as [r|].
  - destruct Hroot as [-> Hne]. split; [reflexivity|].
    intros E. rewrite E in Hlen. destruct h; [congruence|discriminate].
  - destruct Hroot as [-> ->]. split; reflexivity.
Qed.

Lemma headingStep_HNest m st line ls D :
  HNest ls D st ->
  exists D', HNest (ls ++ headingLevels [line]) D' (headingStep m st line).
Proof.
  intros H.
  assert (HL : headingLevels [line]
               = match matchHeading (trim line) with
                 | Some (level, _) => [level]
                 | None => []
                 end).
  { unfold headingLevels.
    change (omap headingLevel [line])
      with (match headingLevel line with Some y => [y] | None => [] end).
    unfold headingLevel.
    destruct (matchHeading (trim line)) as [[? ?]|]; reflexivity. }
  rewrite HL. clear HL.
  unfold headingStep. cbv zeta.
  destruct (matchHeading (trim line)) as [[level captured]|].
  2:{ rewrite app_nil_r. exists D.
      destruct (truthy (trim line)); exact H. }
  apply flushNote_HNest in H.
  set (st1 := flushNote st) in *. destruct H as [Hb Hroot].
  destruct (hs_root st1) as [r|] eqn:Hr.
  - destruct Hroot as [-> Hne].
    assert (Hg : kids (hs_heap st1) <> []).
    { intros E. apply Hne. destruct (hs_heap st1); [reflexivity|discriminate]. }
    destruct (Building_push _ _ _ _ level Hb Hg) as (cs & dp & Hcs & Hdp & Hb').
    rewrite <- popLevels_pop in Hcs, Hdp, Hb'.
    exists (D ++ [S dp]). unfold HNest. cbn [hs_heap hs_root hs_stack].
    split.
    + assert (E : kids (match popLevels level (hs_stack st1) with
                        | parent :: _ =>
                            pushChild (hs_heap st1 ++ [newObj
                              (headingId (trim captured) level (hs_nodeIndex st1))
                              (trim captured)
                              (getCollapsed m (headingId (trim captured) level
                                                         (hs_nodeIndex st1)))])
                                      (h_node parent) (length (hs_heap st1))
                        | [] =>
                            pushChild (hs_heap st1 ++ [newObj
                              (headingId (trim captured) level (hs_nodeIndex st1))
                              (trim captured)
                              (getCollapsed m (headingId (trim captured) level
                                                         (hs_nodeIndex st1)))])
                                      0 (length (hs_heap st1))
                        end)
                  = <[parentOf (hstack (popLevels level (hs_stack st1)))
                      := cs ++ [length (kids (hs_heap st1))]]>
                      (kids (hs_heap st1) ++ [[]])).
      { destruct (popLevels level (hs_stack st1)) as [|parent rest];
          apply kids_alloc_push; exact Hcs. }
      rewrite E.
      change (hstack (mkHEntry (length (hs_heap st1)) level
                      :: popLevels level (hs_stack st1)))
        with ((length (hs_heap st1), level)
              :: hstack (popLevels level (hs_stack st1))).
      rewrite kids_length in Hb' |- *. exact Hb'.
    + split; [reflexivity|].
      intros E.
      assert (Hlen : length (match popLevels level (hs_stack st1) with
                             | parent :: _ =>
                                 pushChild (hs_heap st1 ++ [newObj
                                   (headingId (trim captured) level (hs_nodeIndex st1))
                                   (trim captured)
                                   (getCollapsed m (headingId (trim captured) level
                                                              (hs_nodeIndex st1)))])
                                           (h_node parent) (length (hs_heap st1))
                             | [] =>
                                 pushChild (hs_heap st1 ++ [newObj
                                   (headingId (trim captured) level (hs_nodeIndex st1))
                                   (trim captured)
                                   (getCollapsed m (headingId (trim captured) level
                                                              (hs_nodeIndex st1)))])
                                           0 (length (hs_heap st1))
                             end) = S (length (hs_heap st1))).
      { destruct (popLevels level (hs_stack st1));
          rewrite length_pushChild, length_app; cbn; lia. }
      rewrite E in Hlen. discriminate Hlen.
  - destruct Hroot as [Hh Hs].
    destruct Hb as (HK & _).
    rewrite Hh in HK. cbn in HK. destruct ls; [|discriminate].
    exists [0%nat]. unfold HNest. cbn [hs_heap hs_root hs_stack].
    rewrite Hh, Hs. cbn [app length kids map o_children newObj hstack h_node h_level].
    split; [exact (Building_first level)|]. split; [reflexivity|discriminate].
Qed.

Lemma fold_headingStep_HNest m (lines : list jsstring) :
  forall st ls D,
    HNest ls D st ->
    exists D', HNest (ls ++ headingLevels lines) D'
                     (fold_left (headingStep m) lines st).
Proof.
  induction lines as [|l rest IH]; intros st ls D H.
  - exists D. unfold headingLevels. cbn. rewrite app_nil_r. exact H.
  - cbn [fold_left].
    destruct (headingStep_HNest m st l ls D H) as (D1 & H1).
    destruct (IH _ _ _ H1) as (D2 & H2).
    exists D2.
    replace (ls ++ headingLevels (l :: rest))
      with ((ls ++ headingLevels [l]) ++ headingLevels rest); [exact H2|].
    unfold headingLevels. rewrite <- app_assoc. f_equal.
    change (omap headingLevel (l :: rest))
      with (match headingLevel l with
            | Some y => y :: omap headingLevel rest
            | None => omap headingLevel rest
            end).
    change (omap headingLevel [l])
      with (match headingLevel l with Some y => [y] | None => [] end).
    destruct (headingLevel l); reflexivity.
Qed.

Lemma headingRun_HNest m lines :
  exists D, HNest (headingLevels lines) D (headingRun m lines).
Proof.
  unfold headingRun.
  destruct (fold_headingStep_HNest m lines hsInit [] []) as (D & H).
  - split; [exact Building_empty|]. cbn. split; reflexivity.
  - exists D. apply flushNote_HNest, H.
Qed.

(** X23. Heading Mode nests by level.  The first heading is the root; with
    the headings in source order (the order of the nodes in the result, see
    X2), every later heading hangs under the nearest earlier heading with
    fewer hashes, one level below it, and under the root when no earlier
    heading has fewer.  Without a heading the result is [null]. *)
Theorem heading_nesting_follows_levels (m : Store) (lines : list jsstring) :
  let ls := headingLevels lines in
  match parseHeadingsMode m lines with
  | Some t =>
      length (depths 0 t) = length ls
      /\ forall j, (1 <= j)%nat -> NestRule ls (depths 0 t) j
  | None => ls = []
  end.
Proof.
  cbv zeta.
  destruct (headingRun_HNest m lines) as (D & Hb & Hroot).
  pose proof (headingRun_HOpen m lines) as Ho.
  destruct (parseHeadingsMode_forward m lines) as (Hf & _).
  unfold parseHeadingsMode, parseHeadingsModeRef in *. cbn [fst snd] in Hf.
  unfold HOpen in Ho.
  set (st := headingRun m lines) in *.
  destruct Hb as (HK & HD & Hdep & _ & _ & Hd0 & Hnest).
  rewrite kids_length in HK, HD.
  destruct (hs_root st) as [r|].
  - destruct Ho as [-> Ho]. destruct Hroot as [_ Hne].
    pose proof (Open_bottom _ _ _ Ho (hpath_last (hs_stack st))) as Hp.
    rewrite kids_length in Hp.
    destruct (snapshot_allocated (hs_heap st) 0 (Pre_lt _ _ _ Hp)) as [t Ht].
    rewrite Ht.
    destruct (lookup_lt_is_Some_2 D 0 ltac:(pose proof (Pre_lt _ _ _ Hp); lia))
      as [d0 Hd].
    pose proof (Hd0 d0 Hd) as ->.
    rewrite (Pre_to_end_depths (hs_heap st) D 0 0 t Hf Hdep HD Hp Ht Hd).
    rewrite drop_0. split; [congruence|exact Hnest].
  - destruct Hroot as [Hh _]. rewrite Hh in HK. cbn in HK.
    destruct (headingLevels lines); [reflexivity|discriminate].
Qed.

End NestingFacts.

(* ================================================================== *)
(** ** Notes *)
(* ================================================================== *)

Module NoteFacts.
Import JsString Tree Parser Vocabulary Preorder Notes TreeFacts StoreFacts
       HeapFacts PreorderFacts.

Lemma notes_pushChild h p c : map o_note (pushChild h p c) = map o_note h.
Proof.
  unfold pushChild. destruct (h !! p) as [o|] eqn:Ho; [|reflexivity].
  rewrite <- insert_map. cbn [o_note].
  apply list_insert_id. rewrite lookup_map, Ho. reflexivity.
Qed.

Lemma notes_setNote h r n :
  (r < length h)%nat ->
  map o_note (setNote h r n) = <[r := Some n]> (map o_note h).
Proof.
  intros Hr. unfold setNote.
  destruct (lookup_lt_is_Some_2 h r Hr) as [o Ho]. rewrite Ho.
  rewrite <- insert_map. reflexivity.
Qed.

(** A line that is no heading only adds to the note lines. *)
Lemma headingStep_body m st line :
  isHeadingLine line = false ->
  headingStep m st line
  = mkHState (hs_heap st) (hs_root st) (hs_stack st) (hs_currentNode st)
             (hs_noteLines st ++ List.filter truthy [trim line])
             (hs_nodeIndex st).
Proof.
  unfold isHeadingLine, headingStep. cbv zeta.
  destruct (matchHeading (trim line)) as [[level captured]|]; [discriminate|].
  intros _. cbn [List.filter].
  destruct (truthy (trim line)); [reflexivity|].
  rewrite app_nil_r. destruct st; reflexivity.
Qed.

Lemma fold_headingStep_body m (body : list jsstring) :
  forall st,
    Forall (fun l => isHeadingLine l = false) body ->
    fold_left (headingStep m) body st
    = mkHState (hs_heap st) (hs_root st) (hs_stack st) (hs_currentNode st)
               (hs_noteLines st ++ List.filter truthy (map trim body))
               (hs_nodeIndex st).
Proof.
  induction body as [|l body IH]; intros st Hb.
  - cbn. rewrite app_nil_r. destruct st; reflexivity.
  - apply Forall_cons in Hb as [Hl Hb].
    cbn [fold_left]. rewrite IH by exact Hb.
    rewrite (headingStep_body m st l Hl).
    cbn [hs_heap hs_root hs_stack hs_currentNode hs_noteLines hs_nodeIndex].
    rewrite <- app_assoc. f_equal. f_equal.
    cbn [map List.filter]. destruct (truthy (trim l)); reflexivity.
Qed.

(** Flushing between two headings settles the note of the current node. *)
Lemma flushNote_NoteInv done st :
  NoteInv done st ->
  hs_root (flushNote st) = hs_root st
  /\ hs_currentNode (flushNote st) = hs_currentNode st
  /\ map o_note (hs_heap (flushNote st))
     = done ++ [noteOfLines (hs_noteLines st)]
  /\ (hs_noteLines st <> [] -> hs_noteLines (flushNote st) = []).
Proof.
  destruct st as [h root stack cur notes index].
  unfold NoteInv, flushNote.
  cbn [hs_heap hs_root hs_stack hs_currentNode hs_noteLines hs_nodeIndex].
  intros (_ & -> & Hn).
  destruct notes as [|n ns].
  - cbn [hs_heap hs_root hs_currentNode hs_noteLines noteOfLines].
    split; [reflexivity|]. split; [reflexivity|]. split; [exact Hn|congruence].
  - cbn [hs_heap hs_root hs_currentNode hs_noteLines noteOfLines].
    split; [reflexivity|]. split; [reflexivity|]. split; [|reflexivity].
    assert (Hlen : (length done < length h)%nat).
    { rewrite <- (length_map o_note), Hn, length_app. cbn. lia. }
    rewrite (notes_setNote _ _ _ Hlen), Hn.
    rewrite insert_app_r_alt by lia. rewrite Nat.sub_diag. reflexivity.
Qed.

(** One section: a heading and the lines below it. *)
Lemma section_NoteInv m done st s :
  NoteInv done st -> wellFormedSection s ->
  let st' := fold_left (headingStep m) (fst s :: snd s) st in
  NoteInv (done ++ [noteOfLines (hs_noteLines st)]) st'
  /\ hs_noteLines st' = List.filter truthy (map trim (snd s)).
Proof.
  intros Hinv [Hh Hb]. cbv zeta. cbn [fold_left].
  rewrite (fold_headingStep_body m (snd s) _ Hb).
  destruct (flushNote_NoteInv done st Hinv) as (Hr & Hc & Hn & Hl).
  destruct Hinv as (Hroot & _ & _).
  unfold isHeadingLine in Hh. unfold headingStep. cbv zeta.
  destruct (matchHeading (trim (fst s))) as [[level captured]|]; [|discriminate].
  rewrite Hr. destruct (hs_root st) as [root|]; [|congruence].
  cbn [hs_heap hs_root hs_stack hs_currentNode hs_noteLines hs_nodeIndex].
  assert (Hheap : forall p,
             map o_note
               (pushChild
                  (hs_heap (flushNote st)
                   ++ [newObj (headingId (trim captured) level
                                         (hs_nodeIndex (flushNote st)))
                              (trim captured)
                              (getCollapsed m
                                 (headingId (trim captured) level
                                            (hs_nodeIndex (flushNote st))))])
                  p (length (hs_heap (flushNote st))))
             = (done ++ [noteOfLines (hs_noteLines st)]) ++ [None]).
  { intros p. rewrite notes_pushChild, map_app, Hn. reflexivity. }
  assert (Hcur : length (hs_heap (flushNote st))
                 = length (done ++ [noteOfLines (hs_noteLines st)])).
  { rewrite <- (length_map o_note), Hn. reflexivity. }
  assert (Hnl : hs_noteLines (flushNote st) = []).
  { destruct (hs_noteLines st) as [|n ns] eqn:E; [|apply Hl; discriminate].
    destruct st as [h r stk cur notes idx]. cbn in E. subst notes.
    unfold flushNote. cbn. destruct cur; reflexivity. }
  unfold NoteInv.
  cbn [hs_heap hs_root hs_stack hs_currentNode hs_noteLines hs_nodeIndex].
  rewrite Hnl. cbn [app].
  split; [|reflexivity].
  split; [discriminate|]. split; [f_equal; exact Hcur|].
  destruct (popLevels level (hs_stack (flushNote st))); apply Hheap.
Qed.

Lemma sections_notes m (sections : list (jsstring * list jsstring)) :
  forall done st,
    NoteInv done st -> Forall wellFormedSection sections ->
    map o_note (hs_heap (flushNote (fold_left (headingStep m)
                                              (sectionLines sections) st)))
    = done ++ noteOfLines (hs_noteLines st)
           :: map (fun s => noteOf (snd s)) sections.
Proof.
  induction sections as [|s rest IH]; intros done st Hinv Hs.
  - cbn [sectionLines flat_map fold_left map].
    apply (flushNote_NoteInv done st Hinv).
  - apply Forall_cons in Hs as [Hs Hrest].
    unfold sectionLines. cbn [flat_map]. fold (sectionLines rest).
    change (fst s :: snd s ++ sectionLines rest)
      with ((fst s :: snd s) ++ sectionLines rest).
    rewrite fold_left_app.
    destruct (section_NoteInv m done st s Hinv Hs) as [Hinv' Hl].
    cbv zeta in Hinv', Hl.
    rewrite (IH _ _ Hinv' Hrest), Hl, <- app_assoc. reflexivity.
Qed.

(** The first heading, with whatever came before it. *)
Lemma first_section_NoteInv m pre h0 body0 :
  Forall (fun l => isHeadingLine l = false) (pre ++ body0) ->
  isHeadingLine h0 = true ->
  let st := fold_left (headingStep m) (pre ++ h0 :: body0) hsInit in
  NoteInv [] st
  /\ hs_noteLines st = List.filter truthy (map trim (pre ++ body0)).
Proof.
  intros Hb Hh. cbv zeta.
  apply Forall_app in Hb as [Hpre Hbody].
  rewrite fold_left_app. cbn [fold_left].
  rewrite (fold_headingStep_body m body0 _ Hbody).
  rewrite (fold_headingStep_body m pre _ Hpre).
  cbn [hsInit hs_heap hs_root hs_stack hs_currentNode hs_noteLines
              hs_nodeIndex app].
  unfold isHeadingLine in Hh. unfold headingStep. cbv zeta.
  destruct (matchHeading (trim h0)) as [[level captured]|]; [|discriminate].
  unfold flushNote.
  cbn [hs_heap hs_root hs_stack hs_currentNode hs_noteLines hs_nodeIndex app
               length].
  unfold NoteInv.
  cbn [hs_heap hs_root hs_stack hs_currentNode hs_noteLines hs_nodeIndex app
               length map o_note newObj].
  split; [split; [discriminate|split; reflexivity]|].
  rewrite map_app, List.filter_app. reflexivity.
Qed.

(** X24. In Heading Mode the note of a heading is made of the lines below
    it, up to the next heading: the non-blank ones, trimmed, joined by line
    breaks, the whole trimmed again; a heading with only blank lines below it
    has no note.  The lines before the first heading are not lost: they go
    into the note of the root, ahead of the root's own lines. *)
Theorem heading_notes_from_section_bodies
        (m : Store) (pre : list jsstring) (h0 : jsstring)
        (body0 : list jsstring) (sections : list (jsstring * list jsstring)) :
  Forall (fun l => isHeadingLine l = false) (pre ++ body0) ->
  isHeadingLine h0 = true ->
  Forall wellFormedSection sections ->
  exists t,
    parseHeadingsMode m (pre ++ h0 :: body0 ++ sectionLines sections) = Some t
    /\ map note (nodes t)
       = noteOf (pre ++ body0) :: map (fun s => noteOf (snd s)) sections.
Proof.
  intros Hb Hh Hs.
  set (lines := pre ++ h0 :: body0 ++ sectionLines sections).
  assert (Hnotes : map o_note (hs_heap (headingRun m lines))
                   = noteOf (pre ++ body0)
                     :: map (fun s => noteOf (snd s)) sections).
  { unfold headingRun, lines.
    replace (pre ++ h0 :: body0 ++ sectionLines sections)
      with ((pre ++ h0 :: body0) ++ sectionLines sections)
      by (rewrite <- app_assoc; reflexivity).
    rewrite fold_left_app.
    destruct (first_section_NoteInv m pre h0 body0 Hb Hh) as [Hinv Hl].
    cbv zeta in Hinv, Hl.
    rewrite (sections_notes m sections [] _ Hinv Hs), Hl. reflexivity. }
  destruct (parseHeadingsMode_range m lines) as [[Hh0 _]|(t & Ht & Hn)].
  - rewrite Hh0 in Hnotes. discriminate Hnotes.
  - exists t. split; [exact Ht|].
    destruct (snapshotFrom_fields (hs_heap (headingRun m lines)) 0)
      as (_ & _ & _ & Hnote).
    rewrite Hn, Hnote. exact Hnotes.
Qed.

Lemma heading_notes_from_section_bodies_witness :
  let pre := [lit "intro"] in
  let sections := [(lit "## B", [lit "  about b  "; lit ""])] in
  Forall (fun l => isHeadingLine l = false) (pre ++ [lit "about a"])
  /\ exists t,
       parseHeadingsMode ∅ (pre ++ lit "# A" :: [lit "about a"]
                                ++ sectionLines sections) = Some t
       /\ map note (nodes t)
          = [Some (lit "intro" ++ [NEWLINE] ++ lit "about a");
             Some (lit "about b")].
Proof.
  cbv zeta.
  assert (Hb : Forall (fun l => isHeadingLine l = false)
                      ([lit "intro"] ++ [lit "about a"]))
    by (repeat constructor).
  assert (Hh : isHeadingLine (lit "# A") = true) by reflexivity.
  assert (Hs : Forall wellFormedSection
                      [(lit "## B", [lit "  about b  "; lit ""])])
    by (repeat constructor).
  split; [exact Hb|].
  exact (heading_notes_from_section_bodies ∅ [lit "intro"] (lit "# A")
           [lit "about a"] [(lit "## B", [lit "  about b  "; lit ""])]
           Hb Hh Hs).
Defined.

End NoteFacts.

(* ================================================================== *)
(** ** Notes in List Mode, and the note panel width *)
(* ================================================================== *)

Module PanelFacts.
Import JsString Tree Parser Settings Vocabulary Preorder WidthVocabulary
       TreeFacts StoreFacts HeapFacts PreorderFacts NoteFacts.

Lemma listStep_no_notes m st line :
  ls_stack st <> [] ->
  Forall (fun o => o_note o = None) (ls_heap st) ->
  Forall (fun o => o_note o = None) (ls_heap (listStep m st line)).
Proof.
  intros Hne H.
  destruct (isItemLine line) eqn:Hitem;
    [|rewrite (listStep_skip _ _ _ Hitem); exact H].
  destruct (listStep_item m st line Hitem Hne) as (pre & parent & rest & _ & ->).
  cbn [ls_heap].
  apply (List.Forall_map o_note (fun n => n = None)).
  rewrite notes_pushChild, map_app. apply List.Forall_app. split.
  - apply (List.Forall_map o_note (fun n => n = None)). exact H.
  - repeat constructor.
Qed.

Lemma fold_listStep_no_notes m title (lines : list jsstring) :
  forall st, LInv title st ->
    Forall (fun o => o_note o = None) (ls_heap st) ->
    Forall (fun o => o_note o = None)
           (ls_heap (fold_left (listStep m) lines st)).
Proof.
  induction lines as [|l ls IH]; intros st Hinv H; [exact H|].
  cbn [fold_left]. apply IH; [apply listStep_LInv, Hinv|].
  apply listStep_no_notes; [apply Hinv|exact H].
Qed.

(** X25. List Mode never makes a note: every node of its result is without
    one, whatever the text. *)
Theorem list_mode_makes_no_notes (m : Store) (lines : list jsstring) :
  exists t,
    parseListMode m lines = Some t
    /\ Forall (fun n => note n = None) (nodes t).
Proof.
  destruct (parseListMode_range m lines) as (i & t & _ & Ht & Hn).
  exists t. split; [exact Ht|].
  assert (H : Forall (fun o => o_note o = None) (ls_heap (listRun m lines))).
  { unfold listRun. destruct (scanTitle 0 lines) as [title start].
    apply (fold_listStep_no_notes m title); [apply lsInit_LInv|].
    repeat constructor. }
  destruct (snapshotFrom_fields (ls_heap (listRun m lines)) 0)
    as (_ & _ & _ & Hnote).
  apply (List.Forall_map o_note (fun n => n = None)) in H.
  rewrite <- Hnote in H.
  apply (List.Forall_map note (fun n => n = None)).
  rewrite Hn, OrderFacts.map_drop. apply Forall_drop, H.
Qed.

Lemma onChange_width w s :
  notePanelWidth (notePanelWidthOnChange w s)
  = default (notePanelWidth s) (last (accepted w)).
Proof.
  unfold notePanelWidthOnChange, accepted. destruct w as [w|]; [|reflexivity].
  destruct ((200 <=? w) && (w <=? 800))%Z; reflexivity.
Qed.

(** X26. The note panel width never leaves 200..800.  Starting from a
    width in that range (the default is 300), after any sequence of edits of
    the field the stored width is the last input that was a number within
    200..800, or the starting width when there was none; so it is within
    200..800. *)
Theorem note_panel_width_stays_in_range
        (inputs : list (option Z)) (s : MindMapSettings) :
  (200 <= notePanelWidth s <= 800)%Z ->
  notePanelWidth (typeWidths inputs s)
  = default (notePanelWidth s) (last (flat_map accepted inputs))
  /\ (200 <= notePanelWidth (typeWidths inputs s) <= 800)%Z.
Proof.
  revert s. induction inputs as [|w ws IH]; intros s Hs.
  - split; [reflexivity|exact Hs].
  - unfold typeWidths. cbn [fold_left flat_map].
    fold (typeWidths ws (notePanelWidthOnChange w s)).
    assert (Hs' : (200 <= notePanelWidth (notePanelWidthOnChange w s) <= 800)%Z).
    { unfold notePanelWidthOnChange. destruct w as [w|]; [|exact Hs].
      destruct ((200 <=? w) && (w <=? 800))%Z eqn:E; [|exact Hs].
      cbn [notePanelWidth]. lia. }
    destruct (IH _ Hs') as [IH1 IH2]. split; [|exact IH2].
    rewrite IH1, onChange_width, last_app.
    destruct (last (flat_map accepted ws)); reflexivity.
Qed.

Lemma note_panel_width_stays_in_range_witness :
  (200 <= notePanelWidth DEFAULT_SETTINGS <= 800)%Z
  /\ notePanelWidth
       (typeWidths [Some 1000%Z; Some 250%Z; None; Some 100%Z] DEFAULT_SETTINGS)
     = 250%Z.
Proof.
  assert (H : (200 <= notePanelWidth DEFAULT_SETTINGS <= 800)%Z)
    by (cbn; lia).
  split; [exact H|].
  exact (proj1 (note_panel_width_stays_in_range
                  [Some 1000%Z; Some 250%Z; None; Some 100%Z]
                  DEFAULT_SETTINGS H)).
Defined.

End PanelFacts.

(* ================================================================== *)
(** ** Dragging and pinching *)
(* ================================================================== *)

Module GestureFacts.
Import Renderer Vocabulary ViewVocabulary Gestures.

Open Scope Q_scope.

Lemma mouseMove_idle (moves : list (Q * Q)) (s : Pointer) :
  isDragging s = false ->
  fold_left (fun s c => mouseMove c s) moves s = s.
Proof.
  intros H. induction moves as [|c moves IH]; [reflexivity|].
  cbn [fold_left]. unfold mouseMove at 2. rewrite H. exact IH.
Qed.

Lemma mouseMove_dragging (moves : list (Q * Q)) :
  forall s,
    isDragging s = true ->
    let s' := fold_left (fun s c => mouseMove c s) moves s in
    isDragging s' = true
    /\ dragStartX s' = dragStartX s /\ dragStartY s' = dragStartY s
    /\ scale (p_view s') = scale (p_view s)
    /\ renderMode (p_view s') = renderMode (p_view s).
Proof.
  induction moves as [|c moves IH]; intros s H; cbv zeta.
  - auto.
  - cbn [fold_left].
    assert (H1 : isDragging (mouseMove c s) = true)
      by (unfold mouseMove; rewrite H; reflexivity).
    destruct (IH _ H1) as (I1 & I2 & I3 & I4 & I5). cbv zeta in *.
    rewrite I1, I2, I3, I4, I5. unfold mouseMove. rewrite H. auto.
Qed.

(** X27. A drag is measured from where it began.  After a press of the left
    button at [(x0, y0)] on the background, a move to [(x, y)] leaves mode
    and scale as they were at the press and sets the translation to
    [x - (x0 - translateX)] and [y - (y0 - translateY)], with the
    translation of the press: the two subtractions of the listeners and
    nothing else, so the moves that came in between leave no trace.  Once
    the button is released, moves change nothing.  A press on a collapse
    indicator or a label, or with another button, starts no drag. *)
Theorem drag_moves_drawing_with_cursor
        (s : Pointer) (x0 y0 x y : Q) (between after : list (Q * Q))
        (otherButton : positive) :
  let pressed := mouseDown 0 false x0 y0 s in
  let dragged := fold_left (fun s c => mouseMove c s) (between ++ [(x, y)])
                           pressed in
  let released := mouseUp dragged in
  p_view dragged
  = mkView (renderMode (p_view s)) (scale (p_view s))
           (x - (x0 - translateX (p_view s)))
           (y - (y0 - translateY (p_view s)))
  /\ p_view released = p_view dragged
  /\ fold_left (fun s c => mouseMove c s) after released = released
  /\ mouseDown 0 true x0 y0 s = s
  /\ mouseDown (Z.pos otherButton) false x0 y0 s = s.
Proof.
  cbv zeta. rewrite fold_left_app. cbn [fold_left].
  set (pressed := mouseDown 0 false x0 y0 s).
  assert (Hp : isDragging pressed = true) by reflexivity.
  destruct (mouseMove_dragging between pressed Hp) as (I1 & I2 & I3 & I4 & I5).
  cbv zeta in *.
  set (mid := fold_left (fun s c => mouseMove c s) between pressed) in *.
  unfold mouseMove at 1 2 3. rewrite I1.
  cbn [p_view mouseUp fst snd].
  rewrite I2, I3, I4, I5.
  split; [reflexivity|]. split; [reflexivity|].
  split; [apply mouseMove_idle; reflexivity|].
  split; reflexivity.
Qed.

Lemma gestureChange_fields (events : list GestureEvent) :
  forall s,
    initialScale (fold_left (fun s e => gestureChange e s) events s)
    = initialScale s.
Proof.
  induction events as [|e events IH]; intros s; [reflexivity|].
  cbn [fold_left]. rewrite IH. reflexivity.
Qed.

(** X28. A pinch is measured from where it began.  After [gesturestart] at
    scale [s0], whatever [gesturechange] events came in between, an event
    with factor [k] leaves the scale at [s0 * k] clamped to 0.1..5. *)
Theorem pinch_is_relative_to_gesture_start
        (s : Pointer) (between : list GestureEvent) (e : GestureEvent) :
  let started := gestureStart s in
  let before := fold_left (fun s e => gestureChange e s) between started in
  scale (p_view (gestureChange e before))
  = Qmax 0.1 (Qmin 5 (scale (p_view s) * g_scale e)).
Proof.
  cbv zeta.
  set (before := fold_left (fun s e => gestureChange e s) between
                           (gestureStart s)).
  assert (Hi : initialScale before = scale (p_view s))
    by (unfold before; rewrite gestureChange_fields; reflexivity).
  unfold gestureChange. cbv zeta.
  cbn [p_view scale]. rewrite Hi. reflexivity.
Qed.



End GestureFacts.

(* ================================================================== *)
(** ** Every call numbers its nodes from zero *)
(* ================================================================== *)

Module NumberingFacts.
Import JsString Tree Parser Session Vocabulary Preorder Numbering TreeFacts
       StoreFacts HeapFacts PreorderFacts OrderFacts SessionFacts.

Lemma listId_template t a k : listId t a k = templateId (lit "list-") a k t.
Proof. reflexivity. Qed.

Lemma headingId_template t a k :
  headingId t a k = templateId (lit "heading-") a k t.
Proof. reflexivity. Qed.

(** The ids List Mode stores, in allocation order: the counter goes up by
    one with every item line. *)
Lemma fold_listStep_ids m title (lines : list jsstring) :
  forall st, LInv title st ->
    map o_id (ls_heap (fold_left (listStep m) lines st))
    = map o_id (ls_heap st)
      ++ numberedFrom (lit "list-") (ls_nodeIndex st) (listKeys lines).
Proof.
  induction lines as [|l ls IH]; intros st Hinv.
  - cbn. rewrite app_nil_r. reflexivity.
  - cbn [fold_left]. rewrite IH by (apply listStep_LInv, Hinv).
    unfold listKeys. cbn [List.filter].
    destruct (isItemLine l) eqn:Hitem.
    + destruct (listStep_item m st l Hitem) as (pre & parent & rest & _ & ->);
        [apply Hinv|].
      cbn [ls_heap ls_nodeIndex map numberedFrom].
      rewrite ids_pushChild, map_app, <- app_assoc. reflexivity.
    + rewrite (listStep_skip _ _ _ Hitem). reflexivity.
Qed.

Lemma listRun_ids m lines :
  map o_id (ls_heap (listRun m lines))
  = lit "root"
    :: numberedFrom (lit "list-") 0
                    (listKeys (drop (snd (scanTitle 0 lines)) lines)).
Proof.
  unfold listRun. destruct (scanTitle 0 lines) as [title start]. cbn [fst snd].
  rewrite (fold_listStep_ids m title) by apply lsInit_LInv. reflexivity.
Qed.

(** The same for Heading Mode, one id per heading. *)
Lemma fold_headingStep_ids m (lines : list jsstring) :
  forall st,
    map o_id (hs_heap (fold_left (headingStep m) lines st))
    = map o_id (hs_heap st)
      ++ numberedFrom (lit "heading-") (hs_nodeIndex st) (headingKeys lines).
Proof.
  induction lines as [|l ls IH]; intros st.
  - cbn. rewrite app_nil_r. reflexivity.
  - cbn [fold_left]. rewrite IH.
    pose proof (headingStep_heap m st l) as H. cbv zeta in H.
    unfold headingKeys.
    change (omap headingKey (l :: ls))
      with (match headingKey l with
            | Some k => k :: omap headingKey ls
            | None => omap headingKey ls
            end).
    unfold headingKey at 2.
    destruct (matchHeading (trim l)) as [[level captured]|].
    + destruct H as (_ & -> & ->). cbn [numberedFrom].
      rewrite <- app_assoc. reflexivity.
    + destruct H as (-> & ->). reflexivity.
Qed.

Lemma headingRun_ids m lines :
  map o_id (hs_heap (headingRun m lines))
  = numberedFrom (lit "heading-") 0 (headingKeys lines).
Proof.
  unfold headingRun.
  destruct (flushNote_texts (fold_left (headingStep m) lines hsInit))
    as (_ & -> & _).
  apply fold_headingStep_ids.
Qed.

(** The flags of a result are the store's entries for its ids. *)
Lemma flags_are_store_entries m text t :
  parseMarkdownList m text = Some t ->
  flags t = map (storedFlag m) (ids t).
Proof.
  intros Ht. unfold flags, ids. rewrite map_map.
  apply map_ext_in. intros n Hn.
  rewrite (flags_from_store m text t n Ht Hn).
  unfold getCollapsed, storedFlag.
  destruct (m !! id n) as [[|]|]; reflexivity.
Qed.

(** One call: its result is numbered from zero. *)
Lemma parse_countedFromZero m text :
  countedFromZero m text (parseMarkdownList m text).
Proof.
  unfold countedFromZero.
  destruct (parseMarkdownList m text) as [t|] eqn:Ht.
  - split; [|exact (flags_are_store_entries m text t Ht)].
    unfold idsCountedFromZero, headingModeSelected. cbv zeta.
    unfold parseMarkdownList in Ht.
    destruct (split text) as [|l0 ls] eqn:Hs;
      [destruct (LineFacts.split_nonempty _ Hs)|].
    cbn [length Nat.eqb] in Ht.
    assert (Hh : parseHeadingsMode m (l0 :: ls) = Some t ->
                 ids t = numberedFrom (lit "heading-") 0 (headingKeys (l0 :: ls))).
    { intros Hp.
      destruct (parseHeadingsMode_range m (l0 :: ls))
        as [[_ Hnone]|(t' & Ht' & Hn)]; [congruence|].
      rewrite Ht' in Hp. injection Hp as ->.
      unfold ids. rewrite Hn.
      rewrite (proj1 (snapshotFrom_fields _ 0)). apply headingRun_ids. }
    destruct (hasMultiLevelHeadings (l0 :: ls)); cbn [orb];
      [left; exact (Hh Ht)|].
    destruct (hasHeadings (l0 :: ls) && negb (hasListItems (l0 :: ls)));
      [left; exact (Hh Ht)|].
    destruct (parseListMode_range m (l0 :: ls)) as (i & t' & Hi & Ht' & Hn).
    rewrite Ht' in Ht. injection Ht as ->.
    assert (Hids : ids t
                   = drop i (lit "root"
                             :: numberedFrom (lit "list-") 0
                                  (listKeys (drop (snd (scanTitle 0 (l0 :: ls)))
                                                  (l0 :: ls))))).
    { unfold ids. rewrite Hn, map_drop.
      rewrite (proj1 (snapshotFrom_fields _ 0)), listRun_ids. reflexivity. }
    destruct Hi as [->|[-> _]].
    + left. rewrite Hids, drop_0. reflexivity.
    + right. split; [reflexivity|]. rewrite Hids. reflexivity.
  - unfold idsCountedFromZero, headingModeSelected. cbv zeta.
    unfold parseMarkdownList in Ht.
    destruct (split text) as [|l0 ls] eqn:Hs;
      [destruct (LineFacts.split_nonempty _ Hs)|].
    cbn [length Nat.eqb] in Ht.
    assert (Hh : parseHeadingsMode m (l0 :: ls) = None ->
                 numberedFrom (lit "heading-") 0 (headingKeys (l0 :: ls)) = []).
    { intros Hp.
      destruct (parseHeadingsMode_range m (l0 :: ls))
        as [[Hheap _]|(t' & Ht' & _)]; [|congruence].
      rewrite <- (headingRun_ids m), Hheap. reflexivity. }
    destruct (hasMultiLevelHeadings (l0 :: ls)); cbn [orb]; [exact (Hh Ht)|].
    destruct (hasHeadings (l0 :: ls) && negb (hasListItems (l0 :: ls)));
      [exact (Hh Ht)|].
    destruct (parseListMode_returns m (l0 :: ls)) as [t' Ht'].
    congruence.
Qed.

(** The outline [- A / - B] (B nested under A): three objects are
    allocated, and the result, the synthetic root being dropped, keeps the
    ids with the counter values 0 and 1. *)
Example ids_counted_from_zero_example :
  let text := lit "- A" ++ [NEWLINE] ++ lit "  - B" in
  idsCountedFromZero text = [lit "root"; lit "list-0-0-A"; lit "list-2-1-B"]
  /\ option_map ids (parseMarkdownList ∅ text)
     = Some [lit "list-0-0-A"; lit "list-2-1-B"].
Proof. split; vm_compute; reflexivity. Qed.

(** C2. For every input text, parsing it twice in a row (nothing touching
    the store in between, and the parser itself never writing to it) yields
    two results that are both numbered from zero: each is [null] only where
    Heading Mode finds no heading, and otherwise a tree whose ids, in
    traversal order, carry the counter values 0, 1, 2, ... in their
    [kind-key-index-label] form (after the id [root] of the synthetic root
    in List Mode, where that root is kept), and whose collapsed flags are
    the store's entries for those ids.  The counter therefore starts again
    in the second call instead of going on from the first, and the two
    results have the same ids and the same flags. *)
Theorem parse_twice_same_ids_and_flags (m : Store) (text : jsstring) :
  let '(first, second, m') := parseTwice text m in
  m' = m
  /\ countedFromZero m text first
  /\ countedFromZero m text second
  /\ option_map ids first = option_map ids second
  /\ option_map flags first = option_map flags second.
Proof.
  unfold parseTwice, bind, parse, ret.
  split; [reflexivity|].
  split; [apply parse_countedFromZero|].
  split; [apply parse_countedFromZero|].
  split; reflexivity.
Qed.

End NumberingFacts.
